(** * pipeline-migration-tool: the migrate action

    A shallow embedding of [src/pipeline_migration/actions/migrate.py] and of
    the parts of [src/pipeline_migration/registry.py] it calls, together with
    the properties of the range resolver, the migration fetcher, the two
    resolver strategies, the upgrades manager, the migration applier and the
    cleaning of the upgrades given on the command line.

    Python values are modelled as follows: [str] as [string], [int] as [N] or
    [Z], a [dict] used as a record (a Quay tag, a manifest) as a [Record], a
    [dict] used as a map as a [gmap], exceptions as the [Raise] branch of
    [result]. *)

From Stdlib Require Import ZArith NArith Lia Ascii String List DecimalString Sorted.
From stdpp Require Import gmap strings list fin_maps.

Set Warnings "-register-all,-abstract-large-number".

Local Open Scope string_scope.
Local Open Scope list_scope.

(** ** Exceptions and fallible computations *)

(** The exceptions that can leave the functions modelled here.
    [InvalidVersion] is packaging's (a subclass of [ValueError] in Python),
    [RegistryError] stands for whatever the registry client raises on a failed
    request, [YAMLError] for what loading or dumping YAML raises, [OSError]
    for a failed file operation; [CalledProcessError] is raised by
    [proc.check_returncode()]. *)
Inductive exn : Type :=
| ValueError (msg : string)
| InvalidVersion (version : string)
| IncorrectMigrationAttachment (msg : string)
| RegistryError (msg : string)
| KeyError (key : string)
| IndexError
| YAMLError (msg : string)
| OSError (msg : string)
| CalledProcessError (returncode : Z).

Inductive result (A : Type) : Type :=
| Ok (a : A)
| Raise (e : exn).

Arguments Ok {A} a.
Arguments Raise {A} e.

Definition bind {A B : Type} (r : result A) (k : A -> result B) : result B :=
  match r with
  | Ok a => k a
  | Raise e => Raise e
  end.

Notation "'let*' x ':=' r 'in' k" := (bind r (fun x => k))
  (at level 10, x name, r at level 100, k at level 200).

Fixpoint mapM {A B : Type} (f : A -> result B) (l : list A) : result (list B) :=
  match l with
  | [] => Ok []
  | a :: l' => let* b := f a in let* bs := mapM f l' in Ok (b :: bs)
  end.

(** ** Strings *)

Definition is_digit (c : ascii) : bool :=
  (48 <=? nat_of_ascii c)%nat && (nat_of_ascii c <=? 57)%nat.

Definition is_lower_hex (c : ascii) : bool :=
  is_digit c || ((97 <=? nat_of_ascii c)%nat && (nat_of_ascii c <=? 102)%nat).

Definition digit_value (c : ascii) : N := N.of_nat (nat_of_ascii c - 48).

(** [str.split(sep)] for a one-character separator: never the empty list. *)
Fixpoint split_on (sep : ascii) (s : string) : list string :=
  match s with
  | EmptyString => [EmptyString]
  | String c r =>
      if Ascii.eqb c sep then EmptyString :: split_on sep r
      else match split_on sep r with
           | [] => [String c EmptyString]
           | w :: ws => String c w :: ws
           end
  end.

(** [int(s)] on a non-empty string of ASCII digits. *)
Fixpoint int_of_digits_from (acc : N) (s : string) : option N :=
  match s with
  | EmptyString => Some acc
  | String c r =>
      if is_digit c then int_of_digits_from (10 * acc + digit_value c)%N r
      else None
  end.

Definition int_of_digits (s : string) : option N :=
  match s with
  | EmptyString => None
  | _ => int_of_digits_from 0%N s
  end.

(** [str(n)] for a non-negative integer. *)
Definition str_of_N (n : N) : string := NilZero.string_of_uint (N.to_uint n).

Definition str_of_nat (n : nat) : string := NilZero.string_of_uint (Nat.to_uint n).

(** ** Versions (packaging.version)

    [parse_version] follows packaging's [Version] on the strings made of
    digits and dots, which is all that [TASK_TAG_REGEXP] lets through and the
    form [expand_versions] is written for: the release segment
    [[0-9]+(\.[0-9]+)*] is split on the dots and each part read as an integer;
    a string of digits and dots of any other shape is an [InvalidVersion].
    The other forms of PEP 440 (a leading [v], epoch, pre, post and dev
    releases, local versions) are outside this model: every property below
    that mentions a parsed version is stated for strings on which
    [parse_version] succeeds. What [expand_versions] does with any version
    packaging accepts is stated over [Packaging] below. *)

Record Version : Type := { release : list N }.

Fixpoint all_some {A : Type} (l : list (option A)) : option (list A) :=
  match l with
  | [] => Some []
  | None :: _ => None
  | Some a :: l' => option_map (cons a) (all_some l')
  end.

Definition parse_version (s : string) : result Version :=
  match all_some (map int_of_digits (split_on "." s)) with
  | Some r => Ok {| release := r |}
  | None => Raise (InvalidVersion s)
  end.

(** [Version.minor]: the second release part, 0 when there is none. *)
Definition minor (v : Version) : N := nth 1 (release v) 0%N.

Fixpoint drop_leading_zeros (l : list N) : list N :=
  match l with
  | 0%N :: l' => drop_leading_zeros l'
  | _ => l
  end.

(** The release part of [_cmpkey]: trailing zeros do not count. *)
Definition cmpkey (v : Version) : list N :=
  rev (drop_leading_zeros (rev (release v))).

(** Python's comparison of tuples of integers. *)
Fixpoint tuple_compare (a b : list N) : comparison :=
  match a, b with
  | [], [] => Eq
  | [], _ :: _ => Lt
  | _ :: _, [] => Gt
  | x :: a', y :: b' =>
      match N.compare x y with
      | Eq => tuple_compare a' b'
      | c => c
      end
  end.

Definition Version_compare (v w : Version) : comparison :=
  tuple_compare (cmpkey v) (cmpkey w).

Definition Version_lt (v w : Version) : bool :=
  match Version_compare v w with Lt => true | _ => false end.

Definition Version_gt (v w : Version) : bool := Version_lt w v.

Definition Version_ge (v w : Version) : bool := negb (Version_lt v w).

(** ** expand_versions *)

(** [range(a, b)] over non-negative integers. *)
Definition py_range (a b : N) : list N :=
  map (fun k => (a + N.of_nat k)%N) (seq 0 (N.to_nat (b - a))).

(** What [expand_versions] asks of packaging, which is not part of the
    sources: [parse], the order of two versions and the [minor] of a
    version. *)
Record Packaging : Type := {
  version_t : Type;
  parse : string -> result version_t;
  greater : version_t -> version_t -> bool;
  minor_of : version_t -> N
}.

(** [expand_versions] over an implementation of packaging's versions. *)
Definition expand_versions_with (P : Packaging) (from_ to : string)
  : result (list string) :=
  let* from_version := parse P from_ in
  let* to_version := parse P to in
  if greater P from_version to_version then
    Raise (ValueError ("From version " +:+ from_ +:+ " is greater than the to version "
                         +:+ to +:+ "."))
  else
    Ok (map (fun m => "0." +:+ str_of_N m)
            (py_range (minor_of P from_version) (minor_of P to_version + 1))).

(** The versions modelled above: packaging on strings of digits and dots. *)
Definition release_versions : Packaging :=
  {| version_t := Version; parse := parse_version; greater := Version_gt;
     minor_of := minor |}.

Definition expand_versions (from_ to : string) : result (list string) :=
  expand_versions_with release_versions from_ to.

(** ** Data model *)

Record TaskBundleMigration : Type := {
  task_bundle : string;
  migration_script : string
}.

Record TaskBundleUpgrade : Type := {
  dep_name : string;
  current_value : string;
  current_digest : string;
  new_value : string;
  new_digest : string;
  migrations : list TaskBundleMigration
}.

Definition current_bundle (u : TaskBundleUpgrade) : string :=
  dep_name u +:+ ":" +:+ current_value u +:+ "@" +:+ current_digest u.

Definition new_bundle (u : TaskBundleUpgrade) : string :=
  dep_name u +:+ ":" +:+ new_value u +:+ "@" +:+ new_digest u.

(** A tag mapping as the Quay.io listRepoTags endpoint answers it; only the
    three keys the code reads. *)
Record TagInfo : Type := {
  name : string;
  manifest_digest : string;
  start_ts : Z
}.

(** Modelled from the spec: [QuayTagInfo] of [pipeline_migration/quay.py],
    which is not among the sources: [{name, manifestDigest, startTs}],
    built from a tag mapping by [from_tag_info]. *)
Module QuayTagInfo.

Record t : Type := {
  name : string;
  manifest_digest : string;
  start_ts : Z
}.

End QuayTagInfo.

Definition from_tag_info (item : TagInfo) : QuayTagInfo.t :=
  {| QuayTagInfo.name := name item;
     QuayTagInfo.manifest_digest := manifest_digest item;
     QuayTagInfo.start_ts := start_ts item |}.

(** ** Image references (registry.py, over oras's [Container])

    oras's reference parser is reduced to the three parts the code reads: the
    digest is what follows the first [@], the tag what follows the last [:] of
    the rest when no [/] comes after it. The model is for references that
    oras accepts and that name their registry host, as the [depName] of a
    Konflux bundle does: the [ValueError] of oras for a name it cannot parse
    and the default registry it puts before a name without host are outside
    the model. *)
Record Container : Type := {
  image : string;
  tag : option string;
  digest : option string
}.

Fixpoint split_first (sep : ascii) (s : string) : string * option string :=
  match s with
  | EmptyString => (EmptyString, None)
  | String c r =>
      if Ascii.eqb c sep then (EmptyString, Some r)
      else let '(a, b) := split_first sep r in (String c a, b)
  end.

Fixpoint contains_char (x : ascii) (s : string) : bool :=
  match s with
  | EmptyString => false
  | String c r => Ascii.eqb c x || contains_char x r
  end.

(** The name and the tag of a reference without digest. *)
Fixpoint split_tag (s : string) : string * option string :=
  match s with
  | EmptyString => (EmptyString, None)
  | String c r =>
      let '(a, b) := split_tag r in
      match b with
      | Some t => (String c a, Some t)
      | None =>
          if Ascii.eqb c ":" && negb (contains_char "/" r) then (EmptyString, Some r)
          else (String c a, None)
      end
  end.

Definition nonempty (o : option string) : option string :=
  match o with
  | Some EmptyString => None
  | _ => o
  end.

Definition Container_of (ref : string) : Container :=
  let '(rest, d) := split_first "@" ref in
  let '(n, t) := split_tag rest in
  {| image := n; tag := nonempty t; digest := nonempty d |}.

Definition with_digest (c : Container) (d : string) : Container :=
  {| image := image c; tag := tag c; digest := nonempty (Some d) |}.

(** oras's [Container.uri]: the digest takes precedence over the tag. *)
Definition uri (c : Container) : string :=
  match digest c, tag c with
  | Some d, _ => image c +:+ "@" +:+ d
  | None, Some t => image c +:+ ":" +:+ t
  | None, None => image c
  end.

(** [s.replace("@", by)]. *)
Fixpoint replace_at (by_ : string) (s : string) : string :=
  match s with
  | EmptyString => EmptyString
  | String c r =>
      if Ascii.eqb c "@" then by_ +:+ replace_at by_ r
      else String c (replace_at by_ r)
  end.

Definition uri_with_tag (c : Container) : string :=
  match tag c with
  | Some t => replace_at (":" +:+ t +:+ "@") (uri c)
  | None => uri c
  end.

(** ** The registry

    What the registry answers is the environment of every function below.
    The file cache of [Registry] only replays earlier answers and is left
    out, so that [list_referrers] is [_list_referrers]. The key of the cache
    is built from the namespace of the image before anything is requested;
    the [AttributeError] this raises for an image without namespace is
    outside the model. *)

Definition AnnotationsT : Type := gmap string string.

Record Descriptor : Type := {
  descriptor_digest : string;
  descriptor_annotations : option AnnotationsT
}.

(** [Descriptor.annotations]: [self.data.get("annotations", {})]. *)
Definition annotations_of (d : Descriptor) : AnnotationsT :=
  default ∅ (descriptor_annotations d).

Record ImageIndex : Type := { manifests : list Descriptor }.

Record Manifest : Type := {
  layers : option (list Descriptor);
  manifest_annotations : option AnnotationsT
}.

(** What the registry answers to a request: the content of a 200 response,
    or a failure, which the client turns into an exception of its own. *)
Inductive answer (A : Type) : Type :=
| Answer (a : A)
| Failure (msg : string).

Arguments Answer {A} a.
Arguments Failure {A} msg.

Definition ask {A : Type} (x : answer A) : result A :=
  match x with
  | Answer a => Ok a
  | Failure msg => Raise (RegistryError msg)
  end.

Record Registry : Type := {
  repo_tags : Container -> string -> answer (list TagInfo);
  manifest_of : Container -> answer Manifest;
  referrers_of : Container -> string -> answer ImageIndex;
  blob_of : Container -> string -> answer string
}.

(** Modelled from the spec: [list_active_repo_tags] of
    [pipeline_migration/quay.py], which is not among the sources: the tag
    infos the registry lists for the pattern, all pages of them. *)
Definition list_active_repo_tags (reg : Registry) (c : Container) (tag_name_pattern : string)
  : result (list TagInfo) :=
  ask (repo_tags reg c tag_name_pattern).

Definition get_manifest (reg : Registry) (c : Container) : result Manifest :=
  ask (manifest_of reg c).

Definition get_artifact (reg : Registry) (c : Container) (digest_ : string) : result string :=
  ask (blob_of reg c digest_).

Definition _list_referrers (reg : Registry) (c : Container) (artifact_type : string)
  : result ImageIndex :=
  match digest c with
  | None => Raise (ValueError "Missing digest in image.")
  | Some _ => ask (referrers_of reg c artifact_type)
  end.

Definition list_referrers (reg : Registry) (c : Container) (artifact_type : string)
  : result ImageIndex :=
  _list_referrers reg c artifact_type.

(** ** The range resolver *)

(** [TASK_TAG_REGEXP], [^[0-9.]+-[0-9a-f]+$], as [re.match] applies it: [$]
    also matches before a newline that ends the string. *)
Fixpoint match_revision (seen : bool) (s : string) : bool :=
  match s with
  | EmptyString => seen
  | String c r =>
      if is_lower_hex c then match_revision true r
      else seen && Ascii.eqb c "010" && String.eqb r EmptyString
  end.

Fixpoint match_task_tag (seen : bool) (s : string) : bool :=
  match s with
  | EmptyString => false
  | String c r =>
      if is_digit c || Ascii.eqb c "." then match_task_tag true r
      else if Ascii.eqb c "-" then seen && match_revision false r
      else false
  end.

Definition only_tags_pinned_by_version_revision (tags_info : list TagInfo) : list TagInfo :=
  filter (fun tag_info => match_task_tag false (name tag_info) = true) tags_info.

(** [sorted(tags, key=itemgetter("start_ts"), reverse=True)]. Python's sort
    is stable, also with [reverse=True]: tags of equal [start_ts] keep their
    order. A stable sort is determined by its input, so this insertion sort
    computes the same list (see [sorted_desc_Permutation], [sorted_desc_sorted]
    and [sorted_desc_stable]). *)
Fixpoint insert_desc (x : TagInfo) (l : list TagInfo) : list TagInfo :=
  match l with
  | [] => [x]
  | y :: l' =>
      if (start_ts y <=? start_ts x)%Z then x :: y :: l'
      else y :: insert_desc x l'
  end.

Fixpoint sorted_desc (l : list TagInfo) : list TagInfo :=
  match l with
  | [] => []
  | x :: l' => insert_desc x (sorted_desc l')
  end.

Definition list_bundle_tags (reg : Registry) (bundle_upgrade : TaskBundleUpgrade)
  : result (list TagInfo) :=
  let* versions := expand_versions (current_value bundle_upgrade) (new_value bundle_upgrade) in
  let c := Container_of (dep_name bundle_upgrade) in
  let* tags := mapM (fun version => list_active_repo_tags reg c (version +:+ "-")) versions in
  Ok (sorted_desc (concat tags)).

(** [_parse_version]: the version is what precedes the first [-]. *)
Definition _parse_version (tag_name : string) : result Version :=
  parse_version (hd EmptyString (split_on "-" tag_name)).

(** The variables of the loop of [drop_out_of_order_versions]. *)
Record DropState : Type := {
  tags_that_follow_correct_version_order : list TagInfo;
  highest_version_so_far : option Version;
  is_out_of_order : bool;
  current_tag_info : option TagInfo;
  new_tag_info : option TagInfo
}.

Definition drop_init : DropState :=
  {| tags_that_follow_correct_version_order := [];
     highest_version_so_far := None;
     is_out_of_order := false;
     current_tag_info := None;
     new_tag_info := None |}.

(** The [if]/[elif] that records the current and the new tag. *)
Definition record_tag (bundle_upgrade : TaskBundleUpgrade) (st : DropState) (tag : TagInfo)
  : result DropState :=
  if bool_decide (current_tag_info st = None)
     && String.eqb (manifest_digest tag) (current_digest bundle_upgrade) then
    let* out_of_order :=
      match highest_version_so_far st with
      | Some highest =>
          let* v := _parse_version (name tag) in
          Ok (if Version_lt v highest then true else is_out_of_order st)
      | None => Ok (is_out_of_order st)
      end in
    Ok {| tags_that_follow_correct_version_order := tags_that_follow_correct_version_order st;
          highest_version_so_far := highest_version_so_far st;
          is_out_of_order := out_of_order;
          current_tag_info := Some tag;
          new_tag_info := new_tag_info st |}
  else if bool_decide (new_tag_info st = None)
          && String.eqb (manifest_digest tag) (new_digest bundle_upgrade) then
    Ok {| tags_that_follow_correct_version_order := tags_that_follow_correct_version_order st;
          highest_version_so_far := highest_version_so_far st;
          is_out_of_order := is_out_of_order st;
          current_tag_info := current_tag_info st;
          new_tag_info := Some tag |}
  else Ok st.

(** The second half of the loop body: the watermark. *)
Definition keep_tag (st : DropState) (tag : TagInfo) : result DropState :=
  let* version := _parse_version (name tag) in
  if match highest_version_so_far st with
     | None => true
     | Some highest => Version_ge version highest
     end
  then
    Ok {| tags_that_follow_correct_version_order :=
            tags_that_follow_correct_version_order st ++ [tag];
          highest_version_so_far := Some version;
          is_out_of_order := is_out_of_order st;
          current_tag_info := current_tag_info st;
          new_tag_info := new_tag_info st |}
  else Ok st.

Definition drop_step (bundle_upgrade : TaskBundleUpgrade) (st : DropState) (tag : TagInfo)
  : result DropState :=
  let* st1 := record_tag bundle_upgrade st tag in
  keep_tag st1 tag.

Fixpoint foldM {A S : Type} (f : S -> A -> result S) (st : S) (l : list A) : result S :=
  match l with
  | [] => Ok st
  | a :: l' => let* st' := f st a in foldM f st' l'
  end.

Definition drop_loop (bundle_upgrade : TaskBundleUpgrade) (tags_info : list TagInfo)
  : result DropState :=
  foldM (drop_step bundle_upgrade) drop_init (rev tags_info).

Definition drop_out_of_order_versions
    (tags_info : list TagInfo) (bundle_upgrade : TaskBundleUpgrade)
  : result (list TagInfo * option TagInfo * option TagInfo * bool) :=
  let* st := drop_loop bundle_upgrade tags_info in
  Ok (sorted_desc (tags_that_follow_correct_version_order st),
      current_tag_info st, new_tag_info st, is_out_of_order st).

(** Python's slices [l[start:stop]] and [l[start:]], negative indices
    counting from the end. *)
Definition slice_index (len i : Z) : Z :=
  if (i <? 0)%Z then Z.max (i + len) 0 else Z.min i len.

Definition py_slice {A : Type} (l : list A) (start : Z) (stop : option Z) : list A :=
  let len := Z.of_nat (length l) in
  let a := slice_index len start in
  let b := match stop with Some j => slice_index len j | None => len end in
  firstn (Z.to_nat (b - a)) (skipn (Z.to_nat a) l).

(** The loop over [enumerate(tags_info)] that finds [new_pos] and
    [current_pos]. *)
Fixpoint find_positions (current_digest new_digest : string) (i : Z)
    (tags_info : list TagInfo) (pos : Z * Z) : Z * Z :=
  match tags_info with
  | [] => pos
  | tag :: rest =>
      let this_digest := manifest_digest tag in
      let '(current_pos, new_pos) := pos in
      find_positions current_digest new_digest (i + 1) rest
        (if String.eqb this_digest new_digest then (current_pos, i)
         else if String.eqb this_digest current_digest then (i, new_pos)
         else pos)
  end.

(** What [determine_task_bundle_upgrades_range] does with the tags listed for
    the upgrade. *)
Definition range_of_tags (tags : list TagInfo) (task_bundle_upgrade : TaskBundleUpgrade)
  : result (list QuayTagInfo.t) :=
  let* result :=
    drop_out_of_order_versions (only_tags_pinned_by_version_revision tags)
      task_bundle_upgrade in
  let '(tags_info, current_tag_info, new_tag_info, is_out_of_order) := result in
  match current_tag_info with
  | None => Ok []
  | Some _ =>
      match new_tag_info with
      | None => Ok []
      | Some _ =>
          let '(current_pos, new_pos) :=
            find_positions (current_digest task_bundle_upgrade)
              (new_digest task_bundle_upgrade) 0 tags_info (-1, -1)%Z in
          let the_range :=
            if is_out_of_order then py_slice tags_info new_pos None
            else py_slice tags_info new_pos (Some current_pos) in
          Ok (map from_tag_info the_range)
      end
  end.

Definition determine_task_bundle_upgrades_range
    (reg : Registry) (task_bundle_upgrade : TaskBundleUpgrade)
  : result (list QuayTagInfo.t) :=
  let* tags := list_bundle_tags reg task_bundle_upgrade in
  range_of_tags tags task_bundle_upgrade.

(** ** The migration fetcher *)

Definition ANNOTATION_HAS_MIGRATION : string := "dev.konflux-ci.task.has-migration".
Definition ANNOTATION_IS_MIGRATION : string := "dev.konflux-ci.task.is-migration".
Definition ANNOTATION_PREVIOUS_MIGRATION_BUNDLE : string :=
  "dev.konflux-ci.task.previous-migration-bundle".

Definition to_lower (c : ascii) : ascii :=
  let n := nat_of_ascii c in
  if (65 <=? n)%nat && (n <=? 90)%nat then ascii_of_nat (n + 32) else c.

Fixpoint lower (s : string) : string :=
  match s with
  | EmptyString => EmptyString
  | String c r => String (to_lower c) (lower r)
  end.

(** Modelled from the spec: [is_true] of [pipeline_migration/utils.py], which
    is not among the sources: truthiness is case-insensitive ["true"], any
    other value is false. *)
Definition is_true (value : string) : bool := String.eqb (lower value) "true".

(** [d.get(key, default)] on a dict of strings. *)
Definition get_default (d : AnnotationsT) (key default_ : string) : string :=
  default default_ (d !! key).

(** Truthiness of a [str | None]: [None] and the empty string are false. *)
Definition truthy (o : option string) : bool :=
  match o with
  | Some (String _ _) => true
  | _ => false
  end.

Definition is_migration_descriptor (descriptor : Descriptor) : bool :=
  is_true (get_default (annotations_of descriptor) ANNOTATION_IS_MIGRATION "false").

Definition incorrect_attachment_msg (n : nat) : string :=
  str_of_nat n +:+ " referrers containing migration script are listed. "
    +:+ "However, there should be one per task bundle.".

Definition fetch_migration_file (reg : Registry) (image_ digest_ : string)
  : result (option string) :=
  let c := Container_of image_ in
  if bool_decide (digest c <> None) then
    Raise (ValueError "Image should not include digest.")
  else
    let c := with_digest c digest_ in
    let* image_index := list_referrers reg c "text/x-shellscript" in
    let descriptors :=
      filter (fun d => is_migration_descriptor d = true) (manifests image_index) in
    if (1 <? length descriptors)%nat then
      Raise (IncorrectMigrationAttachment (incorrect_attachment_msg (length descriptors)))
    else
      match descriptors with
      | d0 :: _ =>
          let c := with_digest c (descriptor_digest d0) in
          let* manifest := get_manifest reg c in
          let* ls := match layers manifest with
                     | Some ls => Ok ls
                     | None => Raise (KeyError "layers")
                     end in
          let* descriptor := match ls with
                             | l0 :: _ => Ok l0
                             | [] => Raise IndexError
                             end in
          let* content := get_artifact reg c (descriptor_digest descriptor) in
          Ok (Some content)
      | [] => Ok None
      end.

(** ** The resolver strategies *)

(** How a generator ends: it returns, it raises, or (for the model of an
    unbounded loop) it is still running when the fuel is spent. *)
Inductive GenEnd : Type :=
| StopIteration
| Raised (e : exn)
| Running.

(** What a generator yields before it ends. *)
Definition Generated : Type := (list TaskBundleMigration * GenEnd)%type.

Definition yield_ (m : TaskBundleMigration) (g : Generated) : Generated :=
  (m :: fst g, snd g).

Definition bundle_ref (dep_name_ : string) (tag_info : QuayTagInfo.t) : Container :=
  Container_of (dep_name_ +:+ ":" +:+ QuayTagInfo.name tag_info
                  +:+ "@" +:+ QuayTagInfo.manifest_digest tag_info).

(** [manifest_json.get("annotations", {}).get(key, default)]. *)
Definition manifest_annotation (m : Manifest) (key default_ : string) : string :=
  get_default (default ∅ (manifest_annotations m)) key default_.

Inductive Strategy : Type :=
| SimpleIterationResolver
| LinkedMigrationsResolver.

Fixpoint simple_resolve_migrations (reg : Registry) (dep_name_ : string)
    (upgrades_range : list QuayTagInfo.t) : Generated :=
  match upgrades_range with
  | [] => ([], StopIteration)
  | tag_info :: rest =>
      let c := bundle_ref dep_name_ tag_info in
      match get_manifest reg c with
      | Raise e => ([], Raised e)
      | Ok manifest_json =>
          if negb (is_true (manifest_annotation manifest_json ANNOTATION_HAS_MIGRATION "false"))
          then simple_resolve_migrations reg dep_name_ rest
          else
            match fetch_migration_file reg dep_name_ (QuayTagInfo.manifest_digest tag_info) with
            | Raise e => ([], Raised e)
            | Ok script_content =>
                if truthy script_content then
                  yield_ {| task_bundle := uri_with_tag c;
                            migration_script := default EmptyString script_content |}
                    (simple_resolve_migrations reg dep_name_ rest)
                else simple_resolve_migrations reg dep_name_ rest
            end
      end
  end.

(** [l.index(x)]: the first position of [x], [None] for the [ValueError]. *)
Fixpoint index_of (x : string) (l : list string) : option nat :=
  match l with
  | [] => None
  | y :: l' => if String.eqb y x then Some 0%nat else option_map S (index_of x l')
  end.

(** The [while True] loop of the linked resolver, from position [i]; every
    iteration spends one unit of fuel. *)
Fixpoint linked_loop (fuel : nat) (reg : Registry) (dep_name_ : string)
    (upgrades_range : list QuayTagInfo.t) (manifest_digests : list string) (i : nat)
  : Generated :=
  match fuel with
  | O => ([], Running)
  | S fuel' =>
      match upgrades_range !! i with
      | None => ([], Raised IndexError)
      | Some tag_info =>
          let c := bundle_ref dep_name_ tag_info in
          match get_manifest reg c with
          | Raise e => ([], Raised e)
          | Ok manifest_json =>
              let has_migration :=
                manifest_annotation manifest_json ANNOTATION_HAS_MIGRATION "false" in
              let next :=
                let digest_ :=
                  manifest_annotation manifest_json ANNOTATION_PREVIOUS_MIGRATION_BUNDLE
                    EmptyString in
                if truthy (Some digest_) then
                  match index_of digest_ manifest_digests with
                  | Some j => linked_loop fuel' reg dep_name_ upgrades_range manifest_digests j
                  | None => ([], StopIteration)
                  end
                else ([], StopIteration) in
              if is_true has_migration then
                match fetch_migration_file reg dep_name_
                        (QuayTagInfo.manifest_digest tag_info) with
                | Raise e => ([], Raised e)
                | Ok script_content =>
                    if truthy script_content then
                      yield_ {| task_bundle := uri_with_tag c;
                                migration_script := default EmptyString script_content |}
                        next
                    else next
                end
              else next
          end
      end
  end.

Definition linked_resolve_migrations (fuel : nat) (reg : Registry) (dep_name_ : string)
    (upgrades_range : list QuayTagInfo.t) : Generated :=
  match upgrades_range with
  | [] => ([], StopIteration)
  | _ =>
      let manifest_digests := map QuayTagInfo.manifest_digest upgrades_range in
      linked_loop fuel reg dep_name_ upgrades_range manifest_digests 0
  end.

(** [_resolve_migrations] of the resolver class in use. *)
Definition _resolve_migrations (s : Strategy) (fuel : nat) (reg : Registry)
    (dep_name_ : string) (upgrades_range : list QuayTagInfo.t) : Generated :=
  match s with
  | SimpleIterationResolver => simple_resolve_migrations reg dep_name_ upgrades_range
  | LinkedMigrationsResolver => linked_resolve_migrations fuel reg dep_name_ upgrades_range
  end.

Definition set_migrations (u : TaskBundleUpgrade) (ms : list TaskBundleMigration)
  : TaskBundleUpgrade :=
  {| dep_name := dep_name u;
     current_value := current_value u;
     current_digest := current_digest u;
     new_value := new_value u;
     new_digest := new_digest u;
     migrations := ms |}.

(** The worker [_resolve] of [Resolver.resolve]: the upgrade as the worker
    leaves it, and how the worker ended. The migrations are appended one by
    one as they are yielded and reversed only when the generator returns. *)
Definition _resolve (s : Strategy) (fuel : nat) (reg : Registry) (tb_upgrade : TaskBundleUpgrade)
  : TaskBundleUpgrade * GenEnd :=
  match determine_task_bundle_upgrades_range reg tb_upgrade with
  | Raise e => (tb_upgrade, Raised e)
  | Ok upgrades_range =>
      let '(ys, end_) := _resolve_migrations s fuel reg (dep_name tb_upgrade) upgrades_range in
      let appended := migrations tb_upgrade ++ ys in
      match end_ with
      | StopIteration => (set_migrations tb_upgrade (rev appended), StopIteration)
      | _ => (set_migrations tb_upgrade appended, end_)
      end
  end.

(** How [Resolver.resolve] ends, given how its workers ended. Leaving the
    [with ThreadPoolExecutor()] block waits for every worker, so [resolve]
    does not end while a worker is running; otherwise [future.result()]
    re-raises the exception of a worker that raised (of the first one in the
    list here; the pool reports the first one to complete). *)
Fixpoint first_raised (ends : list GenEnd) : GenEnd :=
  match ends with
  | [] => StopIteration
  | Raised e :: _ => Raised e
  | _ :: rest => first_raised rest
  end.

Definition is_running (e : GenEnd) : bool :=
  match e with Running => true | _ => false end.

Definition resolve_end (ends : list GenEnd) : GenEnd :=
  if existsb is_running ends then Running else first_raised ends.

(** [Resolver.resolve] on a list of distinct upgrade objects (the values of
    the manager's dict). Each worker reads the registry and writes its own
    upgrade only, so the thread pool is modelled by running the workers one
    after the other. *)
Definition resolve (s : Strategy) (fuel : nat) (reg : Registry)
    (tb_upgrades : list TaskBundleUpgrade) : list TaskBundleUpgrade * GenEnd :=
  let done := map (_resolve s fuel reg) tb_upgrades in
  (map fst done, resolve_end (map snd done)).

(** ** The upgrades manager *)

(** A Renovate upgrade mapping, validated upstream against [SCHEMA_UPGRADE]. *)
Record Upgrade : Type := {
  depName : string;
  currentValue : string;
  currentDigest : string;
  newValue : string;
  newDigest : string;
  depTypes : list string;
  packageFile : string;
  parentDir : string
}.

(** A reference to a stored [TaskBundleUpgrade] object is the key under which
    [_task_bundle_upgrades] holds it: what the resolver writes into the object
    is seen through every reference. *)
Record PackageFile : Type := {
  file_path : string;
  parent_dir : string;
  task_bundle_upgrades : list string
}.

(** [_package_file_updates] keeps the order of insertion, which is the order
    [apply_migrations] walks the files in. *)
Record TaskBundleUpgradesManager : Type := {
  _task_bundle_upgrades : gmap string TaskBundleUpgrade;
  _package_file_updates : list PackageFile
}.

Definition new_task_bundle_upgrade (upgrade : Upgrade) : TaskBundleUpgrade :=
  {| dep_name := depName upgrade;
     current_value := currentValue upgrade;
     current_digest := currentDigest upgrade;
     new_value := newValue upgrade;
     new_digest := newDigest upgrade;
     migrations := [] |}.

(** The last four lines of the loop body of [_collect]: the package file of
    that path, created when there is none yet, gets one more reference. *)
Fixpoint append_to_package_file (package_file : PackageFile) (tb_update : string)
    (pfs : list PackageFile) : list PackageFile :=
  match pfs with
  | [] =>
      [ {| file_path := file_path package_file;
           parent_dir := parent_dir package_file;
           task_bundle_upgrades := task_bundle_upgrades package_file ++ [tb_update] |} ]
  | pf :: rest =>
      if String.eqb (file_path pf) (file_path package_file) then
        {| file_path := file_path pf;
           parent_dir := parent_dir pf;
           task_bundle_upgrades := task_bundle_upgrades pf ++ [tb_update] |} :: rest
      else pf :: append_to_package_file package_file tb_update rest
  end.

Definition collect_step (m : TaskBundleUpgradesManager) (upgrade : Upgrade)
  : TaskBundleUpgradesManager :=
  let task_bundle_upgrade := new_task_bundle_upgrade upgrade in
  let package_file :=
    {| file_path := packageFile upgrade;
       parent_dir := parentDir upgrade;
       task_bundle_upgrades := [] |} in
  let key := current_bundle task_bundle_upgrade in
  {| _task_bundle_upgrades :=
       match _task_bundle_upgrades m !! key with
       | None => <[key := task_bundle_upgrade]> (_task_bundle_upgrades m)
       | Some _ => _task_bundle_upgrades m
       end;
     _package_file_updates :=
       append_to_package_file package_file key (_package_file_updates m) |}.

Definition _collect (m : TaskBundleUpgradesManager) (upgrades : list Upgrade)
  : TaskBundleUpgradesManager :=
  fold_left collect_step upgrades m.

(** [TaskBundleUpgradesManager(upgrades, resolver_class)]. *)
Definition new_manager (upgrades : list Upgrade) : TaskBundleUpgradesManager :=
  _collect {| _task_bundle_upgrades := ∅; _package_file_updates := [] |} upgrades.

(** [resolve_migrations]: [Resolver.resolve] over the stored upgrades, which
    are written in place. *)
Definition resolve_migrations (s : Strategy) (fuel : nat) (reg : Registry)
    (m : TaskBundleUpgradesManager) : TaskBundleUpgradesManager * GenEnd :=
  let done := _resolve s fuel reg <$> _task_bundle_upgrades m in
  ({| _task_bundle_upgrades := fst <$> done;
      _package_file_updates := _package_file_updates m |},
   resolve_end (snd <$> (map_to_list done).*2)).

(** ** The migration applier *)

(** The file system: the content of every file that exists, and the counter
    the names of temporary files are drawn from ([tempfile] draws them at
    random). *)
Record FS : Type := {
  files : gmap string string;
  next_temp : nat
}.

Definition write_file (fs : FS) (path content : string) : FS :=
  {| files := <[path := content]> (files fs); next_temp := next_temp fs |}.

Definition unlink (fs : FS) (path : string) : FS :=
  {| files := delete path (files fs); next_temp := next_temp fs |}.

Definition temp_name (n : nat) (suffix : string) : string :=
  "/tmp/tmp" +:+ str_of_nat n +:+ suffix.

(** [tempfile.mkstemp(suffix=...)]: candidate names are tried until one is
    not in use, [TMP_MAX] times at most; the file is created empty. *)
Definition TMP_MAX : nat := 10000.

Fixpoint mkstemp_from (attempts : nat) (suffix : string) (fs : FS) : result (string * FS) :=
  match attempts with
  | O => Raise (OSError "No usable temporary file name found")
  | S attempts' =>
      let path := temp_name (next_temp fs) suffix in
      let fs' := {| files := files fs; next_temp := S (next_temp fs) |} in
      match files fs !! path with
      | None => Ok (path, write_file fs' path EmptyString)
      | Some _ => mkstemp_from attempts' suffix fs'
      end
  end.

Definition mkstemp (suffix : string) (fs : FS) : result (string * FS) :=
  mkstemp_from TMP_MAX suffix fs.

(** YAML documents, as far as the applier looks into them. *)
Inductive Yaml : Type :=
| YScalar (s : string)
| YSeq (items : list Yaml)
| YMap (entries : list (string * Yaml)).

Fixpoint assoc_get (key : string) (entries : list (string * Yaml)) : option Yaml :=
  match entries with
  | [] => None
  | (k, v) :: rest => if String.eqb k key then Some v else assoc_get key rest
  end.

Fixpoint assoc_set (key : string) (v : Yaml) (entries : list (string * Yaml))
  : list (string * Yaml) :=
  match entries with
  | [] => [(key, v)]
  | (k, w) :: rest =>
      if String.eqb k key then (k, v) :: rest else (k, w) :: assoc_set key v rest
  end.

(** [doc[key]]. *)
Definition getitem (doc : Yaml) (key : string) : result Yaml :=
  match doc with
  | YMap entries =>
      match assoc_get key entries with
      | Some v => Ok v
      | None => Raise (KeyError key)
      end
  | _ => Raise (KeyError key)
  end.

(** [doc[key] = v]. *)
Definition setitem (doc : Yaml) (key : string) (v : Yaml) : result Yaml :=
  match doc with
  | YMap entries => Ok (YMap (assoc_set key v entries))
  | _ => Raise (KeyError key)
  end.

(** The block-sequence indentations of [YAMLStyle]; the applier only passes
    the style on. *)
Definition YAMLStyle : Type := list (nat * nat).

(** What the applier calls outside this module: [bash], which maps the text
    of a script and the content of the file given as [$1] to the new content
    of that file and the exit code (a migration edits the pipeline file in
    place and touches no other file: a script that reads or writes
    elsewhere, or removes the scratch file it is run from, is outside the
    model); and what [load_yaml], [dump_yaml] and [file_checksum] of
    [pipeline_migration/utils.py] compute from and to the text of a file. *)
Record Tools : Type := {
  bash : string -> option string -> option string * Z;
  load_yaml_text : string -> YAMLStyle -> result Yaml;
  dump_yaml_text : Yaml -> YAMLStyle -> result string;
  checksum : string -> string
}.

(** The content of a file that exists. *)
Definition read_file (fs : FS) (path : string) : result string :=
  match files fs !! path with
  | Some content => Ok content
  | None => Raise (OSError ("No such file or directory: " +:+ path))
  end.

(** Modelled from the spec: [file_checksum], [load_yaml] and [dump_yaml] of
    [pipeline_migration/utils.py], which is not among the sources: the
    checksum of the content of a file, a YAML file loaded, a document dumped
    to a file in a style. What a dump that raises leaves in its file is
    outside the model. *)
Definition file_checksum (t : Tools) (fs : FS) (path : string) : result string :=
  let* content := read_file fs path in Ok (checksum t content).

Definition load_yaml (t : Tools) (fs : FS) (path : string) (style : YAMLStyle) : result Yaml :=
  let* content := read_file fs path in load_yaml_text t content style.

Definition dump_yaml (t : Tools) (fs : FS) (path : string) (doc : Yaml) (style : YAMLStyle)
  : result FS :=
  let* content := dump_yaml_text t doc style in Ok (write_file fs path content).

(** [os.truncate(fd, n)] for [n] below the size, and [os.write(fd, content)]
    at offset 0. *)
Definition truncate (n : nat) (old : string) : string := String.substring 0 n old.

Definition write_at_0 (content old : string) : string :=
  content +:+ String.substring (String.length content)
                (String.length old - String.length content) old.

(** [sp.run(["bash", migration_file, file_path], ...)] followed by
    [proc.check_returncode()]. *)
Definition run_migration (t : Tools) (fs : FS) (migration_file file_path_ : string)
  : FS * result unit :=
  match files fs !! migration_file with
  | None => (fs, Raise (CalledProcessError 127))
  | Some script =>
      let '(content, returncode) := bash t script (files fs !! file_path_) in
      let fs' :=
        match content with
        | Some text => write_file fs file_path_ text
        | None => unlink fs file_path_
        end in
      (fs', if (returncode =? 0)%Z then Ok tt else Raise (CalledProcessError returncode))
  end.

(** The body of the [try] of [_apply_migration]: the two nested loops,
    flattened; [prev_size] is threaded through. *)
Fixpoint apply_scripts (t : Tools) (fs : FS) (migration_file file_path_ : string)
    (prev_size : nat) (scripts : list TaskBundleMigration) : FS * result unit :=
  match scripts with
  | [] => (fs, Ok tt)
  | migration :: rest =>
      let content := migration_script migration in
      let old := default EmptyString (files fs !! migration_file) in
      let old := if (String.length content <? prev_size)%nat
                 then truncate (String.length content) old else old in
      let fs1 := write_file fs migration_file (write_at_0 content old) in
      let prev_size := String.length content in
      match run_migration t fs1 migration_file file_path_ with
      | (fs2, Ok _) => apply_scripts t fs2 migration_file file_path_ prev_size rest
      | (fs2, Raise e) => (fs2, Raise e)
      end
  end.

(** [MigrationFileOperation._apply_migration]: the [finally] clause runs on
    every way out of the [try]. *)
Definition _apply_migration (t : Tools) (upgrades : list TaskBundleUpgrade)
    (fs : FS) (file_path_ : string) : FS * result unit :=
  match mkstemp "-migration-file" fs with
  | Raise e => (fs, Raise e)
  | Ok (migration_file, fs0) =>
      let '(fs1, r) :=
        apply_scripts t fs0 migration_file file_path_ 0
          (concat (map migrations upgrades)) in
      (unlink fs1 migration_file, r)
  end.

(** A statement that may raise, in a function that changes the file system. *)
Definition seq_fs {A : Type} (fs : FS) (r : result A) (k : A -> FS * result unit)
  : FS * result unit :=
  match r with
  | Ok a => k a
  | Raise e => (fs, Raise e)
  end.

Definition handle_pipeline_file (t : Tools) (upgrades : list TaskBundleUpgrade)
    (fs : FS) (file_path_ : string) (loaded_doc : Yaml) (style : YAMLStyle)
  : FS * result unit :=
  seq_fs fs (file_checksum t fs file_path_) (fun origin_checksum =>
  match _apply_migration t upgrades fs file_path_ with
  | (fs1, Raise e) => (fs1, Raise e)
  | (fs1, Ok _) =>
      seq_fs fs1 (file_checksum t fs1 file_path_) (fun new_checksum =>
      if String.eqb new_checksum origin_checksum then (fs1, Ok tt)
      else
        seq_fs fs1 (load_yaml t fs1 file_path_ style) (fun pl_yaml =>
        seq_fs fs1 (dump_yaml t fs1 file_path_ pl_yaml style) (fun fs2 =>
        (fs2, Ok tt))))
  end).

Definition handle_pipeline_run_file (t : Tools) (upgrades : list TaskBundleUpgrade)
    (fs : FS) (file_path_ : string) (loaded_doc : Yaml) (style : YAMLStyle)
  : FS * result unit :=
  let original_pipeline_doc := loaded_doc in
  seq_fs fs (mkstemp "-pipeline" fs) (fun '(temp_pipeline_file, fs0) =>
  seq_fs fs0 (let* spec := getitem original_pipeline_doc "spec" in
              getitem spec "pipelineSpec") (fun embedded =>
  let pipeline_spec := YMap [("spec", embedded)] in
  seq_fs fs0 (dump_yaml t fs0 temp_pipeline_file pipeline_spec style) (fun fs1 =>
  seq_fs fs1 (file_checksum t fs1 temp_pipeline_file) (fun origin_checksum =>
  match _apply_migration t upgrades fs1 temp_pipeline_file with
  | (fs2, Raise e) => (fs2, Raise e)
  | (fs2, Ok _) =>
      seq_fs fs2 (file_checksum t fs2 temp_pipeline_file) (fun new_checksum =>
      if String.eqb new_checksum origin_checksum then (fs2, Ok tt)
      else
        seq_fs fs2 (load_yaml t fs2 temp_pipeline_file style) (fun modified_pipeline =>
        seq_fs fs2 (let* modified_spec := getitem modified_pipeline "spec" in
                    let* spec := getitem original_pipeline_doc "spec" in
                    let* spec' := setitem spec "pipelineSpec" modified_spec in
                    setitem original_pipeline_doc "spec" spec') (fun doc' =>
        seq_fs fs2 (dump_yaml t fs2 file_path_ doc' style) (fun fs3 =>
        (fs3, Ok tt)))))
  end)))).

(** ** The upgrades given on the command line *)

(** JSON values as [json.loads] builds them. The keys of an object are
    distinct; of a floating-point number only what the code can tell is
    kept, whether it is zero. *)
Inductive Json : Type :=
| JNull
| JBool (b : bool)
| JInt (n : Z)
| JFloat (is_zero : bool)
| JString (s : string)
| JArray (items : list Json)
| JObject (entries : list (string * Json)).

(** [bool(value)]. *)
Definition json_truthy (value : Json) : bool :=
  match value with
  | JNull => false
  | JBool b => b
  | JInt n => negb (n =? 0)%Z
  | JFloat is_zero => negb is_zero
  | JString s => negb (String.eqb s EmptyString)
  | JArray items => match items with [] => false | _ => true end
  | JObject entries => match entries with [] => false | _ => true end
  end.

(** [d.get(key)] on a dict: [None] when the key is missing. *)
Fixpoint json_get (key : string) (entries : list (string * Json)) : option Json :=
  match entries with
  | [] => None
  | (k, v) :: rest => if String.eqb k key then Some v else json_get key rest
  end.

(** How [clean_upgrades] ends when it does not return. *)
Inductive upgrades_error : Type :=
| InvalidRenovateUpgradesData (msg : string)
| AttributeError (attribute : string)
| TypeError
| MissingKey (key : string).

Definition cleaned (A : Type) : Type := (upgrades_error + A)%type.

(** What [clean_upgrades] reads of a [jsonschema] [ValidationError]. *)
Record ValidationError : Type := {
  path : list string;
  validator : string;
  message : string;
  json_path : string
}.

(** What [clean_upgrades] calls outside this module and reads of its
    environment: [json.loads], [None] for the [JSONDecodeError];
    [Draft202012Validator(SCHEMA_UPGRADE).validate], [None] when the upgrade
    passes; and the variable [PMT_LOCAL_TEST]. *)
Record Environment : Type := {
  json_loads : string -> option Json;
  validate : Json -> option ValidationError;
  PMT_LOCAL_TEST : option string
}.

Definition comes_from_konflux (env : Environment) (image_repo : Json) : cleaned bool :=
  if truthy (PMT_LOCAL_TEST env) then inr true
  else
    match image_repo with
    | JString s => inr (String.prefix "quay.io/konflux-ci/" s)
    | _ => inl (AttributeError "startswith")
    end.

(** [x == s] for a string [s]. *)
Definition json_is_string (s : string) (x : Json) : bool :=
  match x with
  | JString s' => String.eqb s' s
  | _ => false
  end.

(** [s in container] for a string [s]: an item of a list, a part of a
    string, a key of a dict. *)
Definition json_contains (s : string) (container : Json) : cleaned bool :=
  match container with
  | JArray items => inr (existsb (json_is_string s) items)
  | JString s' => inr (match String.index 0 s s' with Some _ => true | None => false end)
  | JObject entries => inr (match json_get s entries with Some _ => true | None => false end)
  | _ => inl TypeError
  end.

(** The message for an upgrade that does not pass the schema. *)
Definition validation_message (e : ValidationError) : string :=
  let field := hd EmptyString (path e) in
  if String.eqb (validator e) "minLength" then
    "Property " +:+ field +:+ " is empty: " +:+ message e
  else
    "Invalid upgrades data: " +:+ message e +:+ ", path '" +:+ json_path e +:+ "'".

(** The loop of [clean_upgrades] over the upgrades. *)
Fixpoint clean_loop (env : Environment) (cleaned_upgrades upgrades : list Json)
  : cleaned (list Json) :=
  match upgrades with
  | [] => inr cleaned_upgrades
  | upgrade :: rest =>
      if negb (json_truthy upgrade) then clean_loop env cleaned_upgrades rest
      else
        match upgrade with
        | JObject entries =>
            let dep_name := default JNull (json_get "depName" entries) in
            if negb (json_truthy dep_name) then
              inl (InvalidRenovateUpgradesData
                     "Upgrade does not have value of field depName.")
            else
              match comes_from_konflux env dep_name with
              | inl e => inl e
              | inr false => clean_loop env cleaned_upgrades rest
              | inr true =>
                  match validate env upgrade with
                  | Some e => inl (InvalidRenovateUpgradesData (validation_message e))
                  | None =>
                      match json_get "depTypes" entries with
                      | None => inl (MissingKey "depTypes")
                      | Some dep_types =>
                          match json_contains "tekton-bundle" dep_types with
                          | inl e => inl e
                          | inr false => clean_loop env cleaned_upgrades rest
                          | inr true =>
                              clean_loop env (cleaned_upgrades ++ [upgrade]) rest
                          end
                      end
                  end
              end
        | _ => inl (AttributeError "get")
        end
  end.

Definition clean_upgrades (env : Environment) (input_upgrades : string)
  : cleaned (list Json) :=
  match json_loads env input_upgrades with
  | None =>
      inl (InvalidRenovateUpgradesData "Input upgrades is not a valid encoded JSON string.")
  | Some (JArray upgrades) => clean_loop env [] upgrades
  | Some _ =>
      inl (InvalidRenovateUpgradesData
             "Input upgrades is not a list containing Renovate upgrade mappings.")
  end.

(** * Definitions for the statements

    What the properties below are stated with: the notions of the
    specification, the invariant of the pruning loop, and the registries,
    upgrades and documents of the examples. *)

(** ** Sorting and pruning *)

(** Newest first. *)
Definition newer_or_same (x y : TagInfo) : Prop := (start_ts y <= start_ts x)%Z.

(** The tags of one [start_ts], in the order of the list. *)
Definition at_ts (ts : Z) (l : list TagInfo) : list TagInfo :=
  filter (fun t => start_ts t = ts) l.

(** The names of the tags parsed, in the order given. *)
Definition with_versions (tags_info : list TagInfo) : result (list (TagInfo * Version)) :=
  mapM (fun t => let* v := _parse_version (name t) in Ok (t, v)) tags_info.

(** The pruning as the specification words it: going through the tags oldest
    first with the highest version seen, a tag whose version is at least that
    watermark is kept and becomes the watermark, any other tag is dropped. *)
Fixpoint prune_by_watermark (highestSeenVersion : option Version)
    (tags : list (TagInfo * Version)) : list TagInfo :=
  match tags with
  | [] => []
  | (t, v) :: rest =>
      if match highestSeenVersion with
         | None => true
         | Some h => Version_ge v h
         end
      then t :: prune_by_watermark (Some v) rest
      else prune_by_watermark highestSeenVersion rest
  end.

(** The six tags of the docstring of [drop_out_of_order_versions], newest
    first, with any digests and time stamps. *)
Definition example_tags (d1 d2 d3 d4 d5 d6 : string) (t1 t2 t3 t4 t5 t6 : Z) : list TagInfo :=
  [ {| name := "0.3-b"; manifest_digest := d1; start_ts := t1 |};
    {| name := "0.2-b"; manifest_digest := d2; start_ts := t2 |};
    {| name := "0.3-a"; manifest_digest := d3; start_ts := t3 |};
    {| name := "0.1-b"; manifest_digest := d4; start_ts := t4 |};
    {| name := "0.2-a"; manifest_digest := d5; start_ts := t5 |};
    {| name := "0.1-a"; manifest_digest := d6; start_ts := t6 |} ].

(** An upgrade among them whose current tag, ["0.1-b"], is out of order. *)
Definition example_upgrade : TaskBundleUpgrade :=
  {| dep_name := "quay.io/konflux-ci/foo"; current_value := "0.1";
     current_digest := "sha256:03"; new_value := "0.3"; new_digest := "sha256:06";
     migrations := [] |}.

Definition example_listing : list TagInfo :=
  example_tags "sha256:06" "sha256:05" "sha256:04" "sha256:03" "sha256:02" "sha256:01"
    6 5 4 3 2 1.


(** ** The invariant of the pruning loop *)

(** The number of tags of a list that carry a digest. *)
Definition occurrences (d : string) (l : list TagInfo) : nat :=
  length (filter (fun t => manifest_digest t = d) l).

(** What holds of the loop variables after the tags [seen]. *)
Record drop_inv (up : TaskBundleUpgrade) (seen : list TagInfo) (st : DropState) : Prop := {
  inv_kept : forall d,
    (occurrences d (tags_that_follow_correct_version_order st) <= occurrences d seen)%nat;
  inv_current_some : forall t,
    current_tag_info st = Some t -> t ∈ seen /\ manifest_digest t = current_digest up;
  inv_current_none :
    current_tag_info st = None -> occurrences (current_digest up) seen = 0%nat;
  inv_new_some : forall t,
    new_tag_info st = Some t -> t ∈ seen /\ manifest_digest t = new_digest up;
  inv_new_none :
    new_tag_info st = None -> current_digest up <> new_digest up ->
    occurrences (new_digest up) seen = 0%nat;
  inv_same_digest :
    current_digest up = new_digest up -> new_tag_info st <> None ->
    (2 <= occurrences (current_digest up) seen)%nat;
  inv_out_of_order_current :
    is_out_of_order st = true -> current_tag_info st <> None;
  inv_out_of_order :
    is_out_of_order st = true ->
    occurrences (current_digest up) (tags_that_follow_correct_version_order st) = 0%nat
    \/ (2 <= occurrences (current_digest up) seen)%nat
}.

(** The test of the watermark. *)
Definition keeps (st : DropState) (v : Version) : bool :=
  match highest_version_so_far st with
  | None => true
  | Some highest => Version_ge v highest
  end.

(** The three ways through the [if]/[elif] of the loop body. *)
Inductive recorded (up : TaskBundleUpgrade) (st : DropState) (t : TagInfo) (v : Version)
  : DropState -> Prop :=
| recorded_current :
    current_tag_info st = None ->
    manifest_digest t = current_digest up ->
    recorded up st t v
      {| tags_that_follow_correct_version_order := tags_that_follow_correct_version_order st;
         highest_version_so_far := highest_version_so_far st;
         is_out_of_order := negb (keeps st v) || is_out_of_order st;
         current_tag_info := Some t;
         new_tag_info := new_tag_info st |}
| recorded_new :
    (current_tag_info st <> None \/ manifest_digest t <> current_digest up) ->
    new_tag_info st = None ->
    manifest_digest t = new_digest up ->
    recorded up st t v
      {| tags_that_follow_correct_version_order := tags_that_follow_correct_version_order st;
         highest_version_so_far := highest_version_so_far st;
         is_out_of_order := is_out_of_order st;
         current_tag_info := current_tag_info st;
         new_tag_info := Some t |}
| recorded_none :
    (current_tag_info st <> None \/ manifest_digest t <> current_digest up) ->
    (new_tag_info st <> None \/ manifest_digest t <> new_digest up) ->
    recorded up st t v st.

(** The name of the tag has a version. *)
Definition parses (t : TagInfo) : Prop := exists v, _parse_version (name t) = Ok v.

(** The slice taken once both tags are found. *)
Definition the_range (up : TaskBundleUpgrade) (st : DropState) : list TagInfo :=
  let tags_info := sorted_desc (tags_that_follow_correct_version_order st) in
  let '(current_pos, new_pos) :=
    find_positions (current_digest up) (new_digest up) 0 tags_info (-1, -1)%Z in
  if is_out_of_order st then py_slice tags_info new_pos None
  else py_slice tags_info new_pos (Some current_pos).

(** ** Registries and upgrades of the examples *)

(** Quay's [like:] filter of tag names: the pattern is found somewhere in the
    name. *)
Definition like (pattern tag_name : string) : bool :=
  match String.index 0 pattern tag_name with
  | Some _ => true
  | None => false
  end.

Definition lookup_by_digest {A : Type} (what : string) (m : gmap string A) (c : Container)
  : answer A :=
  match digest c with
  | None => Failure (what +:+ " of an image without digest")
  | Some d =>
      match m !! d with
      | Some a => Answer a
      | None => Failure (what +:+ " not found: " +:+ d)
      end
  end.

(** A registry that holds the given tags, manifests, referrers and blobs;
    manifests and referrers are found by digest, and an image without
    referrers has an empty index. *)
Definition registry_of (tags : list TagInfo) (manifests_ : gmap string Manifest)
    (referrers : gmap string ImageIndex) (blobs : gmap string string) : Registry :=
  {| repo_tags := fun _ pattern =>
       Answer (filter (fun t => like pattern (name t) = true) tags);
     manifest_of := lookup_by_digest "manifest" manifests_;
     referrers_of := fun c _ =>
       match lookup_by_digest "referrers" referrers c with
       | Answer index => Answer index
       | Failure _ => Answer {| manifests := [] |}
       end;
     blob_of := fun _ d =>
       match blobs !! d with
       | Some text => Answer text
       | None => Failure ("blob not found: " +:+ d)
       end |}.

Definition tags_only (tags : list TagInfo) : Registry := registry_of tags ∅ ∅ ∅.

Definition upgrade_of (cv cd nv nd : string) : TaskBundleUpgrade :=
  {| dep_name := "quay.io/konflux-ci/foo"; current_value := cv; current_digest := cd;
     new_value := nv; new_digest := nd; migrations := [] |}.

(** ** The range resolver: the claims as worded, and listings that refute them *)



(** The claim C10 as it is worded. *)
Definition empty_range_when_digests_equal : Prop :=
  forall reg up r,
    current_digest up = new_digest up ->
    determine_task_bundle_upgrades_range reg up = Ok r ->
    r = [].

(** Two tags of one manifest: the first met is the current tag and, the
    [elif] being open again, the second is the new tag. *)
Definition twice_tagged : list TagInfo :=
  [ {| name := "0.1-c"; manifest_digest := "sha256:0d"; start_ts := 3 |};
    {| name := "0.1-b"; manifest_digest := "sha256:0d"; start_ts := 2 |};
    {| name := "0.1-a"; manifest_digest := "sha256:0e"; start_ts := 1 |} ].




(** ** The fetcher and the resolvers *)

(** The descriptors of an index that are marked as migrations. *)
Definition migration_descriptors (index : ImageIndex) : list Descriptor :=
  filter (fun d => is_migration_descriptor d = true) (manifests index).

Definition migration_referrer (d : string) : Descriptor :=
  {| descriptor_digest := d;
     descriptor_annotations := Some {[ ANNOTATION_IS_MIGRATION := "true" ]} |}.


(** The position the loop goes to after position [i], if it goes on. *)
Definition next_position (reg : Registry) (dep_name_ : string)
    (upgrades_range : list QuayTagInfo.t) (i : nat) : option nat :=
  match upgrades_range !! i with
  | None => None
  | Some tag_info =>
      match get_manifest reg (bundle_ref dep_name_ tag_info) with
      | Raise _ => None
      | Ok manifest_json =>
          let digest_ :=
            manifest_annotation manifest_json ANNOTATION_PREVIOUS_MIGRATION_BUNDLE
              EmptyString in
          if truthy (Some digest_)
          then index_of digest_ (map QuayTagInfo.manifest_digest upgrades_range)
          else None
      end
  end.

(** Every link that is found in the range leads to an older tag. *)
Definition links_lead_to_older (reg : Registry) (dep_name_ : string)
    (upgrades_range : list QuayTagInfo.t) : Prop :=
  forall i j : nat, next_position reg dep_name_ upgrades_range i = Some j -> (i < j)%nat.

(** The claim C2 as it is worded. *)
Definition linked_resolver_terminates : Prop :=
  forall reg dep_name_ upgrades_range,
    upgrades_range <> [] ->
    exists fuel,
      snd (linked_resolve_migrations fuel reg dep_name_ upgrades_range) <> Running.

(** A bundle whose [previous-migration-bundle] annotation is its own digest. *)
Definition self_linked_tag : QuayTagInfo.t :=
  {| QuayTagInfo.name := "0.1-a"; QuayTagInfo.manifest_digest := "sha256:0a";
     QuayTagInfo.start_ts := 1 |}.

Definition self_linked : Registry :=
  registry_of []
    {[ "sha256:0a" :=
         {| layers := Some [];
            manifest_annotations :=
              Some {[ ANNOTATION_PREVIOUS_MIGRATION_BUNDLE := "sha256:0a" ]} |} ]}
    ∅ ∅.

(** S2: four tags, newest first; the newest links to the third, the third to
    the oldest; the first and the third carry a migration. *)
Definition linked_tags : list TagInfo :=
  [ {| name := "0.2-d"; manifest_digest := "sha256:d3"; start_ts := 4 |};
    {| name := "0.2-c"; manifest_digest := "sha256:d2"; start_ts := 3 |};
    {| name := "0.1-b"; manifest_digest := "sha256:d1"; start_ts := 2 |};
    {| name := "0.1-a"; manifest_digest := "sha256:d0"; start_ts := 1 |} ].

Definition bundle_manifest (has_migration : bool) (previous : string) : Manifest :=
  {| layers := Some [];
     manifest_annotations :=
       Some ((if has_migration
              then {[ ANNOTATION_HAS_MIGRATION := "true" ]} else ∅)
             ∪ (match previous with
                | EmptyString => ∅
                | _ => {[ ANNOTATION_PREVIOUS_MIGRATION_BUNDLE := previous ]}
                end)) |}.

Definition script_manifest (layer : string) : Manifest :=
  {| layers := Some [ {| descriptor_digest := layer; descriptor_annotations := None |} ];
     manifest_annotations := None |}.

Definition linked_registry : Registry :=
  registry_of linked_tags
    {[ "sha256:d3" := bundle_manifest true "sha256:d1";
       "sha256:d2" := bundle_manifest false "";
       "sha256:d1" := bundle_manifest true "sha256:d0";
       "sha256:d0" := bundle_manifest false "";
       "sha256:a3" := script_manifest "sha256:b3";
       "sha256:a1" := script_manifest "sha256:b1" ]}
    {[ "sha256:d3" := {| manifests := [migration_referrer "sha256:a3"] |};
       "sha256:d1" := {| manifests := [migration_referrer "sha256:a1"] |} ]}
    {[ "sha256:b3" := "echo 3"; "sha256:b1" := "echo 1" ]}.

Definition linked_range : list QuayTagInfo.t := map from_tag_info linked_tags.

(** The claim C5 as it is worded. *)
Definition resolve_stores_reversal : Prop :=
  forall (s : Strategy) (fuel : nat) (reg : Registry)
         (tb_upgrades resolved : list TaskBundleUpgrade),
    resolve s fuel reg tb_upgrades = (resolved, StopIteration) ->
    Forall2
      (fun u u' =>
         exists upgrades_range ys,
           determine_task_bundle_upgrades_range reg u = Ok upgrades_range
           /\ _resolve_migrations s fuel reg (dep_name u) upgrades_range = (ys, StopIteration)
           /\ migrations u' = rev ys)
      tb_upgrades resolved.

(** An upgrade of [linked_registry] that has been resolved once: it holds the
    two migrations of its range, oldest first. *)
Definition resolved_once : TaskBundleUpgrade :=
  {| dep_name := "quay.io/konflux-ci/foo"; current_value := "0.1";
     current_digest := "sha256:d0"; new_value := "0.2"; new_digest := "sha256:d3";
     migrations :=
       [ {| task_bundle := "quay.io/konflux-ci/foo:0.1-b@sha256:d1";
            migration_script := "echo 1" |};
         {| task_bundle := "quay.io/konflux-ci/foo:0.2-d@sha256:d3";
            migration_script := "echo 3" |} ] |}.

(** ** The manager and the applier *)

(** No stored upgrade has migrations yet. *)
Definition fresh (m : TaskBundleUpgradesManager) : Prop :=
  forall key u, _task_bundle_upgrades m !! key = Some u -> migrations u = [].

(** The key of an upgrade mapping: the current bundle reference. *)
Definition key_of (upgrade : Upgrade) : string :=
  current_bundle (new_task_bundle_upgrade upgrade).

(** The first mapping of a key. *)
Definition first_with_key (key : string) (upgrades : list Upgrade) : option Upgrade :=
  List.find (fun upgrade => String.eqb (key_of upgrade) key) upgrades.

(** Mappings that differ in what they upgrade to and in their file only. *)
Definition upgrade_record (new_value_ new_digest_ package_file : string) : Upgrade :=
  {| depName := "quay.io/konflux-ci/foo"; currentValue := "0.1";
     currentDigest := "sha256:0a"; newValue := new_value_; newDigest := new_digest_;
     depTypes := ["tekton-bundle"]; packageFile := package_file;
     parentDir := ".tekton" |}.

(** A migration that keeps the file it is given. *)
Definition keeps_the_file (t : Tools) : Prop :=
  forall script content, fst (bash t script content) <> None.

(** A pipeline-run document, one upgrade with one migration, and tools whose
    [bash] leaves the file as it is and exits with the given code. *)
Definition pipeline_run_doc : Yaml :=
  YMap [ ("kind", YScalar "PipelineRun");
         ("spec", YMap [ ("pipelineSpec", YMap [ ("tasks", YSeq []) ]) ]) ].

Definition migrated_upgrade : TaskBundleUpgrade :=
  set_migrations (upgrade_of "0.1" "sha256:0a" "0.2" "sha256:0b")
    [ {| task_bundle := "quay.io/konflux-ci/foo:0.2-b@sha256:0b";
         migration_script := "echo hi" |} ].

Definition tools_exiting (returncode : Z) : Tools :=
  {| bash := fun _ content => (content, returncode);
     load_yaml_text := fun _ _ => Ok pipeline_run_doc;
     dump_yaml_text := fun _ _ => Ok "spec: {tasks: []}";
     checksum := fun content => content |}.

Definition repository : FS :=
  {| files := {[ ".tekton/pr.yaml" := "kind: PipelineRun" ]}; next_temp := 0 |}.

(** The package file the manager holds for a path, the first mapping of a
    path, the keys of the mappings of a path in the order of the mappings,
    and the paths of a list in the order of their first appearance, those
    already seen apart. *)
Definition package_file_of (path : string) (pfs : list PackageFile) : option PackageFile :=
  List.find (fun pf => String.eqb (file_path pf) path) pfs.

Definition first_with_path (path : string) (upgrades : list Upgrade) : option Upgrade :=
  List.find (fun upgrade => String.eqb (packageFile upgrade) path) upgrades.

Definition keys_of_path (path : string) (upgrades : list Upgrade) : list string :=
  map key_of (List.filter (fun upgrade => String.eqb (packageFile upgrade) path) upgrades).

Fixpoint first_appearances (seen paths : list string) : list string :=
  match paths with
  | [] => []
  | path :: rest =>
      if bool_decide (path ∈ seen) then first_appearances seen rest
      else path :: first_appearances (path :: seen) rest
  end.

(** What the scripts of a list of migrations make of a file, the scratch
    files set aside: each script is given the file as the one before left
    it, and the first that exits with a code other than 0 ends the run. *)
Fixpoint run_scripts (t : Tools) (content : option string)
    (scripts : list TaskBundleMigration) : option string * result unit :=
  match scripts with
  | [] => (content, Ok tt)
  | migration :: rest =>
      let '(content', returncode) := bash t (migration_script migration) content in
      if (returncode =? 0)%Z then run_scripts t content' rest
      else (content', Raise (CalledProcessError returncode))
  end.

(** The files with one of them given a content, or removed. *)
Definition set_content (path : string) (content : option string)
    (fs_files : gmap string string) : gmap string string :=
  match content with
  | Some text => <[path := text]> fs_files
  | None => delete path fs_files
  end.

(** Tools whose [bash] appends the text of the script to the file and exits
    with 1 for the script [exit 1], with 0 for any other; a YAML document is
    loaded as one mapping that holds the text under [spec], and dumped as
    the text it holds there. *)
Definition tools_appending : Tools :=
  {| bash := fun script content =>
       ((fun text => text +:+ script) <$> content,
        if String.eqb script "exit 1" then 1%Z else 0%Z);
     load_yaml_text := fun text _ => Ok (YMap [("spec", YScalar text)]);
     dump_yaml_text := fun doc _ =>
       match doc with
       | YMap (("spec", YScalar text) :: _) => Ok text
       | _ => Ok "{}"
       end;
     checksum := fun content => content |}.

(** An upgrade with the migrations of the given scripts. *)
Definition upgrade_with_scripts (scripts : list string) : TaskBundleUpgrade :=
  set_migrations (upgrade_of "0.1" "sha256:0a" "0.2" "sha256:0b")
    (map (fun script => {| task_bundle := "quay.io/konflux-ci/foo:0.2-b@sha256:0b";
                           migration_script := script |}) scripts).

(** [doc["spec"]["pipelineSpec"]]. *)
Definition embedded_pipeline_spec (doc : Yaml) : result Yaml :=
  let* spec := getitem doc "spec" in getitem spec "pipelineSpec".

(** A pipeline run with a name beside its embedded pipeline, and a timeout
    beside the pipeline inside its [spec]. *)
Definition named_pipeline_run : Yaml :=
  YMap [ ("kind", YScalar "PipelineRun");
         ("spec", YMap [ ("pipelineSpec", YScalar "tasks: []");
                         ("timeout", YScalar "1h") ]);
         ("metadata", YScalar "name: build") ].

(** ** The pruning, tag by tag *)

(** A version that is at least every version of a list of parsed tags. *)
Definition dominates (v : Version) (others : list (TagInfo * Version)) : bool :=
  forallb (fun other => Version_ge v (snd other)) others.

(** Of parsed tags listed newest first, those that no older tag exceeds in
    version. *)
Fixpoint survivors (tags : list (TagInfo * Version)) : list TagInfo :=
  match tags with
  | [] => []
  | (t, v) :: older =>
      if dominates v older then t :: survivors older else survivors older
  end.

(** Going through parsed tags oldest first, with the versions already seen:
    the tags that are at least all of them. *)
Fixpoint keep_from (seen : list Version) (tags : list (TagInfo * Version)) : list TagInfo :=
  match tags with
  | [] => []
  | (t, v) :: rest =>
      if forallb (Version_ge v) seen then t :: keep_from (v :: seen) rest
      else keep_from (v :: seen) rest
  end.

(** The watermark is the highest of the versions seen. *)
Definition highest_of (highest : option Version) (seen : list Version) : Prop :=
  match highest with
  | None => seen = []
  | Some h => h ∈ seen /\ forall w, w ∈ seen -> Version_ge h w = true
  end.

(** Strictly newest first. *)
Definition newer (x y : TagInfo) : Prop := (start_ts y < start_ts x)%Z.

(** The six tags of the docstring of [drop_out_of_order_versions] with their
    versions. *)
Definition example_parsed : list (TagInfo * Version) :=
  Eval vm_compute in
    match with_versions example_listing with
    | Ok tags => tags
    | Raise _ => []
    end.

(** The first tag of a list that carries a digest. *)
Definition first_with_digest (digest_ : string) (tags_info : list TagInfo) : option TagInfo :=
  List.find (fun t => String.eqb (manifest_digest t) digest_) tags_info.

(** ** Tag names *)

(** Every character of a string passes a test. *)
Fixpoint all_chars (test : ascii -> bool) (s : string) : bool :=
  match s with
  | EmptyString => true
  | String c r => test c && all_chars test r
  end.

(** [[0-9.]] *)
Definition is_version_char (c : ascii) : bool := is_digit c || Ascii.eqb c ".".

(** A name [<version>-<revision>]: a non-empty version of digits and dots
    and a non-empty revision of lower-case hexadecimal digits. *)
Definition pinned_name (version revision : string) : Prop :=
  version <> EmptyString /\ all_chars is_version_char version = true
  /\ revision <> EmptyString /\ all_chars is_lower_hex revision = true.

Definition newline : string := String "010" EmptyString.

(** The tags of the range are newest first. *)
Definition range_newer_or_same (x y : QuayTagInfo.t) : Prop :=
  (QuayTagInfo.start_ts y <= QuayTagInfo.start_ts x)%Z.

(** What the registry lists for the versions of an upgrade, version by
    version. *)
Definition listings_of (reg : Registry) (bundle_upgrade : TaskBundleUpgrade)
    (versions : list string) (listings : list (list TagInfo)) : Prop :=
  Forall2 (fun version listing =>
             list_active_repo_tags reg (Container_of (dep_name bundle_upgrade))
               (version +:+ "-") = Ok listing)
    versions listings.

(** The registry lists for a pattern only tags whose names begin with it:
    the tags matching [V-*] of a version [V]. *)
Definition lists_by_prefix (reg : Registry) : Prop :=
  forall c pattern tags,
    list_active_repo_tags reg c pattern = Ok tags ->
    forall t, t ∈ tags -> exists rest, name t = pattern +:+ rest.

(** ** The migrations of a range *)

(** The migration of a tag of the range: that of its bundle, when the
    manifest of the bundle says it has one and a script that is not empty is
    attached to it. *)
Definition migration_of (reg : Registry) (dep_name_ : string) (tag_info : QuayTagInfo.t)
  : option TaskBundleMigration :=
  let c := bundle_ref dep_name_ tag_info in
  match get_manifest reg c with
  | Ok manifest_json =>
      if is_true (manifest_annotation manifest_json ANNOTATION_HAS_MIGRATION "false") then
        match fetch_migration_file reg dep_name_ (QuayTagInfo.manifest_digest tag_info) with
        | Ok script_content =>
            if truthy script_content then
              Some {| task_bundle := uri_with_tag c;
                      migration_script := default EmptyString script_content |}
            else None
        | Raise _ => None
        end
      else None
  | Raise _ => None
  end.

(** What looking at a tag of the range raises: what the request of the
    manifest of its bundle raises, or else, when the manifest says the bundle
    has a migration, what fetching the script raises. *)
Definition raised_at (reg : Registry) (dep_name_ : string) (tag_info : QuayTagInfo.t)
  : option exn :=
  match get_manifest reg (bundle_ref dep_name_ tag_info) with
  | Raise e => Some e
  | Ok manifest_json =>
      if is_true (manifest_annotation manifest_json ANNOTATION_HAS_MIGRATION "false") then
        match fetch_migration_file reg dep_name_ (QuayTagInfo.manifest_digest tag_info) with
        | Raise e => Some e
        | Ok _ => None
        end
      else None
  end.

(** A registry where a script of two layers is attached to a bundle. *)
Definition two_layers : Registry :=
  registry_of []
    {[ "sha256:a1" :=
         {| layers := Some [ {| descriptor_digest := "sha256:b1";
                                descriptor_annotations := None |};
                             {| descriptor_digest := "sha256:b2";
                                descriptor_annotations := None |} ];
            manifest_annotations := None |} ]}
    {[ "sha256:0b" := {| manifests := [migration_referrer "sha256:a1"] |} ]}
    {[ "sha256:b1" := "echo 1"; "sha256:b2" := "echo 2" ]}.

(** ** The positions the linked resolver visits *)

(** The position the loop goes on from after the iteration at position [i]:
    the position of the link, unless the iteration raises. *)
Definition goes_on (reg : Registry) (dep_name_ : string)
    (upgrades_range : list QuayTagInfo.t) (i : nat) : option nat :=
  match upgrades_range !! i with
  | None => None
  | Some tag_info =>
      match raised_at reg dep_name_ tag_info with
      | Some _ => None
      | None => next_position reg dep_name_ upgrades_range i
      end
  end.

(** Where the loop is after [n] iterations begun at position [i], when it has
    not ended by then. *)
Fixpoint position_after (reg : Registry) (dep_name_ : string)
    (upgrades_range : list QuayTagInfo.t) (n i : nat) : option nat :=
  match n with
  | O => Some i
  | S n' =>
      match goes_on reg dep_name_ upgrades_range i with
      | Some j => position_after reg dep_name_ upgrades_range n' j
      | None => None
      end
  end.

(** The loop, begun at position 0, comes back to a position it has been at. *)
Definition revisits (reg : Registry) (dep_name_ : string)
    (upgrades_range : list QuayTagInfo.t) : Prop :=
  exists m n p : nat,
    (m < n)%nat
    /\ position_after reg dep_name_ upgrades_range m 0 = Some p
    /\ position_after reg dep_name_ upgrades_range n 0 = Some p.

(** Three tags, newest first: the newest links to the second, the second has
    no link, and the oldest links back to the newest. *)
Definition backward_linked_tags : list TagInfo :=
  [ {| name := "0.1-c"; manifest_digest := "sha256:e2"; start_ts := 3 |};
    {| name := "0.1-b"; manifest_digest := "sha256:e1"; start_ts := 2 |};
    {| name := "0.1-a"; manifest_digest := "sha256:e0"; start_ts := 1 |} ].

Definition backward_linked : Registry :=
  registry_of backward_linked_tags
    {[ "sha256:e2" := bundle_manifest false "sha256:e1";
       "sha256:e1" := bundle_manifest false "";
       "sha256:e0" := bundle_manifest false "sha256:e2" ]}
    ∅ ∅.

Definition backward_linked_range : list QuayTagInfo.t := map from_tag_info backward_linked_tags.

(** ** The upgrades that are kept *)

(** An upgrade the loop of [clean_upgrades] takes for one of Konflux: a
    mapping that is not empty, with a [depName] that is not false and that
    [comes_from_konflux] accepts. *)
Definition from_konflux (env : Environment) (upgrade : Json) : bool :=
  match upgrade with
  | JObject entries =>
      json_truthy upgrade
      && json_truthy (default JNull (json_get "depName" entries))
      && match comes_from_konflux env (default JNull (json_get "depName" entries)) with
         | inr true => true
         | _ => false
         end
  | _ => false
  end.

(** An upgrade of Konflux that the tekton-bundle manager handles. *)
Definition wanted (env : Environment) (upgrade : Json) : bool :=
  from_konflux env upgrade
  && match upgrade with
     | JObject entries =>
         match json_get "depTypes" entries with
         | Some dep_types =>
             match json_contains "tekton-bundle" dep_types with
             | inr true => true
             | _ => false
             end
         | None => false
         end
     | _ => false
     end.

(** An upgrade the loop passes over without validating it: a false value,
    or a mapping with a [depName] that [comes_from_konflux] refuses. *)
Definition passed_over (env : Environment) (upgrade : Json) : bool :=
  negb (json_truthy upgrade)
  || match upgrade with
     | JObject entries =>
         json_truthy (default JNull (json_get "depName" entries))
         && match comes_from_konflux env (default JNull (json_get "depName" entries)) with
            | inr false => true
            | _ => false
            end
     | _ => false
     end.

(** Upgrades of an example: one of Konflux for the tekton-bundle manager,
    one of another organization that has nothing but its name, and one of
    Konflux without [depTypes]. *)
Definition konflux_upgrade : Json :=
  JObject [ ("depName", JString "quay.io/konflux-ci/foo");
            ("depTypes", JArray [JString "tekton-bundle"]) ].

Definition foreign_upgrade : Json :=
  JObject [ ("depName", JString "docker.io/library/bash") ].

Definition incomplete_upgrade : Json :=
  JObject [ ("depName", JString "quay.io/konflux-ci/bar") ].

(** An environment whose [json.loads] reads three fixed inputs and whose
    validator only requires [depTypes]. *)
Definition example_environment : Environment :=
  {| json_loads := fun input =>
       if String.eqb input "kept" then
         Some (JArray [JNull; foreign_upgrade; konflux_upgrade])
       else if String.eqb input "same" then
         Some (JArray [JNull; konflux_upgrade])
       else if String.eqb input "rejected" then
         Some (JArray [konflux_upgrade; incomplete_upgrade; foreign_upgrade])
       else None;
     validate := fun upgrade =>
       match upgrade with
       | JObject entries =>
           match json_get "depTypes" entries with
           | Some _ => None
           | None =>
               Some {| path := []; validator := "required";
                       message := "'depTypes' is a required property";
                       json_path := "$" |}
           end
       | _ => None
       end;
     PMT_LOCAL_TEST := None |}.

(** The tags of a range, oldest first. *)
Definition range_older_or_same (x y : QuayTagInfo.t) : Prop :=
  (QuayTagInfo.start_ts x <= QuayTagInfo.start_ts y)%Z.

(** ** The keys of the manager *)

(** The current bundle reference of an upgrade mapping, written out. *)
Definition reference_of (upgrade : Upgrade) : string :=
  depName upgrade +:+ ":" +:+ currentValue upgrade +:+ "@" +:+ currentDigest upgrade.

(** The two mappings agree on [depName], [currentValue] and [currentDigest]. *)
Definition same_current (a b : Upgrade) : bool :=
  String.eqb (depName a) (depName b)
  && String.eqb (currentValue a) (currentValue b)
  && String.eqb (currentDigest a) (currentDigest b).

(** The first mapping of the list that agrees with [upgrade] on the three
    fields. *)
Definition first_same_current (upgrade : Upgrade) (upgrades : list Upgrade)
  : option Upgrade :=
  List.find (same_current upgrade) upgrades.

(** The first mapping of the list that has the reference of [upgrade]. *)
Definition first_same_reference (upgrade : Upgrade) (upgrades : list Upgrade)
  : option Upgrade :=
  List.find (fun x => String.eqb (reference_of x) (reference_of upgrade)) upgrades.

(** A string in which a character does not occur. *)
Definition without (x : ascii) (s : string) : Prop := contains_char x s = false.

(** The claim C9 as it is worded: the upgrade stored for a mapping is built
    from the first mapping that agrees with it on the three fields, and every
    stored upgrade is stored under its current bundle reference. *)
Definition deduplicates_by_the_three_fields : Prop :=
  forall (upgrades : list Upgrade),
    let m := new_manager upgrades in
    (forall upgrade first,
       upgrade ∈ upgrades ->
       first_same_current upgrade upgrades = Some first ->
       _task_bundle_upgrades m !! reference_of upgrade
       = Some (new_task_bundle_upgrade first))
    /\ (forall key u, _task_bundle_upgrades m !! key = Some u -> current_bundle u = key).

(** Three mappings of one reference: the first takes a part of the version
    into [depName], the two others agree on the three fields. *)
Definition upgrade_with (dep_name_ current_value_ new_value_ new_digest_ : string) : Upgrade :=
  {| depName := dep_name_; currentValue := current_value_;
     currentDigest := "sha256:0a"; newValue := new_value_; newDigest := new_digest_;
     depTypes := ["tekton-bundle"]; packageFile := ".tekton/pr.yaml";
     parentDir := ".tekton" |}.

Definition same_reference : list Upgrade :=
  [ upgrade_with "quay.io/konflux-ci/foo:0.1" "0" "0.2" "sha256:0b";
    upgrade_with "quay.io/konflux-ci/foo" "0.1:0" "0.3" "sha256:0c";
    upgrade_with "quay.io/konflux-ci/foo" "0.1:0" "0.4" "sha256:0d" ].

(** * Properties *)

(** ** Version expansion *)

Lemma py_range_length (a b : N) : length (py_range a b) = N.to_nat (b - a).
Proof. unfold py_range. by rewrite length_map, length_seq. Qed.

Lemma py_range_lookup (a b : N) (k : nat) :
  (k < N.to_nat (b - a))%nat -> py_range a b !! k = Some (a + N.of_nat k)%N.
Proof.
  intros Hk. unfold py_range.
  change (map ?f ?l) with (f <$> l).
  rewrite list_lookup_fmap, lookup_seq_lt by done. reflexivity.
Qed.

(** C4. [expand_versions] gives the strings ["0.<minor>"] from the minor of
    the current version up to the minor of the new one, both included:
    ["0.2"] to ["0.5"] gives the four versions, ["0.3"] to ["0.3"] the single
    one; and for every pair of strings that packaging parses, whatever
    packaging accepts as a version, it raises the [ValueError] instead of
    returning a list when the current version is greater than the new one,
    and returns the list otherwise. *)
Theorem expand_versions_spec (P : Packaging) (from_ to : string) (vf vt : version_t P)
    (Hfrom : parse P from_ = Ok vf) (Hto : parse P to = Ok vt) :
  expand_versions "0.2" "0.5" = Ok ["0.2"; "0.3"; "0.4"; "0.5"]
  /\ expand_versions "0.3" "0.3" = Ok ["0.3"]
  /\ (greater P vf vt = true ->
      expand_versions_with P from_ to
      = Raise (ValueError ("From version " +:+ from_
                             +:+ " is greater than the to version " +:+ to +:+ ".")))
  /\ (greater P vf vt = false ->
      exists versions,
        expand_versions_with P from_ to = Ok versions
        /\ length versions = N.to_nat (minor_of P vt + 1 - minor_of P vf)
        /\ forall k : nat, (k < length versions)%nat ->
             versions !! k = Some ("0." +:+ str_of_N (minor_of P vf + N.of_nat k))).
Proof.
  split; [reflexivity|]. split; [reflexivity|].
  unfold expand_versions_with. rewrite Hfrom, Hto. simpl. split.
  - by intros ->.
  - intros ->. eexists. split; [done|].
    rewrite length_map, py_range_length. split; [done|].
    intros k Hk. change (map ?f ?l) with (f <$> l).
    rewrite list_lookup_fmap, py_range_lookup by done. reflexivity.
Qed.

Lemma expand_versions_spec_witness :
  expand_versions "0.5" "0.2"
  = Raise (ValueError "From version 0.5 is greater than the to version 0.2.")
  /\ exists versions, expand_versions "0.9" "0.11" = Ok versions
       /\ versions !! 2%nat = Some "0.11".
Proof.
  split.
  - apply (expand_versions_spec release_versions "0.5" "0.2" {| release := [0; 5]%N |}
             {| release := [0; 2]%N |} eq_refl eq_refl).
    reflexivity.
  - destruct (expand_versions_spec release_versions "0.9" "0.11"
                {| release := [0; 9]%N |} {| release := [0; 11]%N |} eq_refl eq_refl)
      as (_ & _ & _ & H).
    destruct (H eq_refl) as (versions & Hv & Hlen & Hk).
    exists versions. split; [exact Hv|].
    apply (Hk 2%nat). rewrite Hlen. vm_compute. lia.
Defined.

(** ** Sorting by [start_ts] *)

Lemma insert_desc_Permutation (x : TagInfo) (l : list TagInfo) :
  insert_desc x l ≡ₚ x :: l.
Proof.
  induction l as [|y l IH]; simpl; [done|].
  destruct (start_ts y <=? start_ts x)%Z; [done|].
  rewrite IH. apply Permutation_swap.
Qed.

Lemma sorted_desc_Permutation (l : list TagInfo) : sorted_desc l ≡ₚ l.
Proof.
  induction l as [|x l IH]; simpl; [done|].
  by rewrite insert_desc_Permutation, IH.
Qed.

Lemma elem_of_sorted_desc (t : TagInfo) (l : list TagInfo) : t ∈ sorted_desc l <-> t ∈ l.
Proof. by rewrite sorted_desc_Permutation. Qed.

Lemma insert_desc_sorted (x : TagInfo) (l : list TagInfo) :
  StronglySorted newer_or_same l -> StronglySorted newer_or_same (insert_desc x l).
Proof.
  induction 1 as [|y l Hl IH Hy]; simpl.
  - repeat constructor.
  - destruct (Z.leb_spec (start_ts y) (start_ts x)) as [Hle|Hlt].
    + constructor; [by constructor|]. constructor; [done|].
      eapply Forall_impl; [exact Hy|]. unfold newer_or_same. intros; lia.
    + constructor; [done|].
      rewrite insert_desc_Permutation. constructor; [|done].
      unfold newer_or_same. lia.
Qed.

Lemma sorted_desc_sorted (l : list TagInfo) : StronglySorted newer_or_same (sorted_desc l).
Proof.
  induction l as [|x l IH]; simpl; [constructor|]. by apply insert_desc_sorted.
Qed.

Lemma insert_desc_stable (ts : Z) (x : TagInfo) (l : list TagInfo) :
  StronglySorted newer_or_same l ->
  at_ts ts (insert_desc x l) = at_ts ts (x :: l).
Proof.
  unfold at_ts. induction 1 as [|y l Hl IH Hy]; simpl; [done|].
  destruct (Z.leb_spec (start_ts y) (start_ts x)) as [Hle|Hlt]; [done|].
  rewrite !filter_cons in *.
  destruct (decide (start_ts y = ts)) as [Hy'|Hy'];
    destruct (decide (start_ts x = ts)) as [Hx'|Hx']; try (rewrite IH; done); try lia.
Qed.

(** Stability: the tags of one [start_ts] come out in the order they went
    in. *)
Lemma sorted_desc_stable (ts : Z) (l : list TagInfo) :
  at_ts ts (sorted_desc l) = at_ts ts l.
Proof.
  induction l as [|x l IH]; simpl; [done|].
  rewrite insert_desc_stable by apply sorted_desc_sorted.
  unfold at_ts in *. rewrite !filter_cons, IH. done.
Qed.

(** ** Out-of-order pruning *)

Lemma record_tag_ok (up : TaskBundleUpgrade) (st : DropState) (t : TagInfo) (v : Version) :
  _parse_version (name t) = Ok v ->
  exists st1,
    record_tag up st t = Ok st1
    /\ tags_that_follow_correct_version_order st1 = tags_that_follow_correct_version_order st
    /\ highest_version_so_far st1 = highest_version_so_far st.
Proof.
  intros Hv. unfold record_tag.
  destruct (_ && _).
  - destruct (highest_version_so_far st); rewrite ?Hv; simpl; eauto.
  - destruct (_ && _); eauto.
Qed.

Lemma drop_step_raise (up : TaskBundleUpgrade) (st : DropState) (t : TagInfo) (e : exn) :
  _parse_version (name t) = Raise e -> drop_step up st t = Raise e.
Proof.
  intros He. unfold drop_step, record_tag, keep_tag.
  destruct (_ && _).
  - destruct (highest_version_so_far st); rewrite ?He; simpl; rewrite ?He; done.
  - destruct (_ && _); simpl; rewrite He; done.
Qed.

Lemma with_versions_cons (t : TagInfo) (l : list TagInfo) :
  with_versions (t :: l)
  = let* v := _parse_version (name t) in
    let* tvs := with_versions l in Ok ((t, v) :: tvs).
Proof.
  unfold with_versions. simpl. by destruct (_parse_version (name t)).
Qed.

Lemma drop_loop_from (up : TaskBundleUpgrade) (l : list TagInfo) (st : DropState) :
  match with_versions l with
  | Raise e => foldM (drop_step up) st l = Raise e
  | Ok tvs =>
      exists st',
        foldM (drop_step up) st l = Ok st'
        /\ tags_that_follow_correct_version_order st'
           = tags_that_follow_correct_version_order st
               ++ prune_by_watermark (highest_version_so_far st) tvs
  end.
Proof.
  revert st. induction l as [|t l IH]; intros st.
  - simpl. exists st. by rewrite app_nil_r.
  - rewrite with_versions_cons. simpl foldM.
    destruct (_parse_version (name t)) as [v|e] eqn:Hv; simpl.
    2: { by rewrite (drop_step_raise _ _ _ _ Hv). }
    destruct (record_tag_ok up st t v Hv) as (st1 & Hst1 & Hkept & Hhigh).
    unfold drop_step. rewrite Hst1. simpl. unfold keep_tag. rewrite Hv. simpl.
    rewrite Hhigh.
    destruct (match highest_version_so_far st with
              | Some h => Version_ge v h
              | None => true
              end) eqn:Hc; simpl.
    + match goal with |- context [foldM _ ?s l] => specialize (IH s) end.
      destruct (with_versions l) as [tvs|e]; simpl; [|done].
      destruct IH as (st' & Hfold & Hk). exists st'. split; [done|].
      rewrite Hk. simpl. rewrite Hc, Hkept, <- app_assoc. done.
    + specialize (IH st1).
      destruct (with_versions l) as [tvs|e]; simpl; [|done].
      destruct IH as (st' & Hfold & Hk). exists st'. split; [done|].
      simpl. by rewrite Hc, Hk, Hkept, Hhigh.
Qed.

(** [drop_out_of_order_versions] keeps what the watermark keeps, whatever the
    upgrade is, and raises exactly when a tag name has no version. *)
Lemma drop_out_of_order_versions_refines (tags_info : list TagInfo) (up : TaskBundleUpgrade) :
  match with_versions (rev tags_info) with
  | Raise e => drop_out_of_order_versions tags_info up = Raise e
  | Ok tvs =>
      exists cur new ooo,
        drop_out_of_order_versions tags_info up
        = Ok (sorted_desc (prune_by_watermark None tvs), cur, new, ooo)
  end.
Proof.
  unfold drop_out_of_order_versions, drop_loop.
  pose proof (drop_loop_from up (rev tags_info) drop_init) as H.
  destruct (with_versions (rev tags_info)) as [tvs|e].
  - destruct H as (st' & -> & Hk). simpl. rewrite Hk. simpl. eauto.
  - by rewrite H.
Qed.




(** ** What the loop of [drop_out_of_order_versions] records *)

Lemma occurrences_app (d : string) (l1 l2 : list TagInfo) :
  occurrences d (l1 ++ l2) = (occurrences d l1 + occurrences d l2)%nat.
Proof. unfold occurrences. by rewrite filter_app, length_app. Qed.

Lemma occurrences_cons (d : string) (t : TagInfo) (l : list TagInfo) :
  occurrences d (t :: l)
  = ((if decide (manifest_digest t = d) then 1 else 0) + occurrences d l)%nat.
Proof. unfold occurrences. rewrite filter_cons. by destruct (decide _). Qed.

Lemma occurrences_Permutation (d : string) (l1 l2 : list TagInfo) :
  l1 ≡ₚ l2 -> occurrences d l1 = occurrences d l2.
Proof. intros H. unfold occurrences. by rewrite H. Qed.

Lemma occurrences_zero (d : string) (l : list TagInfo) :
  occurrences d l = 0%nat <-> forall t, t ∈ l -> manifest_digest t <> d.
Proof.
  induction l as [|x l IH]; rewrite ?occurrences_cons.
  - split; [|done]. intros _ t Ht. by apply elem_of_nil in Ht.
  - destruct (decide (manifest_digest x = d)) as [Hx|Hx].
    + split; [lia|]. intros H. exfalso. by apply (H x); [left|].
    + simpl. rewrite IH. split.
      * intros H t [->|Ht]%elem_of_cons; auto.
      * intros H t Ht. apply H. by right.
Qed.

Lemma occurrences_pos (d : string) (t : TagInfo) (l : list TagInfo) :
  t ∈ l -> manifest_digest t = d -> (1 <= occurrences d l)%nat.
Proof.
  intros Ht Hd. destruct (occurrences d l) eqn:Ho; [|lia].
  pose proof (proj1 (occurrences_zero d l) Ho t Ht). done.
Qed.


Lemma occurrences_nil (d : string) : occurrences d [] = 0%nat.
Proof. reflexivity. Qed.

Lemma drop_inv_init (up : TaskBundleUpgrade) : drop_inv up [] drop_init.
Proof. split; simpl; try done; intros; lia. Qed.

Lemma eqb_decide (a b : string) : String.eqb a b = bool_decide (a = b).
Proof.
  destruct (String.eqb_spec a b); [by rewrite bool_decide_eq_true_2|
                                    by rewrite bool_decide_eq_false_2].
Qed.

Lemma keep_tag_ok (st : DropState) (t : TagInfo) (v : Version) :
  _parse_version (name t) = Ok v ->
  keep_tag st t
  = Ok (if keeps st v then
          {| tags_that_follow_correct_version_order :=
               tags_that_follow_correct_version_order st ++ [t];
             highest_version_so_far := Some v;
             is_out_of_order := is_out_of_order st;
             current_tag_info := current_tag_info st;
             new_tag_info := new_tag_info st |}
        else st).
Proof.
  intros Hv. unfold keep_tag, keeps. rewrite Hv. simpl.
  by destruct (match highest_version_so_far st with Some _ => _ | None => _ end).
Qed.

Lemma record_tag_recorded (up : TaskBundleUpgrade) (st : DropState) (t : TagInfo)
    (v : Version) :
  _parse_version (name t) = Ok v ->
  exists st1, record_tag up st t = Ok st1 /\ recorded up st t v st1.
Proof.
  intros Hv. unfold record_tag. rewrite !eqb_decide.
  destruct (bool_decide (current_tag_info st = None)
            && bool_decide (manifest_digest t = current_digest up)) eqn:Hc.
  - apply andb_true_iff in Hc as [Hc1%bool_decide_eq_true Hc2%bool_decide_eq_true].
    eexists. split; [|apply (recorded_current up st t v Hc1 Hc2)].
    unfold keeps, Version_ge. destruct (highest_version_so_far st) as [h|]; simpl.
    + rewrite Hv. simpl. rewrite negb_involutive.
      by destruct (Version_lt v h).
    + done.
  - apply andb_false_iff in Hc.
    rewrite !bool_decide_eq_false in Hc.
    destruct (bool_decide (new_tag_info st = None)
              && bool_decide (manifest_digest t = new_digest up)) eqn:Hn.
    + apply andb_true_iff in Hn as [Hn1%bool_decide_eq_true Hn2%bool_decide_eq_true].
      eexists. split; [done|]. by apply recorded_new.
    + apply andb_false_iff in Hn. rewrite !bool_decide_eq_false in Hn.
      eexists. split; [done|]. by apply recorded_none.
Qed.

Lemma drop_step_ok (up : TaskBundleUpgrade) (st st' : DropState) (t : TagInfo) :
  drop_step up st t = Ok st' ->
  exists v st1,
    _parse_version (name t) = Ok v
    /\ recorded up st t v st1
    /\ st' = if keeps st v then
               {| tags_that_follow_correct_version_order :=
                    tags_that_follow_correct_version_order st ++ [t];
                  highest_version_so_far := Some v;
                  is_out_of_order := is_out_of_order st1;
                  current_tag_info := current_tag_info st1;
                  new_tag_info := new_tag_info st1 |}
             else st1.
Proof.
  intros Hstep. destruct (_parse_version (name t)) as [v|e] eqn:Hv.
  2: { by rewrite (drop_step_raise _ _ _ _ Hv) in Hstep. }
  destruct (record_tag_recorded up st t v Hv) as (st1 & Hst1 & Hrec).
  unfold drop_step in Hstep. rewrite Hst1 in Hstep. simpl in Hstep.
  rewrite (keep_tag_ok _ _ _ Hv) in Hstep. injection Hstep as <-.
  exists v, st1. split; [done|]. split; [done|].
  assert (Hkeeps : keeps st1 v = keeps st v) by (by destruct Hrec).
  assert (Hkept : tags_that_follow_correct_version_order st1
                  = tags_that_follow_correct_version_order st) by (by destruct Hrec).
  by rewrite Hkeeps, Hkept.
Qed.

Lemma drop_step_inv (up : TaskBundleUpgrade) (seen : list TagInfo) (st st' : DropState)
    (t : TagInfo) :
  drop_inv up seen st -> drop_step up st t = Ok st' -> drop_inv up (seen ++ [t]) st'.
Proof.
  intros [Hk Hcs Hcn Hns Hnn Hsd Hoc Hoo] Hstep.
  destruct (drop_step_ok _ _ _ _ Hstep) as (v & st1 & Hv & Hrec & ->).
  pose proof (Hk (current_digest up)) as Hkc.
  destruct Hrec as [Hc Hd|Hc Hn Hd|Hc Hn]; destruct (keeps st v) eqn:Hkeep.
  all: split; simpl; rewrite ?Hc, ?Hn; intros.
  all: rewrite ?occurrences_app, ?occurrences_cons, ?occurrences_nil; simpl.
  all: try done.
  all: try match goal with
           | H : Some _ = Some ?t0 |- ?t0 ∈ _ ∧ _ =>
               injection H as <-; split; [|done];
               rewrite elem_of_app, list_elem_of_singleton; auto
           | H : _ = Some ?t0 |- ?t0 ∈ _ ∧ _ =>
               first [destruct (Hcs _ H) | destruct (Hns _ H)]; split; [|done];
               rewrite elem_of_app; auto
           end.
  all: repeat case_decide; try done; try lia.
  all: try (specialize (Hk d); lia).
  all: destruct (current_tag_info st) as [tc|] eqn:Ecur;
    destruct (new_tag_info st) as [tn|] eqn:Enew;
    try (destruct (Hcs _ eq_refl) as [Hin Hdig];
         pose proof (occurrences_pos _ _ _ Hin Hdig));
    try (destruct (Hns _ eq_refl) as [Hin' Hdig'];
         pose proof (occurrences_pos _ _ _ Hin' Hdig'));
    clear Hcs Hns Hk Hstep;
    try specialize (Hcn eq_refl).
  all: simpl in *.
  all: try match goal with
           | H : is_out_of_order _ = true |- _ => pose proof (Hoc H); destruct (Hoo H)
           end.
  all: try match goal with
           | H : current_digest _ = new_digest _ |- _ =>
               try (specialize (Hsd H ltac:(done))); rewrite <- ?H in *
           end.
  all: try (specialize (Hnn eq_refl ltac:(done))).
  all: repeat match goal with H : _ ∨ _ |- _ => destruct H end.
  all: try done; try congruence; try lia; try (left; lia); try (right; lia).
Qed.

Lemma foldM_drop_inv (up : TaskBundleUpgrade) (l seen : list TagInfo) (st st' : DropState) :
  drop_inv up seen st -> foldM (drop_step up) st l = Ok st' -> drop_inv up (seen ++ l) st'.
Proof.
  revert seen st. induction l as [|t l IH]; intros seen st Hinv Hfold; simpl in Hfold.
  - injection Hfold as <-. by rewrite app_nil_r.
  - destruct (drop_step up st t) as [st1|e] eqn:Hstep; [|done]. simpl in Hfold.
    replace (seen ++ t :: l) with ((seen ++ [t]) ++ l) by (by rewrite <- app_assoc).
    eapply IH; [|done]. by eapply drop_step_inv.
Qed.

Lemma drop_loop_inv (up : TaskBundleUpgrade) (tags_info : list TagInfo) (st : DropState) :
  drop_loop up tags_info = Ok st -> drop_inv up (rev tags_info) st.
Proof. intros H. apply (foldM_drop_inv up _ [] drop_init); [apply drop_inv_init|done]. Qed.

(** ** The range: what is returned when a tag is missing *)

Lemma rev_reverse {A : Type} (l : list A) : rev l = reverse l.
Proof. unfold reverse. apply rev_alt. Qed.

Lemma with_versions_total (l : list TagInfo) :
  Forall parses l -> exists tvs, with_versions l = Ok tvs.
Proof.
  induction 1 as [|t l [v Hv] _ [tvs IH]]; [by exists []|].
  exists ((t, v) :: tvs). by rewrite with_versions_cons, Hv, IH.
Qed.

(** The loop ends without an exception when every name has a version. *)
Lemma drop_loop_total (up : TaskBundleUpgrade) (tags_info : list TagInfo) :
  Forall parses tags_info -> exists st, drop_loop up tags_info = Ok st.
Proof.
  intros Hall. unfold drop_loop.
  pose proof (drop_loop_from up (rev tags_info) drop_init) as H.
  destruct (with_versions_total (rev tags_info)) as [tvs Htvs].
  { rewrite rev_reverse. by apply Forall_reverse. }
  rewrite Htvs in H. destruct H as (st & Hst & _). by exists st.
Qed.

Lemma range_of_tags_eq (tags : list TagInfo) (up : TaskBundleUpgrade) (st : DropState) :
  drop_loop up (only_tags_pinned_by_version_revision tags) = Ok st ->
  range_of_tags tags up
  = match current_tag_info st, new_tag_info st with
    | Some _, Some _ => Ok (map from_tag_info (the_range up st))
    | _, _ => Ok []
    end.
Proof.
  intros Hst. unfold range_of_tags, drop_out_of_order_versions, the_range.
  rewrite Hst. simpl.
  destruct (current_tag_info st); [|done]. destruct (new_tag_info st); [|done].
  by destruct (find_positions _ _ _ _ _).
Qed.

Lemma determine_eq (reg : Registry) (up : TaskBundleUpgrade) (tags : list TagInfo) :
  list_bundle_tags reg up = Ok tags ->
  determine_task_bundle_upgrades_range reg up = range_of_tags tags up.
Proof. intros H. unfold determine_task_bundle_upgrades_range. by rewrite H. Qed.

(** When the tags listed for an upgrade hold no version-pinned tag of
    [currentDigest], or none of [newDigest], and the name of every
    version-pinned tag listed has a version, then
    [determine_task_bundle_upgrades_range] returns the empty list and raises
    nothing, as its docstring says. *)
Lemma determine_range_empty_when_tag_missing
    (reg : Registry) (up : TaskBundleUpgrade) (tags : list TagInfo)
    (Hlisted : list_bundle_tags reg up = Ok tags)
    (Hversions : Forall parses (only_tags_pinned_by_version_revision tags))
    (Hmissing :
       (forall t, t ∈ only_tags_pinned_by_version_revision tags ->
                  manifest_digest t <> current_digest up)
       \/ (forall t, t ∈ only_tags_pinned_by_version_revision tags ->
                     manifest_digest t <> new_digest up)) :
  determine_task_bundle_upgrades_range reg up = Ok [].
Proof.
  rewrite (determine_eq _ _ _ Hlisted).
  destruct (drop_loop_total up _ Hversions) as [st Hst].
  rewrite (range_of_tags_eq _ _ _ Hst).
  pose proof (drop_loop_inv _ _ _ Hst) as Hinv.
  destruct (current_tag_info st) as [tc|] eqn:Hc; [|done].
  destruct (new_tag_info st) as [tn|] eqn:Hn; [|done].
  destruct (inv_current_some _ _ _ Hinv _ Hc) as [Hin1 Hd1].
  destruct (inv_new_some _ _ _ Hinv _ Hn) as [Hin2 Hd2].
  rewrite rev_reverse, elem_of_reverse in Hin1, Hin2.
  destruct Hmissing as [Hm|Hm]; [by destruct (Hm _ Hin1)|by destruct (Hm _ Hin2)].
Qed.

Lemma determine_range_empty_when_tag_missing_example :
  determine_task_bundle_upgrades_range (tags_only example_listing)
    (upgrade_of "0.1" "sha256:01" "0.3" "sha256:0f")
  = Ok [].
Proof.
  eapply (determine_range_empty_when_tag_missing (tags_only example_listing)
            (upgrade_of "0.1" "sha256:01" "0.3" "sha256:0f") _ eq_refl).
  - vm_compute. repeat (constructor; [eexists; reflexivity|]). constructor.
  - right. vm_compute. intros t Ht.
    repeat (apply elem_of_cons in Ht as [->|Ht]; [discriminate|]).
    by apply elem_of_nil in Ht.
Qed.


(** ** The range of an upgrade to the digest it already has *)

(** For an upgrade whose [currentDigest] equals its [newDigest], when at most
    one version-pinned tag listed carries that digest and the name of every
    version-pinned tag listed has a version,
    [determine_task_bundle_upgrades_range] returns the empty list: the tag of
    that digest, if there is one, is taken as the current tag, no tag is left
    to be the new one, and the early return for a missing new tag is taken. *)
Lemma determine_range_empty_when_digests_equal
    (reg : Registry) (up : TaskBundleUpgrade) (tags : list TagInfo)
    (Hlisted : list_bundle_tags reg up = Ok tags)
    (Hversions : Forall parses (only_tags_pinned_by_version_revision tags))
    (Hsame : current_digest up = new_digest up)
    (Honce : (occurrences (current_digest up)
                (only_tags_pinned_by_version_revision tags) <= 1)%nat) :
  determine_task_bundle_upgrades_range reg up = Ok []
  /\ exists kept cur ooo,
       drop_out_of_order_versions (only_tags_pinned_by_version_revision tags) up
       = Ok (kept, cur, None, ooo).
Proof.
  rewrite (determine_eq _ _ _ Hlisted).
  destruct (drop_loop_total up _ Hversions) as [st Hst].
  rewrite (range_of_tags_eq _ _ _ Hst).
  pose proof (drop_loop_inv _ _ _ Hst) as Hinv.
  assert (Hnone : new_tag_info st = None).
  { destruct (new_tag_info st) as [tn|] eqn:Hn; [|done].
    pose proof (inv_same_digest _ _ _ Hinv Hsame) as H2. rewrite Hn in H2.
    specialize (H2 ltac:(done)).
    rewrite (occurrences_Permutation _ (rev _) (only_tags_pinned_by_version_revision tags))
      in H2; [lia|].
    rewrite rev_reverse. apply reverse_Permutation. }
  split.
  - rewrite Hnone. by destruct (current_tag_info st).
  - unfold drop_out_of_order_versions. rewrite Hst. simpl. rewrite Hnone. eauto.
Qed.

Lemma determine_range_empty_when_digests_equal_example :
  determine_task_bundle_upgrades_range (tags_only example_listing)
    (upgrade_of "0.1" "sha256:03" "0.3" "sha256:03")
  = Ok [].
Proof.
  eapply (determine_range_empty_when_digests_equal (tags_only example_listing)
            (upgrade_of "0.1" "sha256:03" "0.3" "sha256:03") _ eq_refl).
  - vm_compute. repeat (constructor; [eexists; reflexivity|]). constructor.
  - reflexivity.
  - vm_compute. lia.
Qed.

(** C10. The code does not return the empty list for every upgrade whose
    [currentDigest] equals its [newDigest]. The first branch of the [if] is
    guarded by [current_tag_info is None]: once the current tag is recorded, a
    second tag of the same digest reaches the [elif] and is recorded as the
    new tag. With two tags of the one manifest above an older tag
    ([twice_tagged]) the range returned is the older of the two, a tag of the
    current digest, which the docstring of
    [determine_task_bundle_upgrades_range] excludes from the range. *)
Theorem determine_range_digests_equal_twice_tagged :
  let up := upgrade_of "0.1" "sha256:0d" "0.1" "sha256:0d" in
  let older := {| name := "0.1-b"; manifest_digest := "sha256:0d"; start_ts := 2 |} in
  let newer := {| name := "0.1-c"; manifest_digest := "sha256:0d"; start_ts := 3 |} in
  current_digest up = new_digest up
  /\ list_bundle_tags (tags_only twice_tagged) up = Ok twice_tagged
  /\ drop_out_of_order_versions (only_tags_pinned_by_version_revision twice_tagged) up
     = Ok (twice_tagged, Some older, Some newer, false)
  /\ determine_task_bundle_upgrades_range (tags_only twice_tagged) up
     = Ok [from_tag_info older]
  /\ QuayTagInfo.manifest_digest (from_tag_info older) = current_digest up
  /\ ~ empty_range_when_digests_equal.
Proof.
  intros up older newer. repeat split; try reflexivity.
  intros H.
  specialize (H (tags_only twice_tagged) up [from_tag_info older] eq_refl eq_refl).
  discriminate H.
Qed.

(** ** The range: its bounds *)




















(** ** The migration fetcher *)



(** ** The linked resolver: termination *)

Lemma snd_yield_ (m : TaskBundleMigration) (g : Generated) : snd (yield_ m g) = snd g.
Proof. by destruct g. Qed.

Lemma index_of_lt (x : string) (l : list string) (j : nat) :
  index_of x l = Some j -> (j < length l)%nat.
Proof.
  revert j. induction l as [|y l IH]; intros j H; simpl in H; [done|].
  destruct (String.eqb y x); [injection H as <-; simpl; lia|].
  destruct (index_of x l) as [k|]; [|done]. injection H as <-.
  specialize (IH k eq_refl). simpl. lia.
Qed.

(** With enough fuel for the generator to end, more fuel changes nothing. *)
Lemma linked_loop_more_fuel (reg : Registry) (dep_name_ : string)
    (upgrades_range : list QuayTagInfo.t) (digests : list string) (fuel : nat) :
  forall i : nat,
    snd (linked_loop fuel reg dep_name_ upgrades_range digests i) <> Running ->
    linked_loop (S fuel) reg dep_name_ upgrades_range digests i
    = linked_loop fuel reg dep_name_ upgrades_range digests i.
Proof.
  induction fuel as [|fuel IH]; intros i Hend; [done|].
  revert Hend. simpl.
  destruct (upgrades_range !! i) as [tag_info|]; [|done].
  destruct (get_manifest reg (bundle_ref dep_name_ tag_info)) as [m|e]; [|done].
  destruct (manifest_annotation m ANNOTATION_PREVIOUS_MIGRATION_BUNDLE "") as [|c d];
    simpl; [|destruct (index_of _ _) as [j|]];
    (destruct (is_true _);
     [destruct (fetch_migration_file reg dep_name_ _) as [script|e];
      [destruct (truthy script)|]|]);
    rewrite ?snd_yield_; try done;
    intros Hend; specialize (IH j Hend); simpl in IH; by rewrite IH.
Qed.

(** From the self-linked bundle the loop comes back to the same position. *)
Lemma self_linked_runs (fuel : nat) :
  linked_loop fuel self_linked "quay.io/konflux-ci/foo" [self_linked_tag] ["sha256:0a"] 0
  = ([], Running).
Proof.
  induction fuel as [|fuel IH]; [done|].
  change (linked_loop (S fuel) self_linked "quay.io/konflux-ci/foo" [self_linked_tag]
            ["sha256:0a"] 0)
    with (linked_loop fuel self_linked "quay.io/konflux-ci/foo" [self_linked_tag]
            ["sha256:0a"] 0).
  exact IH.
Qed.

(** C2 as worded does not hold: on a bundle linked to itself the loop is
    still running after any number of iterations. *)
Lemma linked_resolver_terminates_fails : ~ linked_resolver_terminates.
Proof.
  intros H.
  destruct (H self_linked "quay.io/konflux-ci/foo" [self_linked_tag] ltac:(done))
    as [fuel Hfuel].
  apply Hfuel. unfold linked_resolve_migrations. simpl map.
  by rewrite self_linked_runs.
Qed.

(** One iteration at a position the loop goes on from leaves the rest to the
    loop at the next position; at any other position it ends the generator. *)
Lemma linked_loop_goes_on (fuel : nat) (reg : Registry) (dep_name_ : string)
    (upgrades_range : list QuayTagInfo.t) (i : nat) :
  match goes_on reg dep_name_ upgrades_range i with
  | Some j =>
      snd (linked_loop (S fuel) reg dep_name_ upgrades_range
             (map QuayTagInfo.manifest_digest upgrades_range) i)
      = snd (linked_loop fuel reg dep_name_ upgrades_range
               (map QuayTagInfo.manifest_digest upgrades_range) j)
  | None =>
      snd (linked_loop (S fuel) reg dep_name_ upgrades_range
             (map QuayTagInfo.manifest_digest upgrades_range) i) <> Running
  end.
Proof.
  unfold goes_on, raised_at, next_position. simpl.
  destruct (upgrades_range !! i) as [tag_info|]; [|done].
  destruct (get_manifest reg (bundle_ref dep_name_ tag_info)) as [m|e]; [|done].
  destruct (manifest_annotation m ANNOTATION_PREVIOUS_MIGRATION_BUNDLE "") as [|c d];
    simpl; [|destruct (index_of _ _) as [j|]];
    (destruct (is_true _);
     [destruct (fetch_migration_file reg dep_name_ _) as [script|e];
      [destruct (truthy script)|]|]);
    rewrite ?snd_yield_; simpl; auto.
Qed.

Lemma goes_on_lt (reg : Registry) (dep_name_ : string)
    (upgrades_range : list QuayTagInfo.t) (i j : nat) :
  goes_on reg dep_name_ upgrades_range i = Some j ->
  next_position reg dep_name_ upgrades_range i = Some j
  /\ (j < length upgrades_range)%nat.
Proof.
  unfold goes_on. intros H.
  destruct (upgrades_range !! i) as [tag_info|] eqn:Hi; [|done].
  destruct (raised_at reg dep_name_ tag_info); [done|].
  split; [done|]. unfold next_position in H. rewrite Hi in H.
  destruct (get_manifest _ _); [|done].
  destruct (truthy _); [|done].
  apply index_of_lt in H. by rewrite length_map in H.
Qed.

Lemma position_after_add (reg : Registry) (dep_name_ : string)
    (upgrades_range : list QuayTagInfo.t) (a b i : nat) :
  position_after reg dep_name_ upgrades_range (a + b) i
  = match position_after reg dep_name_ upgrades_range a i with
    | Some p => position_after reg dep_name_ upgrades_range b p
    | None => None
    end.
Proof.
  revert i. induction a as [|a IH]; intros i; simpl; [done|].
  destruct (goes_on reg dep_name_ upgrades_range i) as [j|]; [apply IH|done].
Qed.

(** The loop is still running after [fuel] iterations when it has a position
    then, and has ended when it has none after some of them. *)
Lemma linked_loop_running (reg : Registry) (dep_name_ : string)
    (upgrades_range : list QuayTagInfo.t) (fuel i : nat) :
  position_after reg dep_name_ upgrades_range fuel i <> None ->
  snd (linked_loop fuel reg dep_name_ upgrades_range
         (map QuayTagInfo.manifest_digest upgrades_range) i) = Running.
Proof.
  revert i. induction fuel as [|fuel IH]; intros i H; [done|].
  pose proof (linked_loop_goes_on fuel reg dep_name_ upgrades_range i) as Hstep.
  simpl in H.
  destruct (goes_on reg dep_name_ upgrades_range i) as [j|]; [|done].
  rewrite Hstep. by apply IH.
Qed.

Lemma linked_loop_ended (reg : Registry) (dep_name_ : string)
    (upgrades_range : list QuayTagInfo.t) (fuel n i : nat) :
  (n <= fuel)%nat ->
  position_after reg dep_name_ upgrades_range n i = None ->
  snd (linked_loop fuel reg dep_name_ upgrades_range
         (map QuayTagInfo.manifest_digest upgrades_range) i) <> Running.
Proof.
  revert n i. induction fuel as [|fuel IH]; intros n i Hn H.
  - by replace n with 0%nat in H by lia.
  - destruct n as [|n]; [done|].
    pose proof (linked_loop_goes_on fuel reg dep_name_ upgrades_range i) as Hstep.
    simpl in H.
    destruct (goes_on reg dep_name_ upgrades_range i) as [j|]; [|done].
    rewrite Hstep. apply (IH n); [lia|done].
Qed.

Lemma position_after_lt (reg : Registry) (dep_name_ : string)
    (upgrades_range : list QuayTagInfo.t) (n i p : nat) :
  (i < length upgrades_range)%nat ->
  position_after reg dep_name_ upgrades_range n i = Some p ->
  (p < length upgrades_range)%nat.
Proof.
  revert i. induction n as [|n IH]; intros i Hi H; simpl in H.
  - by injection H as <-.
  - destruct (goes_on reg dep_name_ upgrades_range i) as [j|] eqn:Hj; [|done].
    apply (IH j); [|done]. by apply goes_on_lt in Hj as [_ ?].
Qed.

Lemma position_after_prefix (reg : Registry) (dep_name_ : string)
    (upgrades_range : list QuayTagInfo.t) (k n i : nat) :
  (k <= n)%nat ->
  position_after reg dep_name_ upgrades_range n i <> None ->
  position_after reg dep_name_ upgrades_range k i <> None.
Proof.
  intros Hk H Hnone. apply H.
  replace n with (k + (n - k))%nat by lia.
  by rewrite position_after_add, Hnone.
Qed.

(** A loop that comes back to a position has a position after any number of
    iterations. *)
Lemma revisits_runs (reg : Registry) (dep_name_ : string)
    (upgrades_range : list QuayTagInfo.t) :
  revisits reg dep_name_ upgrades_range ->
  forall k, position_after reg dep_name_ upgrades_range k 0 <> None.
Proof.
  intros (m & n & p & Hmn & Hm & Hn) k.
  assert (Hcycle : position_after reg dep_name_ upgrades_range (n - m) p = Some p).
  { replace n with (m + (n - m))%nat in Hn by lia.
    by rewrite position_after_add, Hm in Hn. }
  assert (Hturns : forall j,
            position_after reg dep_name_ upgrades_range (j * (n - m)) p = Some p).
  { induction j as [|j IH]; [done|]. simpl.
    by rewrite position_after_add, Hcycle. }
  apply (position_after_prefix _ _ _ k (m + k * (n - m))); [nia|].
  by rewrite position_after_add, Hm, Hturns.
Qed.

(** In a range of [length upgrades_range] positions, a loop that never comes
    back to a position has ended after as many iterations. *)
Lemma no_revisit_ends (reg : Registry) (dep_name_ : string)
    (upgrades_range : list QuayTagInfo.t) :
  upgrades_range <> [] ->
  ~ revisits reg dep_name_ upgrades_range ->
  position_after reg dep_name_ upgrades_range (length upgrades_range) 0 = None.
Proof.
  intros Hne Hno.
  assert (Hlen : (0 < length upgrades_range)%nat).
  { destruct upgrades_range; [done|simpl; lia]. }
  destruct (position_after reg dep_name_ upgrades_range (length upgrades_range) 0)
    as [q|] eqn:Hq; [exfalso|done].
  set (pos := fun k => default 0%nat (position_after reg dep_name_ upgrades_range k 0)).
  assert (Hpos : forall k, (k <= length upgrades_range)%nat ->
            position_after reg dep_name_ upgrades_range k 0 = Some (pos k)).
  { intros k Hk. unfold pos.
    pose proof (position_after_prefix reg dep_name_ upgrades_range k _ 0 Hk) as H.
    rewrite Hq in H. specialize (H ltac:(done)).
    by destruct (position_after reg dep_name_ upgrades_range k 0). }
  assert (Hnodup : NoDup (pos <$> seq 0 (S (length upgrades_range)))).
  { apply NoDup_alt. intros a b x Ha Hb.
    rewrite list_lookup_fmap in Ha, Hb.
    destruct (seq 0 (S (length upgrades_range)) !! a) as [a'|] eqn:Ea; [|done].
    destruct (seq 0 (S (length upgrades_range)) !! b) as [b'|] eqn:Eb; [|done].
    apply lookup_seq in Ea as [-> Ha']. apply lookup_seq in Eb as [-> Hb'].
    simpl in Ha, Hb. injection Ha as Ha. injection Hb as Hb.
    destruct (lt_eq_lt_dec a b) as [[Hlt|Heq]|Hgt]; [exfalso|done|exfalso]; apply Hno.
    - exists a, b, x. split; [done|]. rewrite !Hpos by lia. by rewrite Ha, Hb.
    - exists b, a, x. split; [done|]. rewrite !Hpos by lia. by rewrite Ha, Hb. }
  assert (Hsub : pos <$> seq 0 (S (length upgrades_range)) ⊆+ seq 0 (length upgrades_range)).
  { apply NoDup_submseteq; [done|]. intros x Hx.
    apply list_elem_of_fmap in Hx as (k & -> & Hk). apply elem_of_seq in Hk.
    apply elem_of_seq. split; [lia|]. simpl.
    apply (position_after_lt reg dep_name_ upgrades_range k 0); [done|].
    apply Hpos. lia. }
  apply submseteq_length in Hsub. rewrite length_fmap, !length_seq in Hsub. lia.
Qed.

(** Links that lead to older tags never bring the loop back. *)
Lemma position_after_older (reg : Registry) (dep_name_ : string)
    (upgrades_range : list QuayTagInfo.t) :
  links_lead_to_older reg dep_name_ upgrades_range ->
  forall n i p,
    position_after reg dep_name_ upgrades_range n i = Some p -> (i + n <= p)%nat.
Proof.
  intros Hlinks n. induction n as [|n IH]; intros i p H; simpl in H.
  - injection H as <-. lia.
  - destruct (goes_on reg dep_name_ upgrades_range i) as [j|] eqn:Hj; [|done].
    apply goes_on_lt in Hj as [Hj _]. apply Hlinks in Hj.
    apply IH in H. lia.
Qed.

Lemma links_lead_to_older_no_revisit (reg : Registry) (dep_name_ : string)
    (upgrades_range : list QuayTagInfo.t) :
  links_lead_to_older reg dep_name_ upgrades_range ->
  ~ revisits reg dep_name_ upgrades_range.
Proof.
  intros Hlinks (m & n & p & Hmn & Hm & Hn).
  replace n with (m + (n - m))%nat in Hn by lia.
  rewrite position_after_add, Hm in Hn.
  apply (position_after_older _ _ _ Hlinks) in Hn. lia.
Qed.

(** C2, amended. For every non-empty range,
    [LinkedMigrationsResolver._resolve_migrations] terminates exactly when the
    loop, begun at position 0 and going from each tag to the position of its
    [previous-migration-bundle] link, never comes back to a position it has
    been at: the loop then ends within as many iterations as the range has
    tags, and what it yields does not depend on the fuel beyond that. This is
    so in particular when every link that is found leads to an older tag. A
    loop that comes back to a position is still running after any number of
    iterations. *)
Theorem linked_resolve_migrations_terminates
    (reg : Registry) (dep_name_ : string) (upgrades_range : list QuayTagInfo.t)
    (Hnonempty : upgrades_range <> []) :
  (~ revisits reg dep_name_ upgrades_range ->
   forall fuel : nat,
     (length upgrades_range <= fuel)%nat ->
     snd (linked_resolve_migrations fuel reg dep_name_ upgrades_range) <> Running
     /\ linked_resolve_migrations fuel reg dep_name_ upgrades_range
        = linked_resolve_migrations (length upgrades_range) reg dep_name_ upgrades_range)
  /\ (revisits reg dep_name_ upgrades_range ->
      forall fuel : nat,
        snd (linked_resolve_migrations fuel reg dep_name_ upgrades_range) = Running)
  /\ ((exists fuel : nat,
         snd (linked_resolve_migrations fuel reg dep_name_ upgrades_range) <> Running)
      <-> ~ revisits reg dep_name_ upgrades_range)
  /\ (links_lead_to_older reg dep_name_ upgrades_range ->
      ~ revisits reg dep_name_ upgrades_range).
Proof.
  assert (Hloop : forall fuel,
            linked_resolve_migrations fuel reg dep_name_ upgrades_range
            = linked_loop fuel reg dep_name_ upgrades_range
                (map QuayTagInfo.manifest_digest upgrades_range) 0).
  { intros fuel. unfold linked_resolve_migrations. by destruct upgrades_range. }
  assert (Hends : ~ revisits reg dep_name_ upgrades_range ->
            forall fuel, (length upgrades_range <= fuel)%nat ->
              snd (linked_resolve_migrations fuel reg dep_name_ upgrades_range) <> Running).
  { intros Hno fuel Hfuel. rewrite Hloop.
    apply (linked_loop_ended _ _ _ fuel (length upgrades_range)); [done|].
    by apply no_revisit_ends. }
  assert (Hruns : revisits reg dep_name_ upgrades_range ->
            forall fuel,
              snd (linked_resolve_migrations fuel reg dep_name_ upgrades_range) = Running).
  { intros Hre fuel. rewrite Hloop. apply linked_loop_running.
    by apply revisits_runs. }
  split; [|split; [done|split]].
  - intros Hno fuel Hfuel. split; [by apply Hends|].
    induction Hfuel as [|f Hf IH]; [done|].
    rewrite <- IH, !Hloop. apply linked_loop_more_fuel.
    rewrite <- Hloop. by apply Hends.
  - split.
    + intros [fuel Hfuel] Hre. by apply Hfuel, Hruns.
    + intros Hno. exists (length upgrades_range). by apply Hends.
  - apply links_lead_to_older_no_revisit.
Qed.

Lemma linked_registry_links :
  links_lead_to_older linked_registry "quay.io/konflux-ci/foo" linked_range.
Proof.
  intros i j H.
  destruct i as [|[|[|[|i]]]]; vm_compute in H; try discriminate H;
    injection H as <-; lia.
Qed.

(** When the loop has no position after some number of iterations, it has
    not come back to a position. *)
Lemma ended_no_revisit (reg : Registry) (dep_name_ : string)
    (upgrades_range : list QuayTagInfo.t) (n : nat) :
  position_after reg dep_name_ upgrades_range n 0 = None ->
  ~ revisits reg dep_name_ upgrades_range.
Proof. intros Hn Hre. by apply (revisits_runs _ _ _ Hre n). Qed.

Lemma linked_resolve_migrations_terminates_witness :
  snd (linked_resolve_migrations 4 linked_registry "quay.io/konflux-ci/foo" linked_range)
  <> Running
  /\ (snd (linked_resolve_migrations 3 backward_linked "quay.io/konflux-ci/foo"
             backward_linked_range) <> Running
      /\ ~ links_lead_to_older backward_linked "quay.io/konflux-ci/foo"
             backward_linked_range)
  /\ forall fuel : nat,
       snd (linked_resolve_migrations fuel self_linked "quay.io/konflux-ci/foo"
              [self_linked_tag]) = Running.
Proof.
  split; [|split; [split|]].
  - destruct (linked_resolve_migrations_terminates linked_registry
                "quay.io/konflux-ci/foo" linked_range ltac:(discriminate))
      as (Hends & _ & _ & Hlinks).
    apply (Hends (Hlinks linked_registry_links) 4%nat). vm_compute. lia.
  - destruct (linked_resolve_migrations_terminates backward_linked
                "quay.io/konflux-ci/foo" backward_linked_range ltac:(discriminate))
      as (Hends & _).
    apply (Hends (ended_no_revisit backward_linked "quay.io/konflux-ci/foo"
                    backward_linked_range 2 eq_refl) 3%nat).
    vm_compute. lia.
  - intros H. specialize (H 2%nat 0%nat eq_refl). lia.
  - destruct (linked_resolve_migrations_terminates self_linked
                "quay.io/konflux-ci/foo" [self_linked_tag] ltac:(discriminate))
      as (_ & Hruns & _).
    apply Hruns. exists 0%nat, 1%nat, 0%nat. split; [lia|]. split; reflexivity.
Defined.

(** ** The order of the migrations after resolution *)

Lemma _resolve_returns (s : Strategy) (fuel : nat) (reg : Registry)
    (u u' : TaskBundleUpgrade) :
  _resolve s fuel reg u = (u', StopIteration) ->
  exists upgrades_range ys,
    determine_task_bundle_upgrades_range reg u = Ok upgrades_range
    /\ _resolve_migrations s fuel reg (dep_name u) upgrades_range = (ys, StopIteration)
    /\ u' = set_migrations u (rev (migrations u ++ ys)).
Proof.
  unfold _resolve. intros H.
  destruct (determine_task_bundle_upgrades_range reg u) as [upgrades_range|e]; [|done].
  destruct (_resolve_migrations s fuel reg (dep_name u) upgrades_range) as [ys end_] eqn:Hys.
  exists upgrades_range, ys. destruct end_; [|discriminate H..].
  injection H as <-. done.
Qed.

Lemma first_raised_returns (ends : list GenEnd) :
  existsb is_running ends = false -> first_raised ends = StopIteration ->
  Forall (fun e => e = StopIteration) ends.
Proof.
  induction ends as [|e ends IH]; intros Hrun Hfirst; [constructor|].
  destruct e; simpl in *; try done. constructor; [done|by apply IH].
Qed.

Lemma resolve_end_returns (ends : list GenEnd) :
  resolve_end ends = StopIteration -> Forall (fun e => e = StopIteration) ends.
Proof.
  unfold resolve_end. intros H.
  destruct (existsb is_running ends) eqn:Hrun; [done|].
  by apply first_raised_returns.
Qed.

(** C5 as worded does not hold: [_resolve] appends what is yielded to the
    migrations the upgrade already holds and reverses the whole list. An
    upgrade that is resolved a second time holds four migrations, where two
    were yielded. *)
Lemma resolve_stores_reversal_fails :
  ~ resolve_stores_reversal
  /\ fst (resolve LinkedMigrationsResolver 3 linked_registry
            [upgrade_of "0.1" "sha256:d0" "0.2" "sha256:d3"])
     = [resolved_once]
  /\ (exists u',
        resolve LinkedMigrationsResolver 3 linked_registry [resolved_once]
        = ([u'], StopIteration)
        /\ map migration_script (migrations u') = ["echo 1"; "echo 3"; "echo 3"; "echo 1"])
  /\ (exists upgrades_range ys,
        determine_task_bundle_upgrades_range linked_registry resolved_once
        = Ok upgrades_range
        /\ _resolve_migrations LinkedMigrationsResolver 3 linked_registry
             "quay.io/konflux-ci/foo" upgrades_range = (ys, StopIteration)
        /\ map migration_script ys = ["echo 3"; "echo 1"]).
Proof.
  split; [|split; [reflexivity|split]].
  2: { eexists. split; reflexivity. }
  2: { eexists _, _. repeat split; reflexivity. }
  intros H.
  pose proof (H LinkedMigrationsResolver 3%nat linked_registry [resolved_once] _ eq_refl)
    as H1.
  apply Forall2_cons_1 in H1 as [(upgrades_range & ys & Hrange & Hys & Hm) _].
  vm_compute in Hrange. injection Hrange as <-.
  vm_compute in Hys. injection Hys as <-.
  vm_compute in Hm. discriminate Hm.
Qed.

(** C5, amended. After [Resolver.resolve] has completed on a list of
    upgrades, with either strategy, the migrations of each upgrade are the
    migrations it had before followed by those that [_resolve_migrations]
    yielded for its range, reversed: for an upgrade that had none, as the
    manager creates them, the list stored is the reversal of the sequence
    yielded, oldest first. *)
Theorem resolve_reverses
    (s : Strategy) (fuel : nat) (reg : Registry) (tb_upgrades resolved : list TaskBundleUpgrade)
    (Hcompletes : resolve s fuel reg tb_upgrades = (resolved, StopIteration)) :
  Forall2
    (fun u u' =>
       exists upgrades_range ys,
         determine_task_bundle_upgrades_range reg u = Ok upgrades_range
         /\ _resolve_migrations s fuel reg (dep_name u) upgrades_range = (ys, StopIteration)
         /\ u' = set_migrations u (migrations u')
         /\ migrations u' = rev (migrations u ++ ys)
         /\ (migrations u = [] -> migrations u' = rev ys))
    tb_upgrades resolved.
Proof.
  unfold resolve in Hcompletes. injection Hcompletes as <- Hends.
  apply resolve_end_returns in Hends.
  induction tb_upgrades as [|u ups IH]; simpl in *; [constructor|].
  apply Forall_cons in Hends as [Hu Hups].
  constructor; [|by apply IH].
  destruct (_resolve s fuel reg u) as [u' e] eqn:Hres. simpl in *. subst e.
  destruct (_resolve_returns _ _ _ _ _ Hres) as (upgrades_range & ys & Hrange & Hys & ->).
  exists upgrades_range, ys. simpl. repeat split; try done.
  by intros ->.
Qed.

Lemma resolve_reverses_witness :
  exists u',
    resolve LinkedMigrationsResolver 3 linked_registry
      [upgrade_of "0.1" "sha256:d0" "0.2" "sha256:d3"]
    = ([u'], StopIteration)
    /\ map migration_script (migrations u') = ["echo 1"; "echo 3"]
    /\ exists upgrades_range ys,
         _resolve_migrations LinkedMigrationsResolver 3 linked_registry
           "quay.io/konflux-ci/foo" upgrades_range = (ys, StopIteration)
         /\ map migration_script ys = ["echo 3"; "echo 1"]
         /\ migrations u' = rev ys.
Proof.
  pose (u' := set_migrations (upgrade_of "0.1" "sha256:d0" "0.2" "sha256:d3")
                [ {| task_bundle := "quay.io/konflux-ci/foo:0.1-b@sha256:d1";
                     migration_script := "echo 1" |};
                  {| task_bundle := "quay.io/konflux-ci/foo:0.2-d@sha256:d3";
                     migration_script := "echo 3" |} ]).
  assert (Hres : resolve LinkedMigrationsResolver 3 linked_registry
                   [upgrade_of "0.1" "sha256:d0" "0.2" "sha256:d3"]
                 = ([u'], StopIteration)) by reflexivity.
  exists u'. split; [exact Hres|]. split; [reflexivity|].
  pose proof (resolve_reverses _ _ _ _ _ Hres) as H.
  apply Forall2_cons_1 in H as [(upgrades_range & ys & Hrange & Hys & _ & _ & Hrev) _].
  exists upgrades_range, ys. split; [exact Hys|].
  specialize (Hrev eq_refl). split; [|exact Hrev].
  apply (f_equal (@rev _)) in Hrev. rewrite rev_involutive in Hrev. by rewrite <- Hrev.
Defined.

(** The same for the upgrades the manager holds: they are created without
    migrations, so after [resolve_migrations] each holds the reversal of what
    was yielded for it. *)
Lemma collect_step_fresh (m : TaskBundleUpgradesManager) (upgrade : Upgrade) :
  fresh m -> fresh (collect_step m upgrade).
Proof.
  intros H key u. unfold collect_step. simpl.
  destruct (_task_bundle_upgrades m !! _) eqn:Hk; [apply H|].
  rewrite lookup_insert. case_decide; [|apply H]. by intros [= <-].
Qed.

Lemma _collect_fresh (upgrades : list Upgrade) (m : TaskBundleUpgradesManager) :
  fresh m -> fresh (_collect m upgrades).
Proof.
  revert m. induction upgrades as [|x xs IH]; intros m H; simpl; [done|].
  apply IH. by apply collect_step_fresh.
Qed.

Lemma new_manager_fresh (upgrades : list Upgrade) : fresh (new_manager upgrades).
Proof. apply _collect_fresh. intros key u H. simpl in H. by rewrite lookup_empty in H. Qed.

Lemma resolve_migrations_reverses (s : Strategy) (fuel : nat) (reg : Registry)
    (upgrades : list Upgrade) (m' : TaskBundleUpgradesManager) :
  resolve_migrations s fuel reg (new_manager upgrades) = (m', StopIteration) ->
  forall key u',
    _task_bundle_upgrades m' !! key = Some u' ->
    exists u upgrades_range ys,
      _task_bundle_upgrades (new_manager upgrades) !! key = Some u
      /\ determine_task_bundle_upgrades_range reg u = Ok upgrades_range
      /\ _resolve_migrations s fuel reg (dep_name u) upgrades_range = (ys, StopIteration)
      /\ u' = set_migrations u (rev ys).
Proof.
  unfold resolve_migrations. intros [= <- Hends] key u' Hu'. simpl in Hu'.
  apply resolve_end_returns in Hends.
  rewrite !lookup_fmap in Hu'.
  destruct (_task_bundle_upgrades (new_manager upgrades) !! key) as [u|] eqn:Hu;
    [|done].
  simpl in Hu'. injection Hu' as <-.
  destruct (_resolve s fuel reg u) as [u' e] eqn:Hres.
  assert (e = StopIteration) as ->.
  { rewrite Forall_forall in Hends. apply Hends.
    apply list_elem_of_fmap. exists (u', e). split; [done|].
    apply list_elem_of_fmap. exists (key, (u', e)). split; [done|].
    apply elem_of_map_to_list. by rewrite lookup_fmap, Hu, <- Hres. }
  destruct (_resolve_returns _ _ _ _ _ Hres) as (upgrades_range & ys & Hrange & Hys & ->).
  exists u, upgrades_range, ys. repeat split; try done.
  simpl. by rewrite (new_manager_fresh upgrades key u Hu).
Qed.

(** ** The upgrades manager: deduplication *)

(** What [_collect] stores under a key: what was there, or else the upgrade
    built from the first mapping of that key. *)
Lemma _collect_lookup (upgrades : list Upgrade) (m : TaskBundleUpgradesManager)
    (key : string) :
  _task_bundle_upgrades (_collect m upgrades) !! key
  = match _task_bundle_upgrades m !! key with
    | Some u => Some u
    | None => new_task_bundle_upgrade <$> first_with_key key upgrades
    end.
Proof.
  revert m. induction upgrades as [|x xs IH]; intros m; simpl.
  - by destruct (_task_bundle_upgrades m !! key).
  - rewrite IH. unfold collect_step at 1. simpl. fold (key_of x).
    destruct (String.eqb_spec (key_of x) key) as [<-|Hne].
    + destruct (_task_bundle_upgrades m !! key_of x) eqn:Hk; [by rewrite Hk|].
      by rewrite lookup_insert_eq.
    + destruct (_task_bundle_upgrades m !! key_of x) eqn:Hk; [done|].
      by rewrite lookup_insert_ne.
Qed.

Lemma new_manager_lookup (upgrades : list Upgrade) (key : string) :
  _task_bundle_upgrades (new_manager upgrades) !! key
  = new_task_bundle_upgrade <$> first_with_key key upgrades.
Proof. unfold new_manager. rewrite _collect_lookup. simpl. by rewrite lookup_empty. Qed.

Lemma same_current_spec (a b : Upgrade) :
  same_current a b = true
  <-> depName a = depName b /\ currentValue a = currentValue b
      /\ currentDigest a = currentDigest b.
Proof.
  unfold same_current. rewrite !andb_true_iff, !String.eqb_eq. tauto.
Qed.

(** Mappings that agree on the three fields have the same reference, whatever
    they upgrade to. *)
Lemma same_current_reference (a b : Upgrade) :
  same_current a b = true -> reference_of a = reference_of b.
Proof.
  intros (H1 & H2 & H3)%same_current_spec. unfold reference_of.
  by rewrite H1, H2, H3.
Qed.

(** A string is cut in one way at the first occurrence of a character. *)
Lemma cut_at_first (c : ascii) (a a' b b' : string) :
  without c a -> without c a' ->
  a +:+ String c b = a' +:+ String c b' -> a = a' /\ b = b'.
Proof.
  unfold without. revert a'. induction a as [|x a IH]; intros [|x' a'] Ha Ha' H;
    simpl in Ha, Ha'.
  - change (String c b = String c b') in H. by injection H as ->.
  - change (String c b = String x' (a' +:+ String c b')) in H. injection H as <- _.
    by rewrite Ascii.eqb_refl in Ha'.
  - change (String x (a +:+ String c b) = String c b') in H. injection H as -> _.
    by rewrite Ascii.eqb_refl in Ha.
  - change (String x (a +:+ String c b) = String x' (a' +:+ String c b')) in H.
    injection H as -> H.
    apply orb_false_iff in Ha as [_ Ha]. apply orb_false_iff in Ha' as [_ Ha'].
    destruct (IH a' Ha Ha' H) as [-> ->]. done.
Qed.

(** References tell the three fields apart when [depName] has no colon and
    [currentValue] no [@]. *)
Lemma reference_of_inj (a b : Upgrade) :
  without ":" (depName a) -> without ":" (depName b) ->
  without "@" (currentValue a) -> without "@" (currentValue b) ->
  reference_of a = reference_of b -> same_current a b = true.
Proof.
  intros Ha Hb Ha' Hb' H. unfold reference_of in H.
  apply (cut_at_first ":" _ _ _ _ Ha Hb) in H as [H1 H].
  apply (cut_at_first "@" _ _ _ _ Ha' Hb') in H as [H2 H3].
  by apply same_current_spec.
Qed.

Lemma find_ext_elem {A : Type} (f g : A -> bool) (l : list A) :
  (forall x, x ∈ l -> f x = g x) -> List.find f l = List.find g l.
Proof.
  induction l as [|x l IH]; intros H; simpl; [done|].
  rewrite <- (H x) by left. destruct (f x); [done|].
  apply IH. intros y Hy. apply H. by right.
Qed.

Lemma find_elem_is_Some {A : Type} (f : A -> bool) (l : list A) (x : A) :
  x ∈ l -> f x = true -> exists y, List.find f l = Some y.
Proof.
  induction l as [|z l IH]; intros Hx Hf; [by apply elem_of_nil in Hx|]. simpl.
  destruct (f z) eqn:Hz; [by exists z|].
  apply elem_of_cons in Hx as [->|Hx]; [congruence|by apply IH].
Qed.

(** C9 as worded does not hold: the manager compares references, not the
    three fields, and two mappings that differ in [depName] and
    [currentValue] can have one reference. Of the three mappings of
    [same_reference] the last two agree on the three fields, and the upgrade
    stored for them is built from the first. *)
Lemma deduplicates_by_the_three_fields_fails :
  ~ deduplicates_by_the_three_fields
  /\ map_to_list (_task_bundle_upgrades (new_manager same_reference))
     = [ ("quay.io/konflux-ci/foo:0.1:0@sha256:0a",
          {| dep_name := "quay.io/konflux-ci/foo:0.1"; current_value := "0";
             current_digest := "sha256:0a"; new_value := "0.2";
             new_digest := "sha256:0b"; migrations := [] |}) ].
Proof.
  split; [|reflexivity].
  intros H. destruct (H same_reference) as [H1 _].
  specialize (H1 (upgrade_with "quay.io/konflux-ci/foo" "0.1:0" "0.4" "sha256:0d")
                 (upgrade_with "quay.io/konflux-ci/foo" "0.1:0" "0.3" "sha256:0c")).
  assert (Hin : upgrade_with "quay.io/konflux-ci/foo" "0.1:0" "0.4" "sha256:0d"
                ∈ same_reference) by (do 2 right; left).
  specialize (H1 Hin eq_refl). vm_compute in H1. discriminate H1.
Qed.

(** C9, amended. The manager keys the upgrades by the current bundle
    reference alone, the string [depName:currentValue@currentDigest]. For
    every list of mappings: every stored upgrade is stored under its own
    reference; the references stored are those of the mappings; the upgrade
    stored for a mapping is built from the first mapping of the list that has
    its reference; mappings that agree on [depName], [currentValue] and
    [currentDigest] have one reference whatever their [newValue] and
    [newDigest], so only one upgrade is stored for them; and when no two
    mappings of the list that differ in one of the three fields have one
    reference, as is the case when no [depName] holds a colon and no
    [currentValue] an [@], the mapping the upgrade is built from is the first
    that agrees on the three fields. *)
Theorem manager_deduplicates_by_current_bundle (upgrades : list Upgrade) :
  let m := new_manager upgrades in
  (forall key u,
     _task_bundle_upgrades m !! key = Some u ->
     key = dep_name u +:+ ":" +:+ current_value u +:+ "@" +:+ current_digest u
     /\ current_bundle u = key)
  /\ (forall key,
        is_Some (_task_bundle_upgrades m !! key)
        <-> exists upgrade, upgrade ∈ upgrades /\ key = reference_of upgrade)
  /\ (forall upgrade,
        upgrade ∈ upgrades ->
        exists first,
          first_same_reference upgrade upgrades = Some first
          /\ _task_bundle_upgrades m !! reference_of upgrade
             = Some (new_task_bundle_upgrade first))
  /\ (forall a b,
        a ∈ upgrades -> b ∈ upgrades -> same_current a b = true ->
        reference_of a = reference_of b
        /\ _task_bundle_upgrades m !! reference_of a
           = _task_bundle_upgrades m !! reference_of b)
  /\ ((forall a b,
         a ∈ upgrades -> b ∈ upgrades -> reference_of a = reference_of b ->
         same_current a b = true) ->
      forall upgrade,
        upgrade ∈ upgrades ->
        exists first,
          first_same_current upgrade upgrades = Some first
          /\ _task_bundle_upgrades m !! reference_of upgrade
             = Some (new_task_bundle_upgrade first))
  /\ ((forall x, x ∈ upgrades -> without ":" (depName x) /\ without "@" (currentValue x)) ->
      forall a b,
        a ∈ upgrades -> b ∈ upgrades -> reference_of a = reference_of b ->
        same_current a b = true).
Proof.
  intros m.
  assert (Hstored : forall upgrade,
            upgrade ∈ upgrades ->
            exists first,
              first_same_reference upgrade upgrades = Some first
              /\ _task_bundle_upgrades m !! reference_of upgrade
                 = Some (new_task_bundle_upgrade first)).
  { intros upgrade Hin. unfold m. rewrite new_manager_lookup.
    change (first_with_key (reference_of upgrade) upgrades)
      with (first_same_reference upgrade upgrades).
    destruct (find_elem_is_Some
                (fun x => String.eqb (reference_of x) (reference_of upgrade))
                upgrades upgrade Hin (String.eqb_refl _)) as [first Hfirst].
    exists first. unfold first_same_reference. by rewrite Hfirst. }
  split; [|split; [|split; [done|split; [|split]]]].
  - intros key u Hu. unfold m in Hu. rewrite new_manager_lookup in Hu.
    destruct (first_with_key key upgrades) as [r|] eqn:Hr; [|done].
    injection Hu as <-. apply find_some in Hr as [_ Hr].
    apply String.eqb_eq in Hr. by split.
  - intros key. split.
    + intros [u Hu]. unfold m in Hu. rewrite new_manager_lookup in Hu.
      destruct (first_with_key key upgrades) as [r|] eqn:Hr; [|done].
      apply find_some in Hr as [Hin Hr]. apply String.eqb_eq in Hr.
      exists r. split; [by apply list_elem_of_In|done].
    + intros (upgrade & Hin & ->). destruct (Hstored _ Hin) as (first & _ & ->). done.
  - intros a b _ _ Hab. apply same_current_reference in Hab. by rewrite Hab.
  - intros Hapart upgrade Hin. destruct (Hstored _ Hin) as (first & Hfirst & Hm).
    exists first. split; [|done]. rewrite <- Hfirst.
    apply find_ext_elem. intros x Hx.
    destruct (same_current upgrade x) eqn:Hs.
    + apply same_current_reference in Hs. symmetry. apply String.eqb_eq. done.
    + symmetry. apply String.eqb_neq. intros Heq.
      pose proof (Hapart _ _ Hin Hx (eq_sym Heq)). congruence.
  - intros Hwithout a b Ha Hb Heq.
    destruct (Hwithout _ Ha) as [Ha1 Ha2]. destruct (Hwithout _ Hb) as [Hb1 Hb2].
    by apply reference_of_inj.
Qed.

Lemma manager_deduplicates_by_current_bundle_witness :
  let first := upgrade_record "0.2" "sha256:0b" ".tekton/pr.yaml" in
  let second := upgrade_record "0.3" "sha256:0c" ".tekton/push.yaml" in
  let m := new_manager [first; second] in
  _task_bundle_upgrades m !! "quay.io/konflux-ci/foo:0.1@sha256:0a"
  = Some (new_task_bundle_upgrade first)
  /\ reference_of second = "quay.io/konflux-ci/foo:0.1@sha256:0a"
  /\ forall key u, _task_bundle_upgrades m !! key = Some u -> current_bundle u = key.
Proof.
  intros first second m.
  destruct (manager_deduplicates_by_current_bundle [first; second])
    as (Hkeys & _ & _ & _ & Hfields & Hapart).
  split; [|split; [reflexivity|]].
  - destruct (Hfields) with (upgrade := second) as (x & Hx & Hm).
    + apply Hapart.
      intros x Hx. repeat (apply elem_of_cons in Hx as [->|Hx]; [by split|]).
      by apply elem_of_nil in Hx.
    + right. left.
    + vm_compute in Hx. injection Hx as <-. exact Hm.
  - intros key u Hu. by apply Hkeys.
Defined.

(** ** The migration applier: scratch files *)

Lemma mkstemp_from_fresh (attempts : nat) (suffix : string) (fs fs' : FS) (path : string) :
  mkstemp_from attempts suffix fs = Ok (path, fs') ->
  files fs !! path = None /\ files fs' = <[path := EmptyString]> (files fs).
Proof.
  revert fs. induction attempts as [|n IH]; intros fs H; simpl in H; [done|].
  destruct (files fs !! temp_name (next_temp fs) suffix) eqn:Hp.
  - apply IH in H. done.
  - by injection H as <- <-.
Qed.

Lemma mkstemp_fresh (suffix : string) (fs fs' : FS) (path : string) :
  mkstemp suffix fs = Ok (path, fs') ->
  files fs !! path = None /\ files fs' = <[path := EmptyString]> (files fs).
Proof. apply mkstemp_from_fresh. Qed.

(** The scratch file of [_apply_migration] is gone on every way out. *)
Lemma _apply_migration_unlinks (t : Tools) (upgrades : list TaskBundleUpgrade)
    (fs fs0 : FS) (file_path_ migration_file : string) :
  mkstemp "-migration-file" fs = Ok (migration_file, fs0) ->
  files (fst (_apply_migration t upgrades fs file_path_)) !! migration_file = None.
Proof.
  intros H. unfold _apply_migration. rewrite H.
  destruct (apply_scripts t fs0 migration_file file_path_ 0 _) as [fs1 r]. simpl.
  apply lookup_delete_eq.
Qed.

Lemma run_migration_keeps (t : Tools) (fs : FS) (migration_file file_path_ kept : string) :
  keeps_the_file t -> is_Some (files fs !! kept) ->
  is_Some (files (fst (run_migration t fs migration_file file_path_)) !! kept).
Proof.
  intros Hkeeps Hkept. unfold run_migration.
  destruct (files fs !! migration_file) as [script|]; [|done].
  pose proof (Hkeeps script (files fs !! file_path_)) as Hk.
  destruct (bash t script (files fs !! file_path_)) as [[text|] rc]; simpl in *; [|done].
  rewrite lookup_insert. by case_decide.
Qed.

Lemma apply_scripts_keeps (t : Tools) (scripts : list TaskBundleMigration)
    (fs : FS) (migration_file file_path_ kept : string) (prev_size : nat) :
  keeps_the_file t -> is_Some (files fs !! kept) ->
  is_Some (files (fst (apply_scripts t fs migration_file file_path_ prev_size scripts))
             !! kept).
Proof.
  intros Hkeeps. revert fs prev_size.
  induction scripts as [|m ms IH]; intros fs prev_size Hkept; simpl; [done|].
  match goal with |- context [run_migration t ?fs1 _ _] =>
    pose proof (run_migration_keeps t fs1 migration_file file_path_ kept Hkeeps) as Hrun;
    destruct (run_migration t fs1 migration_file file_path_) as [fs2 [[]|e]]
  end; simpl in *.
  - apply IH, Hrun. rewrite lookup_insert. by case_decide.
  - apply Hrun. rewrite lookup_insert. by case_decide.
Qed.

Lemma _apply_migration_keeps (t : Tools) (upgrades : list TaskBundleUpgrade)
    (fs : FS) (file_path_ kept : string) :
  keeps_the_file t -> is_Some (files fs !! kept) ->
  is_Some (files (fst (_apply_migration t upgrades fs file_path_)) !! kept).
Proof.
  intros Hkeeps Hkept. unfold _apply_migration.
  destruct (mkstemp "-migration-file" fs) as [[migration_file fs0]|e] eqn:Hmk; [|done].
  apply mkstemp_fresh in Hmk as [Hfresh Hfs0].
  pose proof (apply_scripts_keeps t (concat (map migrations upgrades)) fs0 migration_file
                file_path_ kept 0 Hkeeps) as H.
  destruct (apply_scripts t fs0 migration_file file_path_ 0 _) as [fs1 r]. simpl in *.
  rewrite lookup_delete_ne.
  - apply H. rewrite Hfs0, lookup_insert. by case_decide.
  - intros <-. rewrite Hfresh in Hkept. by destruct Hkept.
Qed.

(** The scratch pipeline file of [handle_pipeline_run_file] is still there on
    every way out: nothing unlinks it. *)
Lemma handle_pipeline_run_file_leaves_scratch (t : Tools) (upgrades : list TaskBundleUpgrade)
    (fs fs0 : FS) (file_path_ temp_pipeline_file : string) (loaded_doc : Yaml)
    (style : YAMLStyle) :
  keeps_the_file t ->
  mkstemp "-pipeline" fs = Ok (temp_pipeline_file, fs0) ->
  is_Some (files (fst (handle_pipeline_run_file t upgrades fs file_path_ loaded_doc style))
             !! temp_pipeline_file).
Proof.
  intros Hkeeps Hmk. unfold handle_pipeline_run_file. rewrite Hmk. simpl.
  apply mkstemp_fresh in Hmk as [_ Hfs0].
  assert (H0 : is_Some (files fs0 !! temp_pipeline_file)).
  { rewrite Hfs0, lookup_insert_eq. by eexists. }
  unfold seq_fs, dump_yaml, file_checksum, load_yaml.
  destruct (let* spec := getitem loaded_doc "spec" in getitem spec "pipelineSpec")
    as [embedded|e]; [|done].
  destruct (dump_yaml_text t (YMap [("spec", embedded)]) style) as [text|e]; simpl; [|done].
  set (fs1 := write_file fs0 temp_pipeline_file text).
  assert (H1 : is_Some (files fs1 !! temp_pipeline_file)).
  { unfold fs1. simpl. rewrite lookup_insert_eq. by eexists. }
  destruct (read_file fs1 temp_pipeline_file) as [content|e]; simpl; [|done].
  pose proof (_apply_migration_keeps t upgrades fs1 temp_pipeline_file temp_pipeline_file
                Hkeeps H1) as H2.
  destruct (_apply_migration t upgrades fs1 temp_pipeline_file) as [fs2 [[]|e]];
    simpl in *; [|done].
  destruct (read_file fs2 temp_pipeline_file) as [content2|e]; simpl; [|done].
  destruct (String.eqb _ _); [done|].
  destruct (load_yaml_text t content2 style) as [modified|e]; simpl; [|done].
  destruct (let* modified_spec := getitem modified "spec" in _) as [doc'|e]; simpl; [|done].
  destruct (dump_yaml_text t doc' style) as [text'|e]; simpl; [|done].
  rewrite lookup_insert. by case_decide.
Qed.

(** C8, on the code. [handle_pipeline_run_file] on a pipeline-run file with
    one migration: when the migration succeeds and when it exits with a
    non-zero code, the scratch file of the migration script has been unlinked
    and the scratch pipeline file is still in the file system. *)
Theorem handle_pipeline_run_file_leaves_scratch_file :
  (let '(fs', r) :=
     handle_pipeline_run_file (tools_exiting 0) [migrated_upgrade] repository
       ".tekton/pr.yaml" pipeline_run_doc [] in
   r = Ok tt
   /\ files fs' !! "/tmp/tmp1-migration-file" = None
   /\ files fs' !! "/tmp/tmp0-pipeline" = Some "spec: {tasks: []}")
  /\ (let '(fs', r) :=
        handle_pipeline_run_file (tools_exiting 1) [migrated_upgrade] repository
          ".tekton/pr.yaml" pipeline_run_doc [] in
      r = Raise (CalledProcessError 1)
      /\ files fs' !! "/tmp/tmp1-migration-file" = None
      /\ files fs' !! "/tmp/tmp0-pipeline" = Some "spec: {tasks: []}").
Proof. vm_compute. repeat split. Qed.

(** ** The upgrades manager: package files *)

Lemma first_appearances_ext (seen seen' paths : list string) :
  (forall p, p ∈ seen <-> p ∈ seen') ->
  first_appearances seen paths = first_appearances seen' paths.
Proof.
  revert seen seen'. induction paths as [|x xs IH]; intros seen seen' H; simpl; [done|].
  rewrite (bool_decide_ext _ _ (H x)). case_bool_decide; [by apply IH|].
  f_equal. apply IH. intros p. rewrite !elem_of_cons. by rewrite H.
Qed.

Lemma first_appearances_new (seen paths : list string) (p : string) :
  p ∈ first_appearances seen paths <-> p ∈ paths /\ p ∉ seen.
Proof.
  revert seen. induction paths as [|x xs IH]; intros seen; simpl.
  - rewrite elem_of_nil. tauto.
  - destruct (bool_decide_reflect (x ∈ seen)) as [Hx|Hx].
    + rewrite IH, elem_of_cons. split; [by intros [? ?]; split; [right|]|].
      intros [[->|?] ?]; done.
    + rewrite elem_of_cons, IH, !elem_of_cons. split.
      * intros [->|[? Hn]]; [by split; [left|]|]. split; [by right|].
        intros ?. apply Hn. by right.
      * intros [[->|?] Hn]; [by left|].
        destruct (decide (p = x)) as [->|Hne]; [by left|].
        right. split; [done|]. by intros [?|?].
Qed.

Lemma first_appearances_NoDup (seen paths : list string) :
  NoDup (first_appearances seen paths).
Proof.
  revert seen. induction paths as [|x xs IH]; intros seen; simpl; [constructor|].
  case_bool_decide; [apply IH|]. constructor; [|apply IH].
  rewrite first_appearances_new. intros [_ Hn]. apply Hn. by left.
Qed.

Lemma append_to_package_file_paths (pf : PackageFile) (key : string)
    (pfs : list PackageFile) :
  map file_path (append_to_package_file pf key pfs)
  = map file_path pfs
    ++ (if bool_decide (file_path pf ∈ map file_path pfs) then [] else [file_path pf]).
Proof.
  induction pfs as [|x xs IH]; simpl; [done|].
  destruct (String.eqb_spec (file_path x) (file_path pf)) as [Heq|Hne]; simpl.
  - rewrite bool_decide_eq_true_2; [by rewrite app_nil_r|]. rewrite Heq. by left.
  - rewrite IH. f_equal.
    rewrite (bool_decide_ext (file_path pf ∈ file_path x :: map file_path xs)
               (file_path pf ∈ map file_path xs)); [done|].
    rewrite elem_of_cons. split; [|by right]. intros [?|?]; [congruence|done].
Qed.

Lemma _collect_paths (upgrades : list Upgrade) (m : TaskBundleUpgradesManager) :
  map file_path (_package_file_updates (_collect m upgrades))
  = map file_path (_package_file_updates m)
    ++ first_appearances (map file_path (_package_file_updates m))
         (map packageFile upgrades).
Proof.
  revert m. induction upgrades as [|x xs IH]; intros m; simpl; [by rewrite app_nil_r|].
  rewrite IH. unfold collect_step; simpl.
  rewrite append_to_package_file_paths; simpl.
  case_bool_decide; [by rewrite app_nil_r|].
  rewrite <- app_assoc. simpl. f_equal. f_equal.
  apply first_appearances_ext. intros p.
  rewrite elem_of_app, !elem_of_cons, elem_of_nil. tauto.
Qed.

Lemma package_file_of_append (pf : PackageFile) (key path : string)
    (pfs : list PackageFile) :
  package_file_of path (append_to_package_file pf key pfs)
  = if String.eqb (file_path pf) path then
      let old := default pf (package_file_of path pfs) in
      Some {| file_path := file_path old; parent_dir := parent_dir old;
              task_bundle_upgrades := task_bundle_upgrades old ++ [key] |}
    else package_file_of path pfs.
Proof.
  unfold package_file_of. induction pfs as [|x xs IH]; simpl.
  - by destruct (String.eqb (file_path pf) path).
  - destruct (String.eqb_spec (file_path x) (file_path pf)) as [Heq|Hne]; simpl.
    + rewrite <- Heq. by destruct (String.eqb (file_path x) path).
    + destruct (String.eqb_spec (file_path x) path) as [Hx|Hx]; [|apply IH].
      destruct (String.eqb_spec (file_path pf) path); [congruence|done].
Qed.

Lemma _collect_package_file (upgrades : list Upgrade) (m : TaskBundleUpgradesManager)
    (path : string) :
  package_file_of path (_package_file_updates (_collect m upgrades))
  = match package_file_of path (_package_file_updates m),
          first_with_path path upgrades with
    | Some pf, _ =>
        Some {| file_path := file_path pf; parent_dir := parent_dir pf;
                task_bundle_upgrades :=
                  task_bundle_upgrades pf ++ keys_of_path path upgrades |}
    | None, Some upgrade =>
        Some {| file_path := packageFile upgrade; parent_dir := parentDir upgrade;
                task_bundle_upgrades := keys_of_path path upgrades |}
    | None, None => None
    end.
Proof.
  revert m. induction upgrades as [|x xs IH]; intros m.
  - simpl. destruct (package_file_of _ _) as [[]|]; [|done].
    unfold keys_of_path. simpl. by rewrite app_nil_r.
  - change (_collect m (x :: xs)) with (_collect (collect_step m x) xs).
    rewrite IH. unfold collect_step at 1; simpl.
    rewrite package_file_of_append; simpl.
    unfold first_with_path, keys_of_path; simpl. fold (key_of x).
    destruct (String.eqb (packageFile x) path); simpl.
    + destruct (package_file_of path (_package_file_updates m)); simpl;
        by rewrite <- ?app_assoc.
    + by destruct (package_file_of path (_package_file_updates m)).
Qed.

Lemma package_file_of_elem (pfs : list PackageFile) (pf : PackageFile) :
  NoDup (map file_path pfs) -> pf ∈ pfs ->
  package_file_of (file_path pf) pfs = Some pf.
Proof.
  unfold package_file_of. induction pfs as [|x xs IH]; simpl; intros Hnd Hin.
  - by apply elem_of_nil in Hin.
  - apply NoDup_cons in Hnd as [Hx Hnd].
    apply elem_of_cons in Hin as [->|Hin]; [by rewrite String.eqb_refl|].
    destruct (String.eqb_spec (file_path x) (file_path pf)) as [Heq|_]; [|by apply IH].
    exfalso. apply Hx. rewrite Heq.
    change (map file_path xs) with (file_path <$> xs). by apply list_elem_of_fmap_2.
Qed.

Lemma new_manager_paths (upgrades : list Upgrade) :
  map file_path (_package_file_updates (new_manager upgrades))
  = first_appearances [] (map packageFile upgrades).
Proof. unfold new_manager. by rewrite _collect_paths. Qed.

Lemma new_manager_package_file (upgrades : list Upgrade) (pf : PackageFile) :
  pf ∈ _package_file_updates (new_manager upgrades) ->
  exists first,
    first_with_path (file_path pf) upgrades = Some first
    /\ parent_dir pf = parentDir first
    /\ task_bundle_upgrades pf = keys_of_path (file_path pf) upgrades.
Proof.
  intros Hpf.
  assert (Hnd : NoDup (map file_path (_package_file_updates (new_manager upgrades)))).
  { rewrite new_manager_paths. apply first_appearances_NoDup. }
  pose proof (package_file_of_elem _ pf Hnd Hpf) as Hfind.
  unfold new_manager in Hfind. rewrite _collect_package_file in Hfind.
  simpl in Hfind.
  destruct (first_with_path (file_path pf) upgrades) as [first|]; [|done].
  exists first. split; [done|]. injection Hfind as Hfind.
  split; [by apply (f_equal parent_dir) in Hfind|].
  by apply (f_equal task_bundle_upgrades) in Hfind.
Qed.

(** X1. The manager groups the upgrade mappings by package file: it holds one
    package file for each path, in the order in which the paths first appear
    among the mappings; a package file has the parent directory of the first
    mapping of its path, and one reference for each mapping of its path, in
    the order of the mappings, which is the key of that mapping. *)
Theorem package_files_group_by_path (upgrades : list Upgrade) :
  let pfs := _package_file_updates (new_manager upgrades) in
  map file_path pfs = first_appearances [] (map packageFile upgrades)
  /\ NoDup (map file_path pfs)
  /\ forall pf, pf ∈ pfs ->
       exists first,
         first_with_path (file_path pf) upgrades = Some first
         /\ parent_dir pf = parentDir first
         /\ task_bundle_upgrades pf = keys_of_path (file_path pf) upgrades.
Proof.
  intros pfs. split; [apply new_manager_paths|]. split.
  - unfold pfs. rewrite new_manager_paths. apply first_appearances_NoDup.
  - apply new_manager_package_file.
Qed.

Lemma first_with_key_elem (upgrades : list Upgrade) (upgrade : Upgrade) :
  upgrade ∈ upgrades ->
  exists first, first_with_key (key_of upgrade) upgrades = Some first
                /\ key_of first = key_of upgrade.
Proof.
  unfold first_with_key. intros Hin.
  destruct (List.find _ upgrades) as [first|] eqn:Hfind.
  - exists first. split; [done|]. apply find_some in Hfind as [_ H].
    by apply String.eqb_eq in H.
  - exfalso. apply list_elem_of_In in Hin.
    pose proof (find_none _ _ Hfind _ Hin) as H. simpl in H.
    by rewrite String.eqb_refl in H.
Qed.

(** X2. Every reference of a package file leads to a stored upgrade: the key
    is that of a mapping given to the manager, the manager stores an upgrade
    under it whose current bundle is the key, and after [resolve_migrations]
    the same key leads to that upgrade as the resolver left it, whatever
    way the resolution ended. *)
Theorem package_file_references_resolve (s : Strategy) (fuel : nat) (reg : Registry)
    (upgrades : list Upgrade) :
  let m := new_manager upgrades in
  let m' := fst (resolve_migrations s fuel reg m) in
  _package_file_updates m' = _package_file_updates m
  /\ forall pf key,
       pf ∈ _package_file_updates m' -> key ∈ task_bundle_upgrades pf ->
       exists u,
         _task_bundle_upgrades m !! key = Some u
         /\ current_bundle u = key
         /\ migrations u = []
         /\ _task_bundle_upgrades m' !! key = Some (fst (_resolve s fuel reg u)).
Proof.
  intros m m'. split; [done|]. intros pf key Hpf Hkey.
  change (_package_file_updates m') with (_package_file_updates m) in Hpf.
  destruct (new_manager_package_file upgrades pf Hpf) as (first & _ & _ & Hrefs).
  rewrite Hrefs in Hkey. unfold keys_of_path in Hkey.
  change (map key_of ?l) with (key_of <$> l) in Hkey.
  apply list_elem_of_fmap in Hkey as (upgrade & -> & Hin).
  apply list_elem_of_In, filter_In in Hin as [Hin _]. apply list_elem_of_In in Hin.
  destruct (first_with_key_elem upgrades upgrade Hin) as (r & Hr & Hk).
  exists (new_task_bundle_upgrade r).
  assert (Hm : _task_bundle_upgrades m !! key_of upgrade
               = Some (new_task_bundle_upgrade r)).
  { unfold m. by rewrite new_manager_lookup, Hr. }
  split; [done|]. split; [done|]. split; [done|].
  unfold m', resolve_migrations. simpl. by rewrite !lookup_fmap, Hm.
Qed.

(** ** The migration applier: what the scripts are run on *)

Lemma substring_none (n : nat) (s : string) : String.substring n 0 s = EmptyString.
Proof. revert n. induction s as [|c s IH]; intros [|n]; simpl; auto. Qed.

Lemma append_empty (s : string) : s +:+ EmptyString = s.
Proof.
  induction s as [|c s IH]; [done|].
  change (String c (s +:+ EmptyString) = String c s). by rewrite IH.
Qed.

Lemma length_truncate (n : nat) (s : string) :
  n <= String.length s -> String.length (truncate n s) = n.
Proof.
  unfold truncate. revert n. induction s as [|c s IH]; intros [|n] H; simpl in *;
    try done; try lia.
  rewrite IH; [done|lia].
Qed.

(** Writing a script over a scratch file that is not longer leaves the
    script alone in it. *)
Lemma write_at_0_exact (content old : string) :
  String.length old <= String.length content -> write_at_0 content old = content.
Proof.
  intros H. unfold write_at_0.
  replace (String.length old - String.length content) with 0 by lia.
  by rewrite substring_none, append_empty.
Qed.

Lemma lookup_set_content (path q : string) (content : option string)
    (fs_files : gmap string string) :
  set_content path content fs_files !! q
  = if decide (path = q) then content else fs_files !! q.
Proof.
  unfold set_content. destruct content as [text|].
  - rewrite lookup_insert. by case_decide.
  - rewrite lookup_delete. by case_decide.
Qed.

(** The two nested loops of [_apply_migration], with the scratch file
    holding as many bytes as [prev_size] says: the scripts are run on the
    pipeline file one after the other, the scratch file holds the last
    script run, and no other file is touched. *)
Lemma apply_scripts_runs (t : Tools) (migration_file file_path_ : string)
    (scripts : list TaskBundleMigration) (fs : FS) (prev_size : nat) (old : string) :
  file_path_ <> migration_file ->
  files fs !! migration_file = Some old ->
  String.length old = prev_size ->
  let done := run_scripts t (files fs !! file_path_) scripts in
  let after := apply_scripts t fs migration_file file_path_ prev_size scripts in
  snd after = snd done
  /\ is_Some (files (fst after) !! migration_file)
  /\ forall q, q <> migration_file ->
       files (fst after) !! q = set_content file_path_ (fst done) (files fs) !! q.
Proof.
  intros Hne. revert fs prev_size old.
  induction scripts as [|m ms IH]; intros fs prev_size old Hold Hlen; simpl.
  - split; [done|]. split; [by rewrite Hold|].
    intros q _. rewrite lookup_set_content. case_decide; congruence.
  - rewrite Hold. simpl.
    assert (Hwrite :
      write_at_0 (migration_script m)
        (if (String.length (migration_script m) <? prev_size)%nat
         then truncate (String.length (migration_script m)) old else old)
      = migration_script m).
    { apply write_at_0_exact. destruct (Nat.ltb_spec (String.length (migration_script m)) prev_size).
      - rewrite length_truncate; lia.
      - lia. }
    rewrite Hwrite. unfold run_migration. simpl.
    rewrite lookup_insert_eq, lookup_insert_ne by done.
    destruct (bash t (migration_script m) (files fs !! file_path_)) as [content rc].
    set (fs2 := match content with
                | Some text => write_file (write_file fs migration_file (migration_script m))
                                 file_path_ text
                | None => unlink (write_file fs migration_file (migration_script m)) file_path_
                end).
    assert (Hscratch : files fs2 !! migration_file = Some (migration_script m)).
    { unfold fs2. destruct content; simpl.
      - by rewrite lookup_insert_ne, lookup_insert_eq.
      - by rewrite lookup_delete_ne, lookup_insert_eq. }
    assert (Htarget : files fs2 !! file_path_ = content).
    { unfold fs2. destruct content; simpl.
      - by rewrite lookup_insert_eq.
      - by rewrite lookup_delete_eq. }
    assert (Hother : forall q, q <> migration_file -> q <> file_path_ ->
                               files fs2 !! q = files fs !! q).
    { intros q H1 H2. unfold fs2. destruct content; simpl.
      - by rewrite !lookup_insert_ne.
      - by rewrite lookup_delete_ne, lookup_insert_ne. }
    destruct (rc =? 0)%Z.
    + destruct (IH fs2 _ _ Hscratch eq_refl) as (Hr & Hs & Hq).
      rewrite Htarget in Hr, Hq. split; [done|]. split; [done|].
      intros q Hqn. rewrite (Hq q Hqn), !lookup_set_content.
      case_decide; [done|]. apply Hother; congruence.
    + simpl. split; [done|]. split; [by rewrite Hscratch|].
      intros q Hqn. rewrite lookup_set_content.
      case_decide as Hq; [by subst q|]. apply Hother; congruence.
Qed.

Lemma _apply_migration_runs (t : Tools) (upgrades : list TaskBundleUpgrade)
    (fs fs0 : FS) (file_path_ migration_file : string) :
  mkstemp "-migration-file" fs = Ok (migration_file, fs0) ->
  file_path_ <> migration_file ->
  let done := run_scripts t (files fs !! file_path_) (concat (map migrations upgrades)) in
  let after := _apply_migration t upgrades fs file_path_ in
  snd after = snd done
  /\ files (fst after) = set_content file_path_ (fst done) (files fs).
Proof.
  intros Hmk Hne. simpl. unfold _apply_migration. rewrite Hmk.
  apply mkstemp_fresh in Hmk as [Hfresh Hfs0].
  assert (Hold : files fs0 !! migration_file = Some EmptyString).
  { by rewrite Hfs0, lookup_insert_eq. }
  destruct (apply_scripts_runs t migration_file file_path_
              (concat (map migrations upgrades)) fs0 0 EmptyString Hne Hold eq_refl)
    as (Hr & _ & Hq).
  assert (Htarget : files fs0 !! file_path_ = files fs !! file_path_).
  { by rewrite Hfs0, lookup_insert_ne. }
  rewrite Htarget in Hr, Hq.
  destruct (apply_scripts t fs0 migration_file file_path_ 0 _) as [fs1 r]. simpl in *.
  split; [done|]. apply map_eq. intros q.
  destruct (decide (q = migration_file)) as [->|Hqn].
  - rewrite lookup_delete_eq, lookup_set_content. by case_decide.
  - rewrite lookup_delete_ne, (Hq q Hqn), !lookup_set_content by done.
    case_decide; [done|]. by rewrite Hfs0, lookup_insert_ne.
Qed.

Lemma mkstemp_other (suffix : string) (fs fs0 : FS) (scratch path : string) :
  mkstemp suffix fs = Ok (scratch, fs0) -> is_Some (files fs !! path) ->
  path <> scratch.
Proof.
  intros Hmk Hp ->. apply mkstemp_fresh in Hmk as [Hfresh _].
  rewrite Hfresh in Hp. by destruct Hp.
Qed.

(** X3. Migration scripts are taken to read and to change nothing but the
    file they are given, which is all that [bash] of [Tools] can do. For such
    scripts, when its scratch file can be made, [_apply_migration] on a file
    that exists does what running the scripts of the migrations on the file
    one after the other does, each script on the file as the one before left
    it, up to the first that exits with a code other than 0: it ends as that
    run ends, the file is as that run left it, and no other file differs
    from before; the scratch file is gone, and whatever an earlier, longer
    script left in it was never run. *)
Theorem _apply_migration_runs_the_scripts (t : Tools)
    (upgrades : list TaskBundleUpgrade) (fs fs0 : FS)
    (file_path_ migration_file : string) :
  mkstemp "-migration-file" fs = Ok (migration_file, fs0) ->
  is_Some (files fs !! file_path_) ->
  let done := run_scripts t (files fs !! file_path_) (concat (map migrations upgrades)) in
  let after := _apply_migration t upgrades fs file_path_ in
  snd after = snd done
  /\ files (fst after) = set_content file_path_ (fst done) (files fs).
Proof.
  intros Hmk Hp. apply (_apply_migration_runs t upgrades fs fs0 _ _ Hmk).
  by apply (mkstemp_other _ _ _ _ _ Hmk).
Qed.

Lemma _apply_migration_runs_the_scripts_witness :
  let upgrades := [upgrade_with_scripts ["# a long script"; "# short"]] in
  let done := run_scripts tools_appending (files repository !! ".tekton/pr.yaml")
                (concat (map migrations upgrades)) in
  let after := _apply_migration tools_appending upgrades repository ".tekton/pr.yaml" in
  snd after = snd done
  /\ files (fst after) = set_content ".tekton/pr.yaml" (fst done) (files repository).
Proof.
  apply (_apply_migration_runs_the_scripts tools_appending
           [upgrade_with_scripts ["# a long script"; "# short"]] repository
           (write_file {| files := files repository; next_temp := 1 |}
              "/tmp/tmp0-migration-file" EmptyString)
           ".tekton/pr.yaml" "/tmp/tmp0-migration-file").
  - reflexivity.
  - exists "kind: PipelineRun". reflexivity.
Defined.

Lemma run_scripts_app (t : Tools) (content : option string)
    (pre rest : list TaskBundleMigration) :
  run_scripts t content (pre ++ rest)
  = match run_scripts t content pre with
    | (content', Ok _) => run_scripts t content' rest
    | (content', Raise e) => (content', Raise e)
    end.
Proof.
  revert content. induction pre as [|m ms IH]; intros content; simpl; [done|].
  destruct (bash t (migration_script m) content) as [content' rc].
  destruct (rc =? 0)%Z; [apply IH|done].
Qed.

(** X4. A script that exits with a code other than 0 ends [_apply_migration]:
    it raises [CalledProcessError] with that code, the file is as the
    failing script left it, and the migrations after it, of the same
    upgrade and of the upgrades that follow, are not applied. *)
Theorem _apply_migration_stops_at_failure (t : Tools)
    (upgrades : list TaskBundleUpgrade) (fs fs0 : FS)
    (file_path_ migration_file : string)
    (pre post : list TaskBundleMigration) (migration : TaskBundleMigration)
    (content : option string) :
  mkstemp "-migration-file" fs = Ok (migration_file, fs0) ->
  is_Some (files fs !! file_path_) ->
  concat (map migrations upgrades) = pre ++ migration :: post ->
  run_scripts t (files fs !! file_path_) pre = (content, Ok tt) ->
  snd (bash t (migration_script migration) content) <> 0%Z ->
  let '(content', returncode) := bash t (migration_script migration) content in
  let after := _apply_migration t upgrades fs file_path_ in
  snd after = Raise (CalledProcessError returncode)
  /\ files (fst after) = set_content file_path_ content' (files fs).
Proof.
  intros Hmk Hp Hscripts Hpre Hrc.
  destruct (_apply_migration_runs t upgrades fs fs0 _ _ Hmk
              (mkstemp_other _ _ _ _ _ Hmk Hp)) as [Hr Hfiles].
  rewrite Hscripts, run_scripts_app, Hpre in Hr, Hfiles. simpl in Hr, Hfiles.
  destruct (bash t (migration_script migration) content) as [content' rc].
  simpl in Hrc. apply Z.eqb_neq in Hrc. rewrite Hrc in Hr, Hfiles. done.
Qed.

Lemma _apply_migration_stops_at_failure_witness :
  let upgrades := [upgrade_with_scripts ["# one"; "exit 1"]; upgrade_with_scripts ["# two"]] in
  let after := _apply_migration tools_appending upgrades repository ".tekton/pr.yaml" in
  snd after = Raise (CalledProcessError 1)
  /\ files (fst after)
     = set_content ".tekton/pr.yaml" (Some "kind: PipelineRun# oneexit 1")
         (files repository).
Proof.
  apply (_apply_migration_stops_at_failure tools_appending
           [upgrade_with_scripts ["# one"; "exit 1"]; upgrade_with_scripts ["# two"]]
           repository
           (write_file {| files := files repository; next_temp := 1 |}
              "/tmp/tmp0-migration-file" EmptyString)
           ".tekton/pr.yaml" "/tmp/tmp0-migration-file"
           [ {| task_bundle := "quay.io/konflux-ci/foo:0.2-b@sha256:0b";
                migration_script := "# one" |} ]
           [ {| task_bundle := "quay.io/konflux-ci/foo:0.2-b@sha256:0b";
                migration_script := "# two" |} ]
           {| task_bundle := "quay.io/konflux-ci/foo:0.2-b@sha256:0b";
              migration_script := "exit 1" |}
           (Some "kind: PipelineRun# one")).
  - reflexivity.
  - exists "kind: PipelineRun". reflexivity.
  - reflexivity.
  - reflexivity.
  - vm_compute. discriminate.
Defined.

(** X5. Migration scripts are taken to read and to change nothing but the
    file they are given, which is all that [bash] of [Tools] can do. For such
    scripts, [handle_pipeline_file] on a file that exists, when the scratch
    file of the scripts can be made: a failing script is raised and the file
    is left as that script left it; when the scripts succeed and the checksum
    of the file is what it was before, the file is left as the scripts left
    it, neither loaded nor dumped; when the checksum differs and loading
    raises, that is raised and the file is left as the scripts left it; when
    what was loaded is dumped, the file holds that dump; and when dumping
    raises, that is raised (nothing is said of the files then). The document
    handed in is not looked at and, in the cases where the files are
    described, no other file differs from before. *)
Theorem handle_pipeline_file_rewrites_only_on_change (t : Tools)
    (upgrades : list TaskBundleUpgrade) (fs fs0 : FS)
    (file_path_ migration_file origin : string) (loaded_doc : Yaml) (style : YAMLStyle) :
  mkstemp "-migration-file" fs = Ok (migration_file, fs0) ->
  files fs !! file_path_ = Some origin ->
  let after := handle_pipeline_file t upgrades fs file_path_ loaded_doc style in
  let '(content, r) := run_scripts t (Some origin) (concat (map migrations upgrades)) in
  match r with
  | Raise e =>
      snd after = Raise e
      /\ files (fst after) = set_content file_path_ content (files fs)
  | Ok _ =>
      match content with
      | None =>
          snd after = Raise (OSError ("No such file or directory: " +:+ file_path_))
          /\ files (fst after) = delete file_path_ (files fs)
      | Some text =>
          if String.eqb (checksum t text) (checksum t origin) then
            snd after = Ok tt /\ files (fst after) = <[file_path_ := text]> (files fs)
          else
            match load_yaml_text t text style with
            | Raise e =>
                snd after = Raise e
                /\ files (fst after) = <[file_path_ := text]> (files fs)
            | Ok pl_yaml =>
                match dump_yaml_text t pl_yaml style with
                | Ok text' =>
                    snd after = Ok tt
                    /\ files (fst after) = <[file_path_ := text']> (files fs)
                | Raise e => snd after = Raise e
                end
            end
      end
  end.
Proof.
  intros Hmk Hp.
  assert (Hne : file_path_ <> migration_file).
  { apply (mkstemp_other _ _ _ _ _ Hmk). by rewrite Hp. }
  destruct (_apply_migration_runs t upgrades fs fs0 _ _ Hmk Hne) as [Hr Hfiles].
  rewrite Hp in Hr, Hfiles.
  unfold handle_pipeline_file, file_checksum, read_file. rewrite Hp. simpl.
  destruct (_apply_migration t upgrades fs file_path_) as [fs1 r]. simpl in Hr, Hfiles.
  destruct (run_scripts t (Some origin) _) as [content r']. simpl in Hr, Hfiles.
  subst r. destruct r' as [[]|e]; [|done].
  unfold load_yaml, dump_yaml, read_file. rewrite Hfiles.
  destruct content as [text|]; simpl.
  - rewrite lookup_insert_eq. simpl.
    destruct (String.eqb (checksum t text) (checksum t origin)); [done|].
    destruct (load_yaml_text t text style) as [pl_yaml|e]; simpl; [|by rewrite Hfiles].
    destruct (dump_yaml_text t pl_yaml style) as [text'|e]; simpl; [|done].
    split; [done|]. rewrite Hfiles. simpl. apply insert_insert_eq.
  - rewrite lookup_delete_eq. simpl. by rewrite Hfiles.
Qed.

Lemma handle_pipeline_file_rewrites_only_on_change_witness :
  let after := handle_pipeline_file tools_appending [upgrade_with_scripts ["# one"]]
                 repository ".tekton/pr.yaml" (YScalar "ignored") [] in
  snd after = Ok tt
  /\ files (fst after)
     = <[".tekton/pr.yaml" := "kind: PipelineRun# one"]> (files repository).
Proof.
  apply (handle_pipeline_file_rewrites_only_on_change tools_appending
           [upgrade_with_scripts ["# one"]] repository
           (write_file {| files := files repository; next_temp := 1 |}
              "/tmp/tmp0-migration-file" EmptyString)
           ".tekton/pr.yaml" "/tmp/tmp0-migration-file" "kind: PipelineRun"
           (YScalar "ignored") []).
  - reflexivity.
  - reflexivity.
Defined.

(** ** The migration applier: pipeline runs *)

Lemma assoc_get_set (key key' : string) (v : Yaml) (entries : list (string * Yaml)) :
  assoc_get key' (assoc_set key v entries)
  = if String.eqb key key' then Some v else assoc_get key' entries.
Proof.
  induction entries as [|[k w] rest IH]; simpl.
  - by destruct (String.eqb key key').
  - destruct (String.eqb_spec k key) as [->|Hk]; simpl.
    + by destruct (String.eqb key key').
    + destruct (String.eqb_spec k key') as [->|Hk'].
      * destruct (String.eqb_spec key key'); [congruence|done].
      * apply IH.
Qed.

Lemma getitem_setitem (doc doc' : Yaml) (key key' : string) (v : Yaml) :
  setitem doc key v = Ok doc' ->
  getitem doc' key' = if String.eqb key key' then Ok v else getitem doc key'.
Proof.
  destruct doc as [s|items|entries]; simpl; try done.
  intros [= <-]. simpl. rewrite assoc_get_set. by destruct (String.eqb key key').
Qed.

(** X6. Migration scripts are taken to read and to change nothing but the
    file they are given, which is all that [bash] of [Tools] can do. For such
    scripts, [handle_pipeline_run_file], when every step before the final
    dump succeeds and the scripts change the checksum of the scratch
    pipeline: the scripts are run on the dump of the mapping that holds the
    embedded pipeline under [spec]; the document that is dumped at the end is
    the document handed in with [spec.pipelineSpec] replaced by the [spec] of
    what was loaded from the scratch pipeline, every other key of the
    document and of its [spec] as it was; when that dump succeeds, the
    pipeline-run file holds it, the scratch pipeline stays behind as the
    scripts left it, and no other file differs from before; when it raises,
    that is raised (nothing is said of the files then). *)
Theorem handle_pipeline_run_file_replaces_pipeline_spec (t : Tools)
    (upgrades : list TaskBundleUpgrade) (fs fs0 fs1 : FS)
    (file_path_ temp_pipeline_file migration_file : string)
    (loaded_doc embedded modified modified_spec : Yaml) (style : YAMLStyle)
    (text0 text1 : string) :
  mkstemp "-pipeline" fs = Ok (temp_pipeline_file, fs0) ->
  is_Some (files fs !! file_path_) ->
  embedded_pipeline_spec loaded_doc = Ok embedded ->
  dump_yaml_text t (YMap [("spec", embedded)]) style = Ok text0 ->
  mkstemp "-migration-file" (write_file fs0 temp_pipeline_file text0)
  = Ok (migration_file, fs1) ->
  run_scripts t (Some text0) (concat (map migrations upgrades)) = (Some text1, Ok tt) ->
  checksum t text1 <> checksum t text0 ->
  load_yaml_text t text1 style = Ok modified ->
  getitem modified "spec" = Ok modified_spec ->
  exists doc' spec spec',
    embedded_pipeline_spec doc' = Ok modified_spec
    /\ (forall key, key <> "spec" -> getitem doc' key = getitem loaded_doc key)
    /\ getitem loaded_doc "spec" = Ok spec
    /\ getitem doc' "spec" = Ok spec'
    /\ (forall key, key <> "pipelineSpec" -> getitem spec' key = getitem spec key)
    /\ let after := handle_pipeline_run_file t upgrades fs file_path_ loaded_doc style in
       match dump_yaml_text t doc' style with
       | Ok text' =>
           snd after = Ok tt
           /\ files (fst after)
              = <[file_path_ := text']> (<[temp_pipeline_file := text1]> (files fs))
       | Raise e => snd after = Raise e
       end.
Proof.
  intros Hmk Hp Hembedded Hdump Hmk2 Hrun Hsum Hload Hspec.
  pose proof (mkstemp_fresh _ _ _ _ Hmk) as [Hfresh Hfs0].
  unfold embedded_pipeline_spec in Hembedded.
  destruct (getitem loaded_doc "spec") as [spec|e] eqn:Hs; [|done]. simpl in Hembedded.
  destruct (setitem spec "pipelineSpec" modified_spec) as [spec'|e] eqn:Hset.
  2:{ destruct spec; simpl in *; done. }
  destruct (setitem loaded_doc "spec" spec') as [doc'|e] eqn:Hset'.
  2:{ destruct loaded_doc; simpl in *; done. }
  exists doc', spec, spec'.
  assert (Hs' : getitem doc' "spec" = Ok spec').
  { by rewrite (getitem_setitem _ _ _ _ _ Hset'). }
  split.
  { unfold embedded_pipeline_spec. rewrite Hs'. simpl.
    by rewrite (getitem_setitem _ _ _ _ _ Hset). }
  split.
  { intros key Hkey. rewrite (getitem_setitem _ _ _ _ _ Hset').
    destruct (String.eqb_spec "spec" key); [congruence|done]. }
  split; [done|]. split; [done|]. split.
  { intros key Hkey. rewrite (getitem_setitem _ _ _ _ _ Hset).
    destruct (String.eqb_spec "pipelineSpec" key); [congruence|done]. }
  assert (Hhandle :
    handle_pipeline_run_file t upgrades fs file_path_ loaded_doc style
    = match dump_yaml_text t doc' style with
      | Ok text' =>
          ({| files := <[file_path_ := text']>
                         (<[temp_pipeline_file := text1]> (files fs));
              next_temp := next_temp
                             (fst (_apply_migration t upgrades
                                     (write_file fs0 temp_pipeline_file text0)
                                     temp_pipeline_file)) |}, Ok tt)
      | Raise e =>
          ({| files := <[temp_pipeline_file := text1]> (files fs);
              next_temp := next_temp
                             (fst (_apply_migration t upgrades
                                     (write_file fs0 temp_pipeline_file text0)
                                     temp_pipeline_file)) |}, Raise e)
      end).
  { unfold handle_pipeline_run_file. rewrite Hmk. simpl. rewrite Hs. simpl.
    rewrite Hembedded. simpl. unfold dump_yaml at 1. rewrite Hdump. simpl.
    set (fs' := write_file fs0 temp_pipeline_file text0) in *.
    assert (Htemp : files fs' !! temp_pipeline_file = Some text0).
    { unfold fs'. simpl. by rewrite lookup_insert_eq. }
    unfold file_checksum at 1, read_file. rewrite Htemp. simpl.
    assert (Hne : temp_pipeline_file <> migration_file).
    { apply (mkstemp_other _ _ _ _ _ Hmk2). by rewrite Htemp. }
    destruct (_apply_migration_runs t upgrades fs' fs1 _ _ Hmk2 Hne) as [Hr Hfiles].
    rewrite Htemp, Hrun in Hr, Hfiles. simpl in Hr, Hfiles.
    destruct (_apply_migration t upgrades fs' temp_pipeline_file) as [fs2 r].
    simpl in Hr, Hfiles. subst r.
    assert (Htemp2 : files fs2 !! temp_pipeline_file = Some text1).
    { by rewrite Hfiles, lookup_insert_eq. }
    unfold file_checksum, load_yaml, read_file. rewrite Htemp2. simpl.
    destruct (String.eqb_spec (checksum t text1) (checksum t text0)) as [Heq|_]; [done|].
    rewrite Hload. simpl. rewrite Hspec. simpl. rewrite Hset. simpl. rewrite Hset'. simpl.
    assert (Hfiles2 : files fs2 = <[temp_pipeline_file := text1]> (files fs)).
    { rewrite Hfiles. unfold fs'. simpl. rewrite Hfs0. by rewrite !insert_insert_eq. }
    unfold dump_yaml, write_file.
    destruct (dump_yaml_text t doc' style) as [text'|e]; simpl.
    - by rewrite Hfiles2.
    - rewrite <- Hfiles2. by destruct fs2. }
  simpl. rewrite Hhandle. by destruct (dump_yaml_text t doc' style).
Qed.

Lemma handle_pipeline_run_file_replaces_pipeline_spec_witness :
  exists doc' spec spec',
    embedded_pipeline_spec doc' = Ok (YScalar "tasks: []# one")
    /\ (forall key, key <> "spec" -> getitem doc' key = getitem named_pipeline_run key)
    /\ getitem named_pipeline_run "spec" = Ok spec
    /\ getitem doc' "spec" = Ok spec'
    /\ (forall key, key <> "pipelineSpec" -> getitem spec' key = getitem spec key)
    /\ let after := handle_pipeline_run_file tools_appending
                      [upgrade_with_scripts ["# one"]] repository ".tekton/pr.yaml"
                      named_pipeline_run [] in
       match dump_yaml_text tools_appending doc' [] with
       | Ok text' =>
           snd after = Ok tt
           /\ files (fst after)
              = <[".tekton/pr.yaml" := text']>
                  (<["/tmp/tmp0-pipeline" := "tasks: []# one"]> (files repository))
       | Raise e => snd after = Raise e
       end.
Proof.
  apply (handle_pipeline_run_file_replaces_pipeline_spec tools_appending
           [upgrade_with_scripts ["# one"]] repository
           (write_file {| files := files repository; next_temp := 1 |}
              "/tmp/tmp0-pipeline" EmptyString)
           (write_file
              {| files := <["/tmp/tmp0-pipeline" := "tasks: []"]>
                            (<["/tmp/tmp0-pipeline" := EmptyString]> (files repository));
                 next_temp := 2 |}
              "/tmp/tmp1-migration-file" EmptyString)
           ".tekton/pr.yaml" "/tmp/tmp0-pipeline" "/tmp/tmp1-migration-file"
           named_pipeline_run (YScalar "tasks: []")
           (YMap [("spec", YScalar "tasks: []# one")]) (YScalar "tasks: []# one") []
           "tasks: []" "tasks: []# one").
  - reflexivity.
  - exists "kind: PipelineRun". reflexivity.
  - reflexivity.
  - reflexivity.
  - reflexivity.
  - reflexivity.
  - vm_compute. discriminate.
  - reflexivity.
  - reflexivity.
Defined.

(** X7. A pipeline-run document that is a mapping without [spec], or whose
    [spec] is a mapping without [pipelineSpec], makes
    [handle_pipeline_run_file] raise [KeyError] for the missing key: no
    script is run and no file is changed, but the scratch pipeline file has
    already been made, and stays behind, empty. *)
Theorem handle_pipeline_run_file_missing_key (t : Tools)
    (upgrades : list TaskBundleUpgrade) (fs fs0 : FS)
    (file_path_ temp_pipeline_file : string)
    (entries : list (string * Yaml)) (style : YAMLStyle) :
  mkstemp "-pipeline" fs = Ok (temp_pipeline_file, fs0) ->
  let after := handle_pipeline_run_file t upgrades fs file_path_ (YMap entries) style in
  files fs !! temp_pipeline_file = None
  /\ match assoc_get "spec" entries with
     | None =>
         snd after = Raise (KeyError "spec")
         /\ files (fst after) = <[temp_pipeline_file := EmptyString]> (files fs)
     | Some (YMap spec) =>
         assoc_get "pipelineSpec" spec = None ->
         snd after = Raise (KeyError "pipelineSpec")
         /\ files (fst after) = <[temp_pipeline_file := EmptyString]> (files fs)
     | Some _ => True
     end.
Proof.
  intros Hmk. pose proof (mkstemp_fresh _ _ _ _ Hmk) as [Hfresh Hfs0].
  split; [done|]. unfold handle_pipeline_run_file. rewrite Hmk. simpl.
  destruct (assoc_get "spec" entries) as [[s|items|spec]|]; simpl; try done.
  intros ->. simpl. done.
Qed.

Lemma handle_pipeline_run_file_missing_key_witness :
  let after := handle_pipeline_run_file tools_appending [upgrade_with_scripts ["# one"]]
                 repository ".tekton/pr.yaml"
                 (YMap [("kind", YScalar "PipelineRun"); ("spec", YMap [])]) [] in
  files repository !! "/tmp/tmp0-pipeline" = None
  /\ (assoc_get "pipelineSpec" [] = None ->
      snd after = Raise (KeyError "pipelineSpec")
      /\ files (fst after) = <["/tmp/tmp0-pipeline" := EmptyString]> (files repository)).
Proof.
  apply (handle_pipeline_run_file_missing_key tools_appending
           [upgrade_with_scripts ["# one"]] repository
           (write_file {| files := files repository; next_temp := 1 |}
              "/tmp/tmp0-pipeline" EmptyString)
           ".tekton/pr.yaml" "/tmp/tmp0-pipeline"
           [("kind", YScalar "PipelineRun"); ("spec", YMap [])] []).
  reflexivity.
Defined.

(** ** The order of versions *)

Lemma tuple_compare_refl (a : list N) : tuple_compare a a = Eq.
Proof. induction a as [|x a IH]; simpl; [done|]. by rewrite N.compare_refl. Qed.

Lemma tuple_compare_antisym (a b : list N) :
  tuple_compare b a = CompOpp (tuple_compare a b).
Proof.
  revert b. induction a as [|x a IH]; intros [|y b]; simpl; try done.
  rewrite (N.compare_antisym x y). destruct (x ?= y)%N; simpl; [apply IH|done|done].
Qed.

Lemma tuple_compare_trans (a b c : list N) :
  tuple_compare a b <> Lt -> tuple_compare b c <> Lt -> tuple_compare a c <> Lt.
Proof.
  revert b c. induction a as [|x a IH]; intros [|y b] [|z c]; simpl; try done.
  destruct (N.compare_spec x y) as [->|Hxy|Hxy]; [|done|].
  - destruct (N.compare_spec y z) as [->|Hyz|Hyz]; [apply IH|done|done].
  - destruct (N.compare_spec y z) as [->|Hyz|Hyz]; [|done|].
    + intros _ _. destruct (N.compare_spec x z); [lia|lia|done].
    + intros _ _. destruct (N.compare_spec x z); [lia|lia|done].
Qed.

Lemma Version_ge_refl (v : Version) : Version_ge v v = true.
Proof. unfold Version_ge, Version_lt, Version_compare. by rewrite tuple_compare_refl. Qed.

Lemma Version_ge_trans (u v w : Version) :
  Version_ge u v = true -> Version_ge v w = true -> Version_ge u w = true.
Proof.
  unfold Version_ge, Version_lt, Version_compare. intros H1 H2.
  pose proof (tuple_compare_trans (cmpkey u) (cmpkey v) (cmpkey w)) as H.
  destruct (tuple_compare (cmpkey u) (cmpkey v)); try done;
    destruct (tuple_compare (cmpkey v) (cmpkey w)); try done;
    destruct (tuple_compare (cmpkey u) (cmpkey w)); try done; by exfalso; apply H.
Qed.

Lemma Version_ge_total (v w : Version) :
  Version_ge v w = false -> Version_ge w v = true.
Proof.
  unfold Version_ge, Version_lt, Version_compare.
  rewrite (tuple_compare_antisym (cmpkey v) (cmpkey w)).
  by destruct (tuple_compare (cmpkey v) (cmpkey w)).
Qed.

(** ** The pruning, tag by tag *)

Lemma forallb_Version_ge (v : Version) (seen : list Version) :
  forallb (Version_ge v) seen = true <-> forall w, w ∈ seen -> Version_ge v w = true.
Proof.
  rewrite forallb_forall. split; intros H w Hw; apply H; by apply list_elem_of_In.
Qed.

(** The test of the watermark is the test against every version seen. *)
Lemma highest_of_test (highest : option Version) (seen : list Version) (v : Version) :
  highest_of highest seen ->
  match highest with None => true | Some h => Version_ge v h end
  = forallb (Version_ge v) seen.
Proof.
  destruct highest as [h|]; simpl.
  - intros [Hin Hmax]. destruct (Version_ge v h) eqn:Hv; symmetry.
    + apply forallb_Version_ge. intros w Hw. apply (Version_ge_trans _ h); auto.
    + apply not_true_is_false. intros H. rewrite forallb_Version_ge in H.
      specialize (H h Hin). congruence.
  - by intros ->.
Qed.

Lemma highest_of_step (highest : option Version) (seen : list Version) (v : Version) :
  highest_of highest seen ->
  highest_of (if forallb (Version_ge v) seen then Some v else highest) (v :: seen).
Proof.
  intros H. destruct (forallb (Version_ge v) seen) eqn:Hv.
  - split; [by left|]. intros w [->|Hw]%elem_of_cons; [apply Version_ge_refl|].
    by apply (proj1 (forallb_Version_ge v seen) Hv).
  - destruct highest as [h|]; simpl in *; [|by subst seen].
    destruct H as [Hin Hmax]. split; [by right|].
    intros w [->|Hw]%elem_of_cons; [|by apply Hmax].
    apply Version_ge_total. apply not_true_is_false. intros Hvh.
    assert (forallb (Version_ge v) seen = true); [|congruence].
    apply forallb_Version_ge. intros u Hu. apply (Version_ge_trans _ h); auto.
Qed.

Lemma prune_by_watermark_keep_from (highest : option Version) (seen : list Version)
    (tags : list (TagInfo * Version)) :
  highest_of highest seen -> prune_by_watermark highest tags = keep_from seen tags.
Proof.
  revert highest seen. induction tags as [|[t v] rest IH]; intros highest seen H; simpl;
    [done|].
  rewrite (highest_of_test highest seen v H).
  pose proof (highest_of_step highest seen v H) as Hstep.
  destruct (forallb (Version_ge v) seen); [f_equal|]; by apply IH.
Qed.

Lemma keep_from_snoc (seen : list Version) (tags : list (TagInfo * Version))
    (t : TagInfo) (v : Version) :
  keep_from seen (tags ++ [(t, v)])
  = keep_from seen tags
    ++ (if forallb (Version_ge v) (rev (map snd tags) ++ seen) then [t] else []).
Proof.
  revert seen. induction tags as [|[t0 v0] rest IH]; intros seen; simpl.
  - by destruct (forallb (Version_ge v) seen).
  - rewrite IH, <- app_assoc. simpl.
    by destruct (forallb (Version_ge v0) seen).
Qed.

Lemma forallb_map_snd (v : Version) (others : list (TagInfo * Version)) :
  forallb (Version_ge v) (map snd others) = dominates v others.
Proof. unfold dominates. induction others as [|o os IH]; simpl; [done|]. by rewrite IH. Qed.

Lemma keep_from_rev (tags : list (TagInfo * Version)) :
  keep_from [] (rev tags) = rev (survivors tags).
Proof.
  induction tags as [|[t v] older IH]; simpl; [done|].
  rewrite keep_from_snoc, IH, app_nil_r, map_rev, rev_involutive, forallb_map_snd.
  destruct (dominates v older); simpl; [done|by rewrite app_nil_r].
Qed.

Lemma mapM_app {A B : Type} (f : A -> result B) (l1 l2 : list A) :
  mapM f (l1 ++ l2)
  = let* r1 := mapM f l1 in let* r2 := mapM f l2 in Ok (r1 ++ r2).
Proof.
  induction l1 as [|a l1 IH]; simpl.
  - by destruct (mapM f l2).
  - destruct (f a); simpl; [|done]. rewrite IH.
    destruct (mapM f l1); simpl; [|done]. by destruct (mapM f l2).
Qed.

Lemma with_versions_rev (tags_info : list TagInfo) (tags : list (TagInfo * Version)) :
  with_versions tags_info = Ok tags -> with_versions (rev tags_info) = Ok (rev tags).
Proof.
  unfold with_versions. revert tags.
  induction tags_info as [|t l IH]; intros tags; simpl.
  - by intros [= <-].
  - destruct (_parse_version (name t)) as [v|] eqn:Hv; simpl; [|done].
    destruct (mapM _ l) as [r|] eqn:Hr; simpl; [|done]. intros [= <-].
    rewrite mapM_app, (IH r eq_refl). simpl. by rewrite Hv.
Qed.

Lemma with_versions_fst (tags_info : list TagInfo) (tags : list (TagInfo * Version)) :
  with_versions tags_info = Ok tags -> map fst tags = tags_info.
Proof.
  unfold with_versions. revert tags.
  induction tags_info as [|t l IH]; intros tags; simpl.
  - by intros [= <-].
  - destruct (_parse_version (name t)) as [v|]; simpl; [|done].
    destruct (mapM _ l) as [r|] eqn:Hr; simpl; [|done]. intros [= <-].
    simpl. by rewrite (IH r eq_refl).
Qed.

Lemma survivors_sublist (tags : list (TagInfo * Version)) :
  sublist (survivors tags) (map fst tags).
Proof.
  induction tags as [|[t v] older IH]; simpl; [constructor|].
  destruct (dominates v older); by constructor.
Qed.

(** A list strictly newest first, reversed, is sorted back. *)
Lemma insert_desc_oldest (x : TagInfo) (l : list TagInfo) :
  Forall (fun y => newer y x) l -> insert_desc x l = l ++ [x].
Proof.
  induction 1 as [|y l Hy _ IH]; simpl; [done|].
  unfold newer in Hy. destruct (Z.leb_spec (start_ts y) (start_ts x)); [lia|].
  by rewrite IH.
Qed.

Lemma sorted_desc_rev (l : list TagInfo) :
  StronglySorted newer l -> sorted_desc (rev l) = l.
Proof.
  induction l as [|x l IH] using rev_ind; [done|].
  intros H. rewrite rev_app_distr. simpl.
  assert (Hl : StronglySorted newer l /\ Forall (fun y => newer y x) l).
  { clear IH. induction l as [|y l IH]; simpl in *; [by split; constructor|].
    apply StronglySorted_inv in H as [H Hy].
    destruct (IH H) as [Hs Hx]. split.
    - constructor; [done|]. rewrite Forall_app in Hy. tauto.
    - constructor; [|done]. rewrite Forall_app, Forall_singleton in Hy. tauto. }
  destruct Hl as [Hs Hx]. rewrite (IH Hs). by apply insert_desc_oldest.
Qed.

Lemma StronglySorted_sublist {A : Type} (R : A -> A -> Prop) (l1 l2 : list A) :
  sublist l1 l2 -> StronglySorted R l2 -> StronglySorted R l1.
Proof.
  induction 1 as [|x l1 l2 Hsub IH|x l1 l2 Hsub IH]; intros H; [done| |].
  - apply StronglySorted_inv in H as [H Hx]. constructor; [by apply IH|].
    rewrite Forall_forall in Hx |- *. intros y Hy. apply Hx.
    by apply (sublist_subseteq _ _ Hsub).
  - apply StronglySorted_inv in H as [H _]. by apply IH.
Qed.

Lemma with_versions_parses (tags_info : list TagInfo) (tags : list (TagInfo * Version)) :
  with_versions tags_info = Ok tags -> Forall parses tags_info.
Proof.
  unfold with_versions. revert tags.
  induction tags_info as [|t l IH]; intros tags; simpl; [constructor|].
  destruct (_parse_version (name t)) as [v|] eqn:Hv; simpl; [|done].
  destruct (mapM _ l) as [r|] eqn:Hr; simpl; [|done]. intros _.
  constructor; [by exists v|]. by apply (IH r).
Qed.

Lemma with_versions_raises (tags_info : list TagInfo) (e : exn) :
  with_versions tags_info = Raise e ->
  exists t, t ∈ tags_info /\ _parse_version (name t) = Raise e
            /\ e = InvalidVersion (hd EmptyString (split_on "-" (name t))).
Proof.
  unfold with_versions.
  induction tags_info as [|t l IH]; simpl; [done|].
  destruct (_parse_version (name t)) as [v|e'] eqn:Hv; simpl.
  - destruct (mapM _ l) as [r|e'] eqn:Hr; simpl; [done|]. intros [= <-].
    destruct (IH eq_refl) as (t' & Hin & He). exists t'. split; [by right|done].
  - intros [= <-]. exists t. split; [by left|]. split; [done|].
    unfold _parse_version, parse_version in Hv.
    destruct (all_some _); [done|]. by injection Hv as <-.
Qed.

(** X8. What [drop_out_of_order_versions] keeps of tags whose names all have
    a version: the tags that no tag after them in the list, the older ones,
    exceeds in version, sorted newest first again; when the tags are given
    strictly newest first, these are in the order they were given in. *)
Theorem drop_out_of_order_versions_survivors (tags_info : list TagInfo)
    (bundle_upgrade : TaskBundleUpgrade) (tags : list (TagInfo * Version)) :
  with_versions tags_info = Ok tags ->
  exists kept current new out_of_order,
    drop_out_of_order_versions tags_info bundle_upgrade
    = Ok (kept, current, new, out_of_order)
    /\ kept = sorted_desc (rev (survivors tags))
    /\ (StronglySorted newer tags_info -> kept = survivors tags).
Proof.
  intros Htags.
  pose proof (drop_out_of_order_versions_refines tags_info bundle_upgrade) as H.
  rewrite (with_versions_rev _ _ Htags) in H.
  destruct H as (current & new & out_of_order & H).
  exists (sorted_desc (rev (survivors tags))), current, new, out_of_order.
  split.
  { rewrite H. by rewrite (prune_by_watermark_keep_from None [] _ eq_refl), keep_from_rev. }
  split; [done|]. intros Hsorted. apply sorted_desc_rev.
  apply (StronglySorted_sublist _ _ tags_info); [|done].
  rewrite <- (with_versions_fst _ _ Htags). apply survivors_sublist.
Qed.

(** X9. [drop_out_of_order_versions] returns when the name of every tag has
    a version, and only then: a tag whose name has none makes it raise
    [InvalidVersion], whatever the digests of the upgrade. *)
Theorem drop_out_of_order_versions_returns_iff (tags_info : list TagInfo)
    (bundle_upgrade : TaskBundleUpgrade) :
  match drop_out_of_order_versions tags_info bundle_upgrade with
  | Ok _ => Forall parses tags_info
  | Raise e =>
      exists t, t ∈ tags_info /\ ~ parses t
                /\ e = InvalidVersion (hd EmptyString (split_on "-" (name t)))
  end.
Proof.
  pose proof (drop_out_of_order_versions_refines tags_info bundle_upgrade) as H.
  destruct (with_versions (rev tags_info)) as [tags|e] eqn:Htags.
  - destruct H as (current & new & out_of_order & ->).
    apply with_versions_parses in Htags.
    rewrite Forall_forall in Htags |- *. intros t Ht. apply Htags.
    by rewrite rev_reverse, elem_of_reverse.
  - rewrite H. destruct (with_versions_raises _ _ Htags) as (t & Hin & Hraise & He).
    exists t. rewrite rev_reverse, elem_of_reverse in Hin.
    split; [done|]. split; [|done]. intros [v Hv]. congruence.
Qed.

Lemma drop_out_of_order_versions_survivors_witness :
  exists kept current new out_of_order,
    drop_out_of_order_versions example_listing example_upgrade
    = Ok (kept, current, new, out_of_order)
    /\ kept = sorted_desc (rev (survivors example_parsed))
    /\ (StronglySorted newer example_listing -> kept = survivors example_parsed).
Proof.
  apply (drop_out_of_order_versions_survivors example_listing example_upgrade
           example_parsed).
  reflexivity.
Defined.

(** ** The pruning loop: the tags it records *)

Lemma foldM_app {A S : Type} (f : S -> A -> result S) (st : S) (l1 l2 : list A) :
  foldM f st (l1 ++ l2) = let* st1 := foldM f st l1 in foldM f st1 l2.
Proof.
  revert st. induction l1 as [|a l1 IH]; intros st; simpl; [done|].
  destruct (f st a); simpl; [apply IH|done].
Qed.

(** One turn of the loop, field by field. *)
Lemma drop_step_fields (up : TaskBundleUpgrade) (st : DropState) (t : TagInfo)
    (v : Version) :
  _parse_version (name t) = Ok v ->
  let is_current := bool_decide (current_tag_info st = None)
                    && String.eqb (manifest_digest t) (current_digest up) in
  let is_new := bool_decide (new_tag_info st = None)
                && String.eqb (manifest_digest t) (new_digest up) in
  drop_step up st t
  = Ok {| tags_that_follow_correct_version_order :=
            if keeps st v then tags_that_follow_correct_version_order st ++ [t]
            else tags_that_follow_correct_version_order st;
          highest_version_so_far :=
            if keeps st v then Some v else highest_version_so_far st;
          is_out_of_order :=
            if is_current then negb (keeps st v) || is_out_of_order st
            else is_out_of_order st;
          current_tag_info := if is_current then Some t else current_tag_info st;
          new_tag_info :=
            if is_current then new_tag_info st
            else if is_new then Some t else new_tag_info st |}.
Proof.
  intros Hv. simpl. unfold drop_step, record_tag, keep_tag, keeps.
  destruct st as [kept highest ooo current new]. simpl.
  destruct (bool_decide (current = None) && _); simpl.
  - destruct highest as [h|]; simpl; rewrite ?Hv; simpl; [|done].
    unfold Version_ge. by destruct (Version_lt v h).
  - destruct (bool_decide (new = None) && _); simpl; rewrite Hv; simpl.
    + by destruct highest as [h|]; [destruct (Version_ge v h)|].
    + by destruct highest as [h|]; [destruct (Version_ge v h)|].
Qed.

Lemma drop_step_parses (up : TaskBundleUpgrade) (st st' : DropState) (t : TagInfo) :
  drop_step up st t = Ok st' -> exists v, _parse_version (name t) = Ok v.
Proof.
  intros H. destruct (_parse_version (name t)) as [v|e] eqn:Hv; [by exists v|].
  by rewrite (drop_step_raise up st t e Hv) in H.
Qed.

Lemma foldM_drop_records (up : TaskBundleUpgrade) (l : list TagInfo) (st st' : DropState) :
  foldM (drop_step up) st l = Ok st' ->
  current_tag_info st'
  = match current_tag_info st with
    | Some current => Some current
    | None => first_with_digest (current_digest up) l
    end
  /\ (current_digest up <> new_digest up ->
      new_tag_info st'
      = match new_tag_info st with
        | Some new => Some new
        | None => first_with_digest (new_digest up) l
        end)
  /\ (current_tag_info st <> None
      \/ (forall t, t ∈ l -> manifest_digest t <> current_digest up) ->
      is_out_of_order st' = is_out_of_order st).
Proof.
  revert st. induction l as [|t l IH]; intros st H; simpl in H.
  - injection H as <-. split; [by destruct (current_tag_info st)|].
    split; [by destruct (new_tag_info st)|done].
  - destruct (drop_step up st t) as [st1|e] eqn:Hstep; [|done]. simpl in H.
    destruct (drop_step_parses _ _ _ _ Hstep) as [v Hv].
    rewrite (drop_step_fields up st t v Hv) in Hstep. injection Hstep as <-.
    destruct (IH _ H) as (Hcurrent & Hnew & Hooo). clear IH H. simpl in *.
    unfold first_with_digest. simpl.
    destruct (current_tag_info st) as [current|] eqn:Hc; simpl in *.
    + split; [done|]. split.
      * intros Hne. rewrite (Hnew Hne).
        destruct (new_tag_info st) as [new|]; simpl; [done|].
        by destruct (String.eqb (manifest_digest t) (new_digest up)).
      * intros _. apply Hooo. by left.
    + destruct (String.eqb_spec (manifest_digest t) (current_digest up)) as [Heq|Hneq];
        simpl in *.
      * split; [done|]. split.
        -- intros Hne. rewrite (Hnew Hne).
           destruct (new_tag_info st) as [new|]; [done|].
           destruct (String.eqb_spec (manifest_digest t) (new_digest up)); [congruence|done].
        -- intros [?|Hall]; [done|]. exfalso. apply (Hall t); [by left|done].
      * split; [done|]. split.
        -- intros Hne. rewrite (Hnew Hne).
           destruct (new_tag_info st) as [new|]; simpl; [done|].
           by destruct (String.eqb (manifest_digest t) (new_digest up)).
        -- intros [?|Hall]; [done|]. apply Hooo. right.
           intros t' Ht'. apply Hall. by right.
Qed.

(** X10. The tags [drop_out_of_order_versions] records: as the current tag,
    the last tag of the list, the oldest, that carries the current digest;
    and when the two digests of the upgrade differ, as the new tag, the
    last tag of the list that carries the new digest; none where there is
    no such tag. *)
Theorem drop_out_of_order_versions_records_oldest (tags_info : list TagInfo)
    (bundle_upgrade : TaskBundleUpgrade) :
  match drop_out_of_order_versions tags_info bundle_upgrade with
  | Ok (_, current, new, _) =>
      current = first_with_digest (current_digest bundle_upgrade) (rev tags_info)
      /\ (current_digest bundle_upgrade <> new_digest bundle_upgrade ->
          new = first_with_digest (new_digest bundle_upgrade) (rev tags_info))
  | Raise _ => ~ Forall parses tags_info
  end.
Proof.
  unfold drop_out_of_order_versions, drop_loop.
  destruct (foldM (drop_step bundle_upgrade) drop_init (rev tags_info)) as [st|e] eqn:H;
    simpl.
  - destruct (foldM_drop_records _ _ _ _ H) as (Hcurrent & Hnew & _). done.
  - intros Hall. destruct (drop_loop_total bundle_upgrade tags_info Hall) as [st Hst].
    unfold drop_loop in Hst. congruence.
Qed.

Lemma foldM_drop_highest (up : TaskBundleUpgrade) (l : list TagInfo)
    (tags : list (TagInfo * Version)) (st st' : DropState) (seen : list Version) :
  with_versions l = Ok tags ->
  foldM (drop_step up) st l = Ok st' ->
  highest_of (highest_version_so_far st) seen ->
  highest_of (highest_version_so_far st') (rev (map snd tags) ++ seen).
Proof.
  revert tags st seen. induction l as [|t l IH]; intros tags st seen Htags H Hseen.
  - injection Htags as <-. by injection H as <-.
  - rewrite with_versions_cons in Htags.
    destruct (_parse_version (name t)) as [v|] eqn:Hv; [|done]. simpl in Htags.
    destruct (with_versions l) as [rest|] eqn:Hrest; [|done]. injection Htags as <-.
    simpl in H. rewrite (drop_step_fields up st t v Hv) in H. simpl in H.
    simpl. rewrite <- app_assoc. simpl.
    apply (IH rest _ (v :: seen) eq_refl H). simpl. unfold keeps.
    rewrite (highest_of_test _ seen v Hseen). by apply highest_of_step.
Qed.

(** X11. With the current tag, the last tag of the list that carries the
    current digest, the flag [drop_out_of_order_versions] returns says
    whether a tag after it in the list, an older one, exceeds it in
    version. *)
Theorem drop_out_of_order_versions_out_of_order (newer_tags older_tags : list TagInfo)
    (t : TagInfo) (bundle_upgrade : TaskBundleUpgrade) (v : Version)
    (older : list (TagInfo * Version)) :
  manifest_digest t = current_digest bundle_upgrade ->
  (forall t', t' ∈ older_tags -> manifest_digest t' <> current_digest bundle_upgrade) ->
  _parse_version (name t) = Ok v ->
  with_versions older_tags = Ok older ->
  Forall parses newer_tags ->
  exists kept new,
    drop_out_of_order_versions (newer_tags ++ t :: older_tags) bundle_upgrade
    = Ok (kept, Some t, new, negb (dominates v older)).
Proof.
  intros Hdigest Holder Hv Hparsed Hnewer.
  unfold drop_out_of_order_versions, drop_loop.
  rewrite rev_app_distr. simpl. rewrite <- app_assoc. simpl. rewrite foldM_app.
  apply with_versions_rev in Hparsed.
  pose proof (drop_loop_from bundle_upgrade (rev older_tags) drop_init) as H1.
  rewrite Hparsed in H1. destruct H1 as (st1 & H1 & _). rewrite H1. simpl.
  destruct (foldM_drop_records _ _ _ _ H1) as (Hcurrent & _ & Hooo). simpl in *.
  assert (Hnone : first_with_digest (current_digest bundle_upgrade) (rev older_tags) = None).
  { unfold first_with_digest.
    destruct (List.find _ (rev older_tags)) as [t'|] eqn:Hfind; [|done].
    apply find_some in Hfind as [Hin Heq]. apply String.eqb_eq in Heq.
    exfalso. apply (Holder t'); [|done].
    apply list_elem_of_In. by apply in_rev. }
  rewrite Hnone in Hcurrent.
  assert (Hooo1 : is_out_of_order st1 = false).
  { apply Hooo. right. intros t' Ht'. apply Holder. apply list_elem_of_In, in_rev.
    by apply list_elem_of_In. }
  pose proof (foldM_drop_highest _ _ _ _ _ [] Hparsed H1 eq_refl) as Hhighest.
  rewrite app_nil_r, map_rev, rev_involutive in Hhighest.
  rewrite (drop_step_fields bundle_upgrade st1 t v Hv). simpl.
  rewrite Hcurrent, Hooo1, Hdigest, String.eqb_refl. simpl.
  unfold keeps at 3. rewrite (highest_of_test _ _ v Hhighest), forallb_map_snd.
  match goal with |- context [foldM _ ?st (rev newer_tags)] => set (st2 := st) end.
  assert (Hrev : Forall parses (rev newer_tags)).
  { rewrite Forall_forall in Hnewer |- *. intros t' Ht'. apply Hnewer.
    apply list_elem_of_In, in_rev. by apply list_elem_of_In. }
  destruct (with_versions_total _ Hrev) as [tags Htags].
  pose proof (drop_loop_from bundle_upgrade (rev newer_tags) st2) as H2.
  rewrite Htags in H2. destruct H2 as (st3 & H2 & _). rewrite H2. simpl.
  destruct (foldM_drop_records _ _ _ _ H2) as (Hcurrent3 & _ & Hooo3).
  rewrite Hcurrent3, Hooo3 by (by left). simpl. rewrite orb_false_r. by eexists _, _.
Qed.

Lemma drop_out_of_order_versions_out_of_order_witness :
  let tag name_ digest_ ts :=
    {| name := name_; manifest_digest := digest_; start_ts := ts |} in
  exists kept new,
    drop_out_of_order_versions
      ([tag "0.3-b" "sha256:06" 6%Z; tag "0.2-b" "sha256:05" 5%Z;
        tag "0.3-a" "sha256:04" 4%Z]
       ++ tag "0.1-b" "sha256:03" 3%Z
       :: [tag "0.2-a" "sha256:02" 2%Z; tag "0.1-a" "sha256:01" 1%Z])
      example_upgrade
    = Ok (kept, Some (tag "0.1-b" "sha256:03" 3%Z), new,
          negb (dominates {| release := [0%N; 1%N] |}
                  [(tag "0.2-a" "sha256:02" 2%Z, {| release := [0%N; 2%N] |});
                   (tag "0.1-a" "sha256:01" 1%Z, {| release := [0%N; 1%N] |})])).
Proof.
  intros tag.
  apply (drop_out_of_order_versions_out_of_order
           [tag "0.3-b" "sha256:06" 6%Z; tag "0.2-b" "sha256:05" 5%Z;
            tag "0.3-a" "sha256:04" 4%Z]
           [tag "0.2-a" "sha256:02" 2%Z; tag "0.1-a" "sha256:01" 1%Z]
           (tag "0.1-b" "sha256:03" 3%Z) example_upgrade).
  - reflexivity.
  - intros t' Ht'. rewrite !elem_of_cons, elem_of_nil in Ht'.
    destruct Ht' as [->|[->|[]]]; discriminate.
  - reflexivity.
  - reflexivity.
  - repeat (constructor; [eexists; reflexivity|]). constructor.
Defined.

(** ** Tag names *)

Lemma append_cons (c : ascii) (a b : string) : String c a +:+ b = String c (a +:+ b).
Proof. reflexivity. Qed.

Lemma append_nil (b : string) : EmptyString +:+ b = b.
Proof. reflexivity. Qed.

Lemma match_revision_spec (seen : bool) (s : string) :
  match_revision seen s = true
  <-> exists revision,
        all_chars is_lower_hex revision = true
        /\ (seen = true \/ revision <> EmptyString)
        /\ (s = revision \/ s = revision +:+ newline).
Proof.
  revert seen. induction s as [|c r IH]; intros seen; simpl.
  - split.
    + intros ->. exists EmptyString. repeat split; by left.
    + intros (revision & _ & Hseen & [<-|Hs]); [by destruct Hseen|].
      by destruct revision.
  - destruct (is_lower_hex c) eqn:Hc.
    + rewrite IH. split.
      * intros (revision & Hhex & _ & Hs). exists (String c revision). simpl.
        rewrite Hc, Hhex. split; [done|]. split; [by right|].
        rewrite append_cons. destruct Hs as [->| ->]; [by left|by right].
      * intros (revision & Hhex & _ & Hs). destruct revision as [|c' revision].
        { destruct Hs as [Hs|Hs]; [done|]. injection Hs as -> _. done. }
        simpl in Hhex. apply andb_true_iff in Hhex as [_ Hhex].
        exists revision. split; [done|]. split; [by left|].
        rewrite append_cons in Hs. destruct Hs as [Hs|Hs]; injection Hs as _ ->; [by left|by right].
    + split.
      * intros H. apply andb_true_iff in H as [H Hr]. apply andb_true_iff in H as [-> Hnl].
        apply Ascii.eqb_eq in Hnl as ->. apply String.eqb_eq in Hr as ->.
        exists EmptyString. repeat split; [by left|by right].
      * intros (revision & Hhex & Hseen & Hs). destruct revision as [|c' revision].
        -- destruct Hs as [Hs|Hs]; [done|]. injection Hs as -> ->.
           destruct Hseen as [->|?]; done.
        -- simpl in Hhex. apply andb_true_iff in Hhex as [Hc' _].
           rewrite append_cons in Hs. destruct Hs as [Hs|Hs]; injection Hs as -> _; congruence.
Qed.

Lemma match_task_tag_spec (seen : bool) (s : string) :
  match_task_tag seen s = true
  <-> exists version revision,
        all_chars is_version_char version = true
        /\ (seen = true \/ version <> EmptyString)
        /\ revision <> EmptyString /\ all_chars is_lower_hex revision = true
        /\ (s = version +:+ "-" +:+ revision
            \/ s = version +:+ "-" +:+ revision +:+ newline).
Proof.
  revert seen. induction s as [|c r IH]; intros seen; simpl.
  - split; [done|]. intros (version & revision & _ & _ & _ & _ & [Hs|Hs]);
      by destruct version.
  - fold (is_version_char c). destruct (is_version_char c) eqn:Hc.
    + rewrite IH. split.
      * intros (version & revision & Hv & _ & Hr & Hhex & Hs).
        exists (String c version), revision. simpl. rewrite Hc, Hv.
        split; [done|]. split; [by right|]. split; [done|]. split; [done|].
        rewrite !append_cons. destruct Hs as [->| ->]; [by left|by right].
      * intros (version & revision & Hv & _ & Hr & Hhex & Hs).
        destruct version as [|c' version].
        { rewrite !append_nil, !append_cons in Hs.
          destruct Hs as [Hs|Hs]; injection Hs as -> _; done. }
        simpl in Hv. apply andb_true_iff in Hv as [_ Hv].
        exists version, revision. split; [done|]. split; [by left|].
        split; [done|]. split; [done|].
        rewrite !append_cons in Hs. destruct Hs as [Hs|Hs]; injection Hs as _ ->; [by left|by right].
    + destruct (Ascii.eqb_spec c "-") as [->|Hdash].
      * rewrite andb_true_iff, match_revision_spec. split.
        -- intros [-> (revision & Hhex & [?|Hr] & Hs)]; [done|].
           exists EmptyString, revision. rewrite !append_nil, !append_cons, !append_nil.
           split; [done|]. split; [by left|]. split; [done|]. split; [done|].
           destruct Hs as [->| ->]; [by left|by right].
        -- intros (version & revision & Hv & Hseen & Hr & Hhex & Hs).
           destruct version as [|c' version].
           ++ destruct Hseen as [->|?]; [|done]. split; [done|].
              exists revision. split; [done|]. split; [by right|].
              rewrite !append_nil, !append_cons, !append_nil in Hs.
              destruct Hs as [Hs|Hs]; injection Hs as ->; [by left|by right].
           ++ simpl in Hv. apply andb_true_iff in Hv as [Hc' _].
              rewrite !append_cons in Hs.
              destruct Hs as [Hs|Hs]; injection Hs as Hcc _; subst c'; congruence.
      * split; [done|]. intros (version & revision & Hv & _ & _ & _ & Hs).
        destruct version as [|c' version].
        -- rewrite !append_nil, !append_cons in Hs.
           destruct Hs as [Hs|Hs]; injection Hs as -> _; done.
        -- simpl in Hv. apply andb_true_iff in Hv as [Hc' _].
           rewrite !append_cons in Hs.
           destruct Hs as [Hs|Hs]; injection Hs as -> _; congruence.
Qed.

Lemma split_on_version (version rest : string) :
  all_chars is_version_char version = true ->
  hd EmptyString (split_on "-" (version +:+ "-" +:+ rest)) = version.
Proof.
  induction version as [|c version IH]; intros Hv.
  - by rewrite append_nil, append_cons.
  - simpl in Hv. apply andb_true_iff in Hv as [Hc Hv]. rewrite append_cons. simpl.
    destruct (Ascii.eqb_spec c "-") as [->|_]; [done|].
    specialize (IH Hv). destruct (split_on "-" _); simpl in *; by subst.
Qed.

(** X12. What [TASK_TAG_REGEXP] lets through, and so what
    [only_tags_pinned_by_version_revision] keeps: the names made of a
    non-empty version of digits and dots, a dash and a non-empty revision of
    lower-case hexadecimal digits, and the same names followed by one
    newline; for each of them, what [_parse_version] parses is the
    version. *)
Theorem only_tags_pinned_by_version_revision_spec (tags_info : list TagInfo)
    (tag_info : TagInfo) :
  tag_info ∈ only_tags_pinned_by_version_revision tags_info
  <-> tag_info ∈ tags_info
      /\ exists version revision,
           pinned_name version revision
           /\ (name tag_info = version +:+ "-" +:+ revision
               \/ name tag_info = version +:+ "-" +:+ revision +:+ newline)
           /\ _parse_version (name tag_info) = parse_version version.
Proof.
  unfold only_tags_pinned_by_version_revision. rewrite list_elem_of_filter.
  rewrite match_task_tag_spec. unfold pinned_name. split.
  - intros [(version & revision & Hv & [?|Hne] & Hr & Hhex & Hs) Hin]; [done|].
    split; [done|]. exists version, revision. split; [done|]. split; [done|].
    unfold _parse_version. destruct Hs as [->| ->]; by rewrite split_on_version.
  - intros [Hin (version & revision & (Hne & Hv & Hr & Hhex) & Hs & _)].
    split; [|done]. exists version, revision. split; [done|]. split; [by right|].
    done.
Qed.

(** ** The tags of an upgrade *)

Lemma mapM_Ok {A B : Type} (f : A -> result B) (l : list A) (r : list B) :
  mapM f l = Ok r -> Forall2 (fun a b => f a = Ok b) l r.
Proof.
  revert r. induction l as [|a l IH]; intros r; simpl.
  - intros [= <-]. constructor.
  - destruct (f a) as [b|] eqn:Hb; simpl; [|done].
    destruct (mapM f l) as [r'|]; simpl; [|done]. intros [= <-].
    constructor; [done|]. by apply IH.
Qed.

(** X13. Whenever [list_bundle_tags] returns, it returns the tags the
    registry lists for the versions from the current to the new one, those
    of a version with no tag being none, sorted newest first, tags of one
    time stamp in the order they were listed in. *)
Theorem list_bundle_tags_sorted (reg : Registry) (bundle_upgrade : TaskBundleUpgrade)
    (tags : list TagInfo) :
  list_bundle_tags reg bundle_upgrade = Ok tags ->
  exists versions listings,
    expand_versions (current_value bundle_upgrade) (new_value bundle_upgrade)
    = Ok versions
    /\ listings_of reg bundle_upgrade versions listings
    /\ tags ≡ₚ concat listings
    /\ StronglySorted newer_or_same tags
    /\ forall ts, at_ts ts tags = at_ts ts (concat listings).
Proof.
  unfold list_bundle_tags.
  destruct (expand_versions _ _) as [versions|e]; simpl; [|done].
  destruct (mapM _ versions) as [listings|e] eqn:Hlist; simpl; [|done].
  intros [= <-].
  exists versions, listings. split; [done|]. split; [by apply mapM_Ok in Hlist|].
  split; [apply sorted_desc_Permutation|]. split; [apply sorted_desc_sorted|].
  intros ts. apply sorted_desc_stable.
Qed.

Lemma list_bundle_tags_sorted_witness :
  exists versions listings,
    expand_versions "0.1" "0.3" = Ok versions
    /\ listings_of (tags_only example_listing) example_upgrade versions listings
    /\ example_listing ≡ₚ concat listings
    /\ StronglySorted newer_or_same example_listing
    /\ forall ts, at_ts ts example_listing = at_ts ts (concat listings).
Proof.
  apply (list_bundle_tags_sorted (tags_only example_listing) example_upgrade
           example_listing).
  reflexivity.
Defined.

(** ** The tags of a registry that lists by prefix *)

Lemma string_of_uint_digits (d : Decimal.uint) :
  all_chars is_digit (NilEmpty.string_of_uint d) = true.
Proof. induction d; simpl; by rewrite ?IHd. Qed.

Lemma str_of_N_digits (n : N) :
  all_chars is_digit (str_of_N n) = true /\ str_of_N n <> EmptyString.
Proof.
  unfold str_of_N, NilZero.string_of_uint.
  pose proof (string_of_uint_digits (N.to_uint n)) as H.
  destruct (N.to_uint n); simpl in *; done.
Qed.

Lemma split_on_digits (s : string) :
  all_chars is_digit s = true -> split_on "." s = [s].
Proof.
  induction s as [|c s IH]; intros H; simpl in *; [done|].
  apply andb_true_iff in H as [Hc H]. rewrite (IH H).
  destruct (Ascii.eqb_spec c ".") as [->|_]; [done|done].
Qed.

Lemma int_of_digits_from_digits (s : string) (acc : N) :
  all_chars is_digit s = true -> exists n, int_of_digits_from acc s = Some n.
Proof.
  revert acc. induction s as [|c s IH]; intros acc H; simpl in *; [by eexists|].
  apply andb_true_iff in H as [Hc H]. rewrite Hc. by apply IH.
Qed.

(** Every version [expand_versions] returns is read back by packaging. *)
Lemma parse_version_expanded (m : N) :
  exists v, parse_version ("0." +:+ str_of_N m) = Ok v.
Proof.
  destruct (str_of_N_digits m) as [Hd Hne].
  unfold parse_version.
  change ("0." +:+ str_of_N m) with (String "0" (String "." (str_of_N m))).
  simpl. rewrite (split_on_digits _ Hd). simpl.
  destruct (int_of_digits_from_digits (str_of_N m) 0 Hd) as [n Hn].
  unfold int_of_digits. destruct (str_of_N m) eqn:Hs; [done|].
  rewrite Hn. simpl. by eexists.
Qed.

Lemma expanded_version_chars (m : N) :
  all_chars is_version_char ("0." +:+ str_of_N m) = true.
Proof.
  destruct (str_of_N_digits m) as [Hd _].
  change ("0." +:+ str_of_N m) with (String "0" (String "." (str_of_N m))).
  simpl. induction (str_of_N m) as [|c s IH]; simpl in *; [done|].
  apply andb_true_iff in Hd as [Hc Hd]. unfold is_version_char at 1.
  rewrite Hc. simpl. by apply IH.
Qed.

(** When the registry lists by prefix, the name of every tag listed for an
    upgrade begins with one of the versions [0.<minor>] and a dash, and so
    has a version. *)
Lemma listed_by_prefix_parses (reg : Registry) (up : TaskBundleUpgrade)
    (tags : list TagInfo) :
  lists_by_prefix reg ->
  list_bundle_tags reg up = Ok tags ->
  Forall parses tags.
Proof.
  intros Hprefix. unfold list_bundle_tags, expand_versions, expand_versions_with. simpl.
  destruct (parse_version (current_value up)) as [vf|]; simpl; [|done].
  destruct (parse_version (new_value up)) as [vt|]; simpl; [|done].
  destruct (Version_gt vf vt); simpl; [done|].
  destruct (mapM _ _) as [listings|e] eqn:Hlist; simpl; [|done].
  intros [= <-]. apply Forall_forall. intros t Ht.
  apply (proj1 (elem_of_sorted_desc _ _)) in Ht.
  apply list_elem_of_In, in_concat in Ht as (listing & Hlisting & Ht).
  apply list_elem_of_In in Ht.
  apply mapM_Ok in Hlist.
  apply list_elem_of_In, list_elem_of_lookup in Hlisting as [i Hi].
  destruct (Forall2_lookup_r _ _ _ _ _ Hlist Hi) as (version & Hversion & Hlisted).
  apply list_elem_of_lookup_2 in Hversion.
  apply list_elem_of_In, in_map_iff in Hversion as (m & <- & _).
  destruct (Hprefix _ _ _ Hlisted t Ht) as [rest Hname].
  unfold parses, _parse_version. rewrite Hname.
  replace ((("0." +:+ str_of_N m) +:+ "-") +:+ rest)
    with (("0." +:+ str_of_N m) +:+ "-" +:+ rest).
  2:{ generalize ("0." +:+ str_of_N m). intros s.
      induction s as [|c s IH]; [done|]. change (String c s +:+ "-" +:+ rest)
        with (String c (s +:+ "-" +:+ rest)).
      change ((String c s +:+ "-") +:+ rest) with (String c ((s +:+ "-") +:+ rest)).
      by rewrite IH. }
  rewrite split_on_version by apply expanded_version_chars.
  apply parse_version_expanded.
Qed.

(** When the registry lists by prefix, [determine_task_bundle_upgrades_range]
    returns the empty list, and raises nothing, for every upgrade whose
    listed tags hold no tag of [currentDigest] or none of [newDigest]. *)
Lemma determine_range_empty_when_listed_by_prefix (reg : Registry)
    (up : TaskBundleUpgrade) (tags : list TagInfo) :
  lists_by_prefix reg ->
  list_bundle_tags reg up = Ok tags ->
  (forall t, t ∈ tags -> manifest_digest t <> current_digest up)
  \/ (forall t, t ∈ tags -> manifest_digest t <> new_digest up) ->
  determine_task_bundle_upgrades_range reg up = Ok [].
Proof.
  intros Hprefix Hlisted Hmissing.
  pose proof (listed_by_prefix_parses _ _ _ Hprefix Hlisted) as Hparses.
  apply (determine_range_empty_when_tag_missing reg up tags Hlisted).
  - unfold only_tags_pinned_by_version_revision. apply Forall_forall.
    intros t Ht. apply list_elem_of_filter in Ht as [_ Ht].
    rewrite Forall_forall in Hparses. by apply Hparses.
  - unfold only_tags_pinned_by_version_revision.
    destruct Hmissing as [H|H]; [left|right]; intros t Ht;
      apply list_elem_of_filter in Ht as [_ Ht]; by apply H.
Qed.

(** ** The range of an upgrade *)

Lemma prune_by_watermark_sublist (highest : option Version)
    (tags : list (TagInfo * Version)) :
  sublist (prune_by_watermark highest tags) (map fst tags).
Proof.
  revert highest. induction tags as [|[t v] rest IH]; intros highest; simpl;
    [constructor|].
  destruct (match highest with None => true | Some h => Version_ge v h end);
    by constructor.
Qed.

Lemma py_slice_sublist {A : Type} (l : list A) (start : Z) (stop : option Z) :
  sublist (py_slice l start stop) l.
Proof.
  unfold py_slice. etrans; [apply sublist_take|apply sublist_drop].
Qed.

Lemma StronglySorted_from_tag_info (l : list TagInfo) :
  StronglySorted newer_or_same l ->
  StronglySorted range_newer_or_same (map from_tag_info l).
Proof.
  induction l as [|x l IH]; intros H; simpl; [constructor|].
  apply StronglySorted_inv in H as [H Hx]. constructor; [by apply IH|].
  rewrite Forall_forall in Hx. rewrite Forall_forall. intros y Hy.
  change (map from_tag_info l) with (from_tag_info <$> l) in Hy.
  apply list_elem_of_fmap in Hy as (t & -> & Ht). by apply Hx.
Qed.

(** What the slice is taken of: tags that were kept, newest first. *)
Lemma the_range_sublist (up : TaskBundleUpgrade) (st : DropState) :
  sublist (the_range up st) (sorted_desc (tags_that_follow_correct_version_order st)).
Proof.
  unfold the_range. destruct (find_positions _ _ _ _ _) as [current_pos new_pos].
  destruct (is_out_of_order st); apply py_slice_sublist.
Qed.

(** X14. The range [determine_task_bundle_upgrades_range] returns is newest
    first, and every tag of it is one of the tags listed for the upgrade,
    with a name that [TASK_TAG_REGEXP] lets through and that has a version.
    It raises what [list_bundle_tags] raises, or else [InvalidVersion] for a
    listed tag that the regular expression lets through and whose name has no
    version. *)
Theorem determine_task_bundle_upgrades_range_from_listing (reg : Registry)
    (task_bundle_upgrade : TaskBundleUpgrade) :
  match determine_task_bundle_upgrades_range reg task_bundle_upgrade with
  | Ok upgrades_range =>
      exists tags,
        list_bundle_tags reg task_bundle_upgrade = Ok tags
        /\ StronglySorted range_newer_or_same upgrades_range
        /\ forall tag, tag ∈ upgrades_range ->
             exists tag_info,
               tag = from_tag_info tag_info
               /\ tag_info ∈ only_tags_pinned_by_version_revision tags
               /\ parses tag_info
  | Raise e =>
      list_bundle_tags reg task_bundle_upgrade = Raise e
      \/ exists tags tag_info,
           list_bundle_tags reg task_bundle_upgrade = Ok tags
           /\ tag_info ∈ only_tags_pinned_by_version_revision tags
           /\ ~ parses tag_info
           /\ e = InvalidVersion (hd EmptyString (split_on "-" (name tag_info)))
  end.
Proof.
  unfold determine_task_bundle_upgrades_range.
  destruct (list_bundle_tags reg task_bundle_upgrade) as [tags|e]; simpl; [|by left].
  set (pinned := only_tags_pinned_by_version_revision tags).
  pose proof (drop_loop_from task_bundle_upgrade (rev pinned) drop_init) as Hloop.
  destruct (with_versions (rev pinned)) as [parsed|e] eqn:Hparsed.
  - destruct Hloop as (st & Hloop & Hkept). simpl in Hkept.
    rewrite (range_of_tags_eq tags task_bundle_upgrade st Hloop).
    assert (Hall : Forall parses pinned).
    { apply with_versions_parses in Hparsed. rewrite Forall_forall in Hparsed |- *.
      intros t Ht. apply Hparsed. by rewrite rev_reverse, elem_of_reverse. }
    assert (Hin : forall t, t ∈ the_range task_bundle_upgrade st -> t ∈ pinned).
    { intros t Ht. apply (sublist_subseteq _ _ (the_range_sublist _ _)) in Ht.
      apply (proj1 (elem_of_sorted_desc _ _)) in Ht. rewrite Hkept in Ht.
      apply (sublist_subseteq _ _ (prune_by_watermark_sublist _ _)) in Ht.
      rewrite (with_versions_fst _ _ Hparsed), rev_reverse, elem_of_reverse in Ht. done. }
    assert (Hsorted : StronglySorted range_newer_or_same
                        (map from_tag_info (the_range task_bundle_upgrade st))).
    { apply StronglySorted_from_tag_info.
      apply (StronglySorted_sublist _ _ _ (the_range_sublist _ _)).
      apply sorted_desc_sorted. }
    assert (Hrange : forall tag,
               tag ∈ map from_tag_info (the_range task_bundle_upgrade st) ->
               exists tag_info, tag = from_tag_info tag_info /\ tag_info ∈ pinned
                                /\ parses tag_info).
    { intros tag Htag.
      change (map from_tag_info ?l) with (from_tag_info <$> l) in Htag.
      apply list_elem_of_fmap in Htag as (t & -> & Ht). exists t.
      split; [done|]. split; [by apply Hin|].
      rewrite Forall_forall in Hall. by apply Hall, Hin. }
    destruct (current_tag_info st), (new_tag_info st); cbv beta iota; exists tags;
      (split; [done|]); (split; [done || constructor|]); try done;
      intros tag Htag; by apply elem_of_nil in Htag.
  - unfold range_of_tags, drop_out_of_order_versions, drop_loop.
    fold pinned. rewrite Hloop. simpl. right.
    destruct (with_versions_raises _ _ Hparsed) as (t & Hin & Hraise & He).
    exists tags, t. split; [done|].
    rewrite rev_reverse, elem_of_reverse in Hin. split; [done|].
    split; [|done]. intros [v Hv]. congruence.
Qed.

(** ** The resolver strategies: what is yielded *)

Lemma simple_resolve_migrations_cons (reg : Registry) (dep_name_ : string)
    (tag_info : QuayTagInfo.t) (rest : list QuayTagInfo.t) :
  simple_resolve_migrations reg dep_name_ (tag_info :: rest)
  = match raised_at reg dep_name_ tag_info with
    | Some e => ([], Raised e)
    | None =>
        match migration_of reg dep_name_ tag_info with
        | Some migration =>
            yield_ migration (simple_resolve_migrations reg dep_name_ rest)
        | None => simple_resolve_migrations reg dep_name_ rest
        end
    end.
Proof.
  unfold raised_at, migration_of. simpl.
  destruct (get_manifest reg (bundle_ref dep_name_ tag_info)) as [m|e]; [|done].
  destruct (is_true _); simpl; [|done].
  destruct (fetch_migration_file reg dep_name_ _) as [script|e]; [|done].
  by destruct (truthy script).
Qed.

(** X15. The simple resolver goes through the range in order: up to the
    first tag at which the registry or the fetcher raises, it yields the
    migration of every tag that has one, and it yields nothing else; it
    returns when no tag raises, and otherwise raises what the first such tag
    raises, the tags after it not being looked at. *)
Theorem simple_resolve_migrations_in_range_order (reg : Registry) (dep_name_ : string)
    (upgrades_range : list QuayTagInfo.t) :
  let '(ys, end_) := simple_resolve_migrations reg dep_name_ upgrades_range in
  match end_ with
  | StopIteration =>
      ys = omap (migration_of reg dep_name_) upgrades_range
      /\ Forall (fun tag_info => raised_at reg dep_name_ tag_info = None) upgrades_range
  | Raised e =>
      exists before tag_info after,
        upgrades_range = before ++ tag_info :: after
        /\ ys = omap (migration_of reg dep_name_) before
        /\ Forall (fun tag_info => raised_at reg dep_name_ tag_info = None) before
        /\ raised_at reg dep_name_ tag_info = Some e
  | Running => False
  end.
Proof.
  induction upgrades_range as [|tag_info rest IH].
  - simpl. split; [done|constructor].
  - rewrite simple_resolve_migrations_cons.
    destruct (raised_at reg dep_name_ tag_info) as [e|] eqn:Hraised.
    { exists [], tag_info, rest. split; [done|]. split; [done|]. split; [constructor|done]. }
    destruct (simple_resolve_migrations reg dep_name_ rest) as [ys end_].
    assert (Hstep : forall pre,
      omap (migration_of reg dep_name_) (tag_info :: pre)
      = match migration_of reg dep_name_ tag_info with
        | Some migration => migration :: omap (migration_of reg dep_name_) pre
        | None => omap (migration_of reg dep_name_) pre
        end).
    { intros pre. simpl. by destruct (migration_of reg dep_name_ tag_info). }
    assert (Hgoal :
      match end_ with
      | StopIteration =>
          match migration_of reg dep_name_ tag_info with
          | Some migration => migration :: ys
          | None => ys
          end = omap (migration_of reg dep_name_) (tag_info :: rest)
          /\ Forall (fun tag_info => raised_at reg dep_name_ tag_info = None)
               (tag_info :: rest)
      | Raised e =>
          exists before tag_info' after,
            tag_info :: rest = before ++ tag_info' :: after
            /\ match migration_of reg dep_name_ tag_info with
               | Some migration => migration :: ys
               | None => ys
               end = omap (migration_of reg dep_name_) before
            /\ Forall (fun tag_info => raised_at reg dep_name_ tag_info = None) before
            /\ raised_at reg dep_name_ tag_info' = Some e
      | Running => False
      end).
    { destruct end_ as [|e|]; [| |done].
      - destruct IH as [-> Hall]. split; [by rewrite Hstep|by constructor].
      - destruct IH as (before & tag_info' & after & -> & -> & Hall & He).
        exists (tag_info :: before), tag_info', after.
        split; [done|]. split; [by rewrite Hstep|]. split; [by constructor|done]. }
    destruct (migration_of reg dep_name_ tag_info); unfold yield_; simpl;
      by destruct end_.
Qed.

Lemma simple_resolve_migrations_returns (reg : Registry) (dep_name_ : string)
    (upgrades_range : list QuayTagInfo.t) :
  snd (simple_resolve_migrations reg dep_name_ upgrades_range) = StopIteration ->
  fst (simple_resolve_migrations reg dep_name_ upgrades_range)
  = omap (migration_of reg dep_name_) upgrades_range.
Proof.
  induction upgrades_range as [|tag_info rest IH]; [done|].
  rewrite simple_resolve_migrations_cons.
  destruct (raised_at reg dep_name_ tag_info); [done|]. simpl.
  destruct (migration_of reg dep_name_ tag_info); [|exact IH].
  rewrite snd_yield_. intros H. simpl. by rewrite (IH H).
Qed.

Lemma omap_sublist {A B : Type} (f : A -> option B) (l1 l2 : list A) :
  sublist l1 l2 -> sublist (omap f l1) (omap f l2).
Proof.
  induction 1 as [|x l1 l2 H IH|x l1 l2 H IH]; simpl; [constructor| |].
  - destruct (f x); [by constructor|done].
  - destruct (f x); [by constructor|done].
Qed.

Lemma next_position_loop (reg : Registry) (dep_name_ : string)
    (upgrades_range : list QuayTagInfo.t) (i : nat) (tag_info : QuayTagInfo.t)
    (manifest_json : Manifest) :
  upgrades_range !! i = Some tag_info ->
  get_manifest reg (bundle_ref dep_name_ tag_info) = Ok manifest_json ->
  next_position reg dep_name_ upgrades_range i
  = if truthy (Some (manifest_annotation manifest_json
                       ANNOTATION_PREVIOUS_MIGRATION_BUNDLE EmptyString))
    then index_of (manifest_annotation manifest_json
                     ANNOTATION_PREVIOUS_MIGRATION_BUNDLE EmptyString)
           (map QuayTagInfo.manifest_digest upgrades_range)
    else None.
Proof. intros Hi Hm. unfold next_position. by rewrite Hi, Hm. Qed.

(** From a position on, the loop of the linked resolver yields migrations of
    tags from that position on, in the order of the range. *)
Lemma linked_loop_sublist (reg : Registry) (dep_name_ : string)
    (upgrades_range : list QuayTagInfo.t) :
  links_lead_to_older reg dep_name_ upgrades_range ->
  forall fuel i : nat,
    sublist
      (fst (linked_loop fuel reg dep_name_ upgrades_range
              (map QuayTagInfo.manifest_digest upgrades_range) i))
      (omap (migration_of reg dep_name_) (drop i upgrades_range)).
Proof.
  intros Hlinks fuel. induction fuel as [|fuel IH]; intros i; simpl;
    [apply sublist_nil_l|].
  destruct (upgrades_range !! i) as [tag_info|] eqn:Hi; [|apply sublist_nil_l].
  rewrite (drop_S _ _ _ Hi). simpl. unfold migration_of.
  destruct (get_manifest reg (bundle_ref dep_name_ tag_info)) as [m|e] eqn:Hm;
    [|apply sublist_nil_l].
  pose proof (next_position_loop reg dep_name_ upgrades_range i tag_info m Hi Hm) as Hnext.
  set (next :=
         if truthy (Some (manifest_annotation m ANNOTATION_PREVIOUS_MIGRATION_BUNDLE ""))
         then match index_of (manifest_annotation m ANNOTATION_PREVIOUS_MIGRATION_BUNDLE "")
                      (map QuayTagInfo.manifest_digest upgrades_range) with
              | Some j => linked_loop fuel reg dep_name_ upgrades_range
                            (map QuayTagInfo.manifest_digest upgrades_range) j
              | None => ([], StopIteration)
              end
         else ([], StopIteration)).
  assert (Hsub : sublist (fst next)
                   (omap (migration_of reg dep_name_) (drop (S i) upgrades_range))).
  { unfold next. destruct (truthy _); [|apply sublist_nil_l].
    destruct (index_of _ _) as [j|]; [|apply sublist_nil_l].
    pose proof (Hlinks i j Hnext) as Hij.
    etrans; [apply IH|]. apply omap_sublist.
    replace j with (S i + (j - S i))%nat by lia. rewrite <- drop_drop.
    apply sublist_drop. }
  destruct (is_true _).
  - destruct (fetch_migration_file reg dep_name_ _) as [script|e]; [|apply sublist_nil_l].
    destruct (truthy script); simpl; [by constructor|done].
  - done.
Qed.

(** X16. When every link found in the range leads to an older tag, the
    linked resolver yields, whatever way it ends, only migrations of tags of
    the range, each at most once and in the order of the range; so when the
    simple resolver returns, what the linked resolver yields is part of what
    the simple one yields, in the same order. *)
Theorem linked_resolver_yields_part_of_simple (fuel : nat) (reg : Registry)
    (dep_name_ : string) (upgrades_range : list QuayTagInfo.t) :
  links_lead_to_older reg dep_name_ upgrades_range ->
  let linked := linked_resolve_migrations fuel reg dep_name_ upgrades_range in
  let simple := simple_resolve_migrations reg dep_name_ upgrades_range in
  sublist (fst linked) (omap (migration_of reg dep_name_) upgrades_range)
  /\ (snd simple = StopIteration -> sublist (fst linked) (fst simple)).
Proof.
  intros Hlinks linked simple.
  assert (Hsub : sublist (fst linked) (omap (migration_of reg dep_name_) upgrades_range)).
  { unfold linked, linked_resolve_migrations.
    destruct upgrades_range as [|tag_info rest] eqn:Hrange; [apply sublist_nil_l|].
    rewrite <- Hrange in *.
    apply (linked_loop_sublist reg dep_name_ upgrades_range Hlinks fuel 0). }
  split; [done|]. intros Hend.
  unfold simple. by rewrite (simple_resolve_migrations_returns _ _ _ Hend).
Qed.

Lemma linked_resolver_yields_part_of_simple_witness :
  let linked := linked_resolve_migrations 4 linked_registry "quay.io/konflux-ci/foo"
                  linked_range in
  let simple := simple_resolve_migrations linked_registry "quay.io/konflux-ci/foo"
                  linked_range in
  sublist (fst linked)
    (omap (migration_of linked_registry "quay.io/konflux-ci/foo") linked_range)
  /\ (snd simple = StopIteration -> sublist (fst linked) (fst simple)).
Proof.
  apply (linked_resolver_yields_part_of_simple 4 linked_registry "quay.io/konflux-ci/foo"
           linked_range).
  exact linked_registry_links.
Defined.

(** ** The migration fetcher: the layer it reads *)

(** X17. With one referrer marked as a migration, [fetch_migration_file]
    reads the first layer of the manifest of that referrer and no other: it
    returns the content of that layer, raises what reading it raises, raises
    [IndexError] when the manifest has no layer and [KeyError] when it has no
    [layers] at all. *)
Theorem fetch_migration_file_reads_first_layer
    (reg : Registry) (image_ digest_ : string) (index : ImageIndex)
    (referrer : Descriptor) (manifest : Manifest)
    (Hname : digest (Container_of image_) = None)
    (Hreferrers : list_referrers reg (with_digest (Container_of image_) digest_)
                    "text/x-shellscript" = Ok index)
    (Hone : migration_descriptors index = [referrer]) :
  let c := with_digest (with_digest (Container_of image_) digest_)
             (descriptor_digest referrer) in
  get_manifest reg c = Ok manifest ->
  fetch_migration_file reg image_ digest_
  = match layers manifest with
    | None => Raise (KeyError "layers")
    | Some [] => Raise IndexError
    | Some (layer :: _) =>
        match get_artifact reg c (descriptor_digest layer) with
        | Ok content => Ok (Some content)
        | Raise e => Raise e
        end
    end.
Proof.
  intros c Hmanifest. unfold fetch_migration_file.
  rewrite bool_decide_eq_false_2 by (rewrite Hname; intros H; by apply H).
  rewrite Hreferrers. simpl. unfold migration_descriptors in Hone. rewrite Hone. simpl.
  fold c. rewrite Hmanifest. simpl.
  by destruct (layers manifest) as [[|layer rest]|].
Qed.

Lemma fetch_migration_file_reads_first_layer_witness :
  fetch_migration_file two_layers "quay.io/konflux-ci/foo" "sha256:0b"
  = match get_artifact two_layers
            (with_digest (with_digest (Container_of "quay.io/konflux-ci/foo") "sha256:0b")
               "sha256:a1") "sha256:b1" with
    | Ok content => Ok (Some content)
    | Raise e => Raise e
    end.
Proof.
  apply (fetch_migration_file_reads_first_layer two_layers "quay.io/konflux-ci/foo"
           "sha256:0b" {| manifests := [migration_referrer "sha256:a1"] |}
           (migration_referrer "sha256:a1")
           {| layers := Some [ {| descriptor_digest := "sha256:b1";
                                  descriptor_annotations := None |};
                               {| descriptor_digest := "sha256:b2";
                                  descriptor_annotations := None |} ];
              manifest_annotations := None |}).
  - reflexivity.
  - reflexivity.
  - reflexivity.
  - reflexivity.
Defined.

(** ** The upgrades given on the command line *)

Lemma clean_loop_app (env : Environment) (cleaned_upgrades before after : list Json) :
  clean_loop env cleaned_upgrades (before ++ after)
  = match clean_loop env cleaned_upgrades before with
    | inr kept => clean_loop env kept after
    | inl e => inl e
    end.
Proof.
  revert cleaned_upgrades. induction before as [|upgrade rest IH]; intros kept; simpl;
    [done|].
  destruct (negb (json_truthy upgrade)); [apply IH|].
  destruct upgrade as [| | | | | |entries]; try done.
  destruct (negb (json_truthy _)); [done|].
  destruct (comes_from_konflux env _) as [e|[|]]; [done| |apply IH].
  destruct (validate env _); [done|].
  destruct (json_get "depTypes" entries) as [dep_types|]; [|done].
  destruct (json_contains "tekton-bundle" dep_types) as [e|[|]]; [done| |]; apply IH.
Qed.

(** One turn of the loop on an upgrade of Konflux. *)
Lemma clean_loop_from_konflux (env : Environment) (cleaned_upgrades rest : list Json)
    (upgrade : Json) :
  from_konflux env upgrade = true ->
  clean_loop env cleaned_upgrades (upgrade :: rest)
  = match validate env upgrade with
    | Some e => inl (InvalidRenovateUpgradesData (validation_message e))
    | None =>
        match upgrade with
        | JObject entries =>
            match json_get "depTypes" entries with
            | None => inl (MissingKey "depTypes")
            | Some dep_types =>
                match json_contains "tekton-bundle" dep_types with
                | inl e => inl e
                | inr false => clean_loop env cleaned_upgrades rest
                | inr true => clean_loop env (cleaned_upgrades ++ [upgrade]) rest
                end
            end
        | _ => inl (AttributeError "get")
        end
    end.
Proof.
  unfold from_konflux. destruct upgrade as [| | | | | |entries]; try done.
  intros H. apply andb_true_iff in H as [H Hk]. apply andb_true_iff in H as [Ht Hd].
  cbn [clean_loop]. rewrite Ht, Hd. simpl.
  by destruct (comes_from_konflux env _) as [e|[|]].
Qed.

(** One turn of the loop on an upgrade that is passed over. *)
Lemma clean_loop_passed_over (env : Environment) (cleaned_upgrades rest : list Json)
    (upgrade : Json) :
  passed_over env upgrade = true ->
  clean_loop env cleaned_upgrades (upgrade :: rest) = clean_loop env cleaned_upgrades rest.
Proof.
  unfold passed_over. intros H. cbn [clean_loop].
  destruct (json_truthy upgrade) eqn:Ht; simpl in *; [|done].
  destruct upgrade as [| | | | | |entries]; try done.
  apply andb_true_iff in H as [Hd Hk]. rewrite Hd. simpl.
  by destruct (comes_from_konflux env _) as [e|[|]].
Qed.

Lemma clean_loop_returns (env : Environment) (upgrades cleaned_upgrades kept : list Json) :
  clean_loop env cleaned_upgrades upgrades = inr kept ->
  kept = cleaned_upgrades ++ List.filter (wanted env) upgrades
  /\ Forall (fun upgrade => from_konflux env upgrade = true -> validate env upgrade = None)
       upgrades.
Proof.
  revert cleaned_upgrades. induction upgrades as [|upgrade rest IH]; intros acc H.
  - simpl in H. injection H as <-. split; [by rewrite app_nil_r|constructor].
  - destruct (from_konflux env upgrade) eqn:Hk.
    + rewrite (clean_loop_from_konflux _ _ _ _ Hk) in H.
      destruct (validate env upgrade) as [e|] eqn:Hv; [done|].
      simpl. unfold wanted. rewrite Hk. simpl.
      destruct upgrade as [| | | | | |entries]; try done.
      destruct (json_get "depTypes" entries) as [dep_types|]; [|done].
      destruct (json_contains "tekton-bundle" dep_types) as [e|[|]]; [done| |].
      * destruct (IH _ H) as [-> Hall]. split; [by rewrite <- app_assoc|by constructor].
      * destruct (IH _ H) as [-> Hall]. split; [done|by constructor].
    + assert (Hw : wanted env upgrade = false) by (unfold wanted; by rewrite Hk).
      simpl. rewrite Hw.
      assert (Hrest : clean_loop env acc rest = inr kept).
      { revert H. cbn [clean_loop]. unfold from_konflux in Hk.
        destruct (json_truthy upgrade) eqn:Ht; cbn [negb]; [|done].
        destruct upgrade as [| | | | | |entries]; try done.
        cbn [andb] in Hk.
        destruct (json_truthy (default JNull (json_get "depName" entries)));
          cbn [negb andb] in *; [|done].
        by destruct (comes_from_konflux env _) as [e|[|]]. }
      destruct (IH _ Hrest) as [-> Hall]. split; [done|].
      constructor; [|done]. intros Hk'. congruence.
Qed.

(** X18. When [clean_upgrades] returns, the input was read as a list, and
    what is returned are, in their order in that list, the upgrades of it
    that are mappings with a [depName] that comes from Konflux and with
    [tekton-bundle] among their [depTypes]; and every upgrade of the list
    that comes from Konflux passed the validator, those that are not
    returned too. *)
Theorem clean_upgrades_keeps (env : Environment) (input_upgrades : string)
    (cleaned_upgrades : list Json) :
  clean_upgrades env input_upgrades = inr cleaned_upgrades ->
  exists upgrades,
    json_loads env input_upgrades = Some (JArray upgrades)
    /\ cleaned_upgrades = List.filter (wanted env) upgrades
    /\ Forall (fun upgrade =>
                 from_konflux env upgrade = true -> validate env upgrade = None)
         upgrades.
Proof.
  unfold clean_upgrades.
  destruct (json_loads env input_upgrades) as [[| | | | |upgrades|]|]; try done.
  intros H. exists upgrades. split; [done|]. by apply clean_loop_returns in H.
Qed.

Lemma clean_upgrades_keeps_witness :
  exists upgrades,
    json_loads example_environment "kept" = Some (JArray upgrades)
    /\ [konflux_upgrade] = List.filter (wanted example_environment) upgrades
    /\ Forall (fun upgrade =>
                 from_konflux example_environment upgrade = true ->
                 validate example_environment upgrade = None)
         upgrades.
Proof.
  apply (clean_upgrades_keeps example_environment "kept" [konflux_upgrade]).
  reflexivity.
Defined.

(** X19. Every upgrade that comes from Konflux is validated, and the first
    that does not pass makes [clean_upgrades] raise
    [InvalidRenovateUpgradesData] with the message of that failure, whatever
    upgrades come after it, and whether or not it is for the tekton-bundle
    manager. *)
Theorem clean_upgrades_rejects_invalid (env : Environment) (input_upgrades : string)
    (before after kept : list Json) (upgrade : Json) (e : ValidationError) :
  json_loads env input_upgrades = Some (JArray (before ++ upgrade :: after)) ->
  clean_loop env [] before = inr kept ->
  from_konflux env upgrade = true ->
  validate env upgrade = Some e ->
  clean_upgrades env input_upgrades
  = inl (InvalidRenovateUpgradesData (validation_message e)).
Proof.
  intros Hloads Hbefore Hk Hv. unfold clean_upgrades.
  rewrite Hloads, clean_loop_app, Hbefore, (clean_loop_from_konflux _ _ _ _ Hk), Hv. done.
Qed.

Lemma clean_upgrades_rejects_invalid_witness :
  clean_upgrades example_environment "rejected"
  = inl (InvalidRenovateUpgradesData
           "Invalid upgrades data: 'depTypes' is a required property, path '$'").
Proof.
  apply (clean_upgrades_rejects_invalid example_environment "rejected"
           [konflux_upgrade] [foreign_upgrade] [konflux_upgrade] incomplete_upgrade
           {| path := []; validator := "required";
              message := "'depTypes' is a required property"; json_path := "$" |}).
  - reflexivity.
  - reflexivity.
  - reflexivity.
  - reflexivity.
Defined.

(** X20. An upgrade that is a false value, or a mapping whose [depName]
    [comes_from_konflux] refuses, is passed over before it is validated:
    whatever else it holds, [clean_upgrades] ends as it does on the input
    without that upgrade. *)
Theorem clean_upgrades_passes_over (env : Environment) (input_upgrades without_it : string)
    (before after : list Json) (upgrade : Json) :
  json_loads env input_upgrades = Some (JArray (before ++ upgrade :: after)) ->
  json_loads env without_it = Some (JArray (before ++ after)) ->
  passed_over env upgrade = true ->
  clean_upgrades env input_upgrades = clean_upgrades env without_it.
Proof.
  intros Hloads Hwithout Hpassed. unfold clean_upgrades.
  rewrite Hloads, Hwithout, !clean_loop_app.
  destruct (clean_loop env [] before) as [err|kept]; [done|].
  by apply clean_loop_passed_over.
Qed.

Lemma clean_upgrades_passes_over_witness :
  clean_upgrades example_environment "kept" = clean_upgrades example_environment "same".
Proof.
  apply (clean_upgrades_passes_over example_environment "kept" "same"
           [JNull] [konflux_upgrade] foreign_upgrade).
  - reflexivity.
  - reflexivity.
  - reflexivity.
Defined.

(** ** From the range to the migrations of an upgrade *)

Lemma determine_range_sorted (reg : Registry) (up : TaskBundleUpgrade)
    (upgrades_range : list QuayTagInfo.t) :
  determine_task_bundle_upgrades_range reg up = Ok upgrades_range ->
  StronglySorted range_newer_or_same upgrades_range.
Proof.
  unfold determine_task_bundle_upgrades_range.
  destruct (list_bundle_tags reg up) as [tags|e]; simpl; [|done].
  pose proof (drop_loop_from up (rev (only_tags_pinned_by_version_revision tags))
                drop_init) as Hloop.
  destruct (with_versions (rev (only_tags_pinned_by_version_revision tags)))
    as [parsed|e].
  - destruct Hloop as (st & Hloop & _).
    rewrite (range_of_tags_eq tags up st Hloop).
    destruct (current_tag_info st), (new_tag_info st); intros [= <-];
      try constructor.
    apply StronglySorted_from_tag_info.
    apply (StronglySorted_sublist _ _ _ (the_range_sublist _ _)).
    apply sorted_desc_sorted.
  - unfold range_of_tags, drop_out_of_order_versions, drop_loop. by rewrite Hloop.
Qed.

Lemma omap_rev {A B : Type} (f : A -> option B) (l : list A) :
  rev (omap f l) = omap f (rev l).
Proof.
  induction l as [|x l IH]; [done|]. simpl rev. rewrite omap_app, <- IH.
  change (omap f (x :: l))
    with (match f x with Some y => y :: omap f l | None => omap f l end).
  change (omap f [x]) with (match f x with Some y => [y] | None => [] end).
  destruct (f x); simpl; [done|by rewrite app_nil_r].
Qed.

Lemma StronglySorted_snoc {A : Type} (R : A -> A -> Prop) (l : list A) (x : A) :
  StronglySorted R l -> Forall (fun y => R y x) l -> StronglySorted R (l ++ [x]).
Proof.
  induction l as [|y l IH]; intros H Hx; simpl.
  - constructor; constructor.
  - apply StronglySorted_inv in H as [H Hy]. apply Forall_cons in Hx as [Hyx Hx].
    constructor; [by apply IH|]. apply Forall_app. split; [done|]. by constructor.
Qed.

Lemma StronglySorted_rev {A : Type} (R : A -> A -> Prop) (l : list A) :
  StronglySorted R l -> StronglySorted (fun x y => R y x) (rev l).
Proof.
  induction l as [|x l IH]; intros H; simpl; [constructor|].
  apply StronglySorted_inv in H as [H Hx].
  apply StronglySorted_snoc; [by apply IH|].
  rewrite Forall_forall in Hx. rewrite Forall_forall. intros y Hy. apply Hx.
  apply list_elem_of_In, in_rev. by apply list_elem_of_In.
Qed.

(** X21. What the legacy resolver leaves in an upgrade that had no migration,
    when its worker returns: the migrations of the tags of the range of the
    upgrade that have one, from the oldest tag to the newest. *)
Theorem _resolve_simple_oldest_first (fuel : nat) (reg : Registry)
    (tb_upgrade resolved : TaskBundleUpgrade) :
  migrations tb_upgrade = [] ->
  _resolve SimpleIterationResolver fuel reg tb_upgrade = (resolved, StopIteration) ->
  exists upgrades_range,
    determine_task_bundle_upgrades_range reg tb_upgrade = Ok upgrades_range
    /\ StronglySorted range_older_or_same (rev upgrades_range)
    /\ migrations resolved
       = omap (migration_of reg (dep_name tb_upgrade)) (rev upgrades_range).
Proof.
  intros Hfresh H.
  destruct (_resolve_returns _ _ _ _ _ H) as (upgrades_range & ys & Hrange & Hys & ->).
  exists upgrades_range. split; [done|]. split.
  - apply (StronglySorted_rev range_newer_or_same).
    by apply (determine_range_sorted reg tb_upgrade).
  - simpl in *. rewrite Hfresh. simpl. rewrite <- omap_rev. f_equal.
    pose proof (simple_resolve_migrations_returns reg (dep_name tb_upgrade)
                  upgrades_range) as Hsimple.
    rewrite Hys in Hsimple. by apply Hsimple.
Qed.

Lemma _resolve_simple_oldest_first_witness :
  exists upgrades_range,
    determine_task_bundle_upgrades_range linked_registry
      (upgrade_of "0.1" "sha256:d0" "0.2" "sha256:d3") = Ok upgrades_range
    /\ StronglySorted range_older_or_same (rev upgrades_range)
    /\ [ {| task_bundle := "quay.io/konflux-ci/foo:0.1-b@sha256:d1";
            migration_script := "echo 1" |};
         {| task_bundle := "quay.io/konflux-ci/foo:0.2-d@sha256:d3";
            migration_script := "echo 3" |} ]
       = omap (migration_of linked_registry "quay.io/konflux-ci/foo") (rev upgrades_range).
Proof.
  apply (_resolve_simple_oldest_first 0 linked_registry
           (upgrade_of "0.1" "sha256:d0" "0.2" "sha256:d3")
           (set_migrations (upgrade_of "0.1" "sha256:d0" "0.2" "sha256:d3")
              [ {| task_bundle := "quay.io/konflux-ci/foo:0.1-b@sha256:d1";
                   migration_script := "echo 1" |};
                {| task_bundle := "quay.io/konflux-ci/foo:0.2-d@sha256:d3";
                   migration_script := "echo 3" |} ])).
  - reflexivity.
  - reflexivity.
Defined.

(** ** Across a major version *)

(** X22. [expand_versions] looks at the minor version only: for a pair of
    versions, whatever packaging accepts as a version, of which the new one
    is not lower and has the lower minor version, as from [0.9] to [1.0], it
    returns no version at all, so that [list_bundle_tags] has no version to
    list tags for. *)
Theorem expand_versions_empty_when_minor_decreases (P : Packaging) (from_ to : string)
    (from_version to_version : version_t P) :
  parse P from_ = Ok from_version ->
  parse P to = Ok to_version ->
  greater P from_version to_version = false ->
  (minor_of P to_version < minor_of P from_version)%N ->
  expand_versions_with P from_ to = Ok [].
Proof.
  intros Hfrom Hto Hgt Hminor. unfold expand_versions_with.
  rewrite Hfrom, Hto. simpl. rewrite Hgt. unfold py_range.
  replace (minor_of P to_version + 1 - minor_of P from_version)%N with 0%N by lia. done.
Qed.

Lemma expand_versions_empty_when_minor_decreases_witness :
  expand_versions "0.9" "1.0" = Ok [].
Proof.
  apply (expand_versions_empty_when_minor_decreases release_versions "0.9" "1.0"
           {| release := [0%N; 9%N] |} {| release := [1%N; 0%N] |}).
  - reflexivity.
  - reflexivity.
  - reflexivity.
  - reflexivity.
Defined.

(** ** The migration applier: the pipeline-run file *)

(** [_apply_migration] on a file that exists touches no other file. *)
Lemma _apply_migration_frame (t : Tools) (upgrades : list TaskBundleUpgrade) (fs : FS)
    (file_path_ q : string) :
  is_Some (files fs !! file_path_) -> q <> file_path_ ->
  files (fst (_apply_migration t upgrades fs file_path_)) !! q = files fs !! q.
Proof.
  intros Hp Hq.
  destruct (mkstemp "-migration-file" fs) as [[migration_file fs0]|e] eqn:Hmk.
  - destruct (_apply_migration_runs t upgrades fs fs0 _ _ Hmk
                (mkstemp_other _ _ _ _ _ Hmk Hp)) as [_ ->].
    rewrite lookup_set_content. by case_decide.
  - unfold _apply_migration. by rewrite Hmk.
Qed.

(** X23. Migration scripts are taken to read and to change nothing but the
    file they are given, which is all that [bash] of [Tools] can do. For such
    scripts, [handle_pipeline_run_file] runs the scripts on a scratch copy of
    the embedded pipeline: when dumping does not raise, whenever
    [handle_pipeline_run_file] raises, whether a script fails, a key is
    missing or loading raises, the pipeline-run file, which existed, is left
    as it was. *)
Theorem handle_pipeline_run_file_keeps_file_on_failure (t : Tools)
    (upgrades : list TaskBundleUpgrade) (fs fs0 : FS)
    (file_path_ temp_pipeline_file : string) (loaded_doc : Yaml) (style : YAMLStyle) :
  mkstemp "-pipeline" fs = Ok (temp_pipeline_file, fs0) ->
  is_Some (files fs !! file_path_) ->
  (forall doc e, dump_yaml_text t doc style <> Raise e) ->
  let after := handle_pipeline_run_file t upgrades fs file_path_ loaded_doc style in
  snd after <> Ok tt ->
  files (fst after) !! file_path_ = files fs !! file_path_.
Proof.
  intros Hmk Hp Hdumps. simpl.
  pose proof (mkstemp_other _ _ _ _ _ Hmk Hp) as Hne.
  pose proof (mkstemp_fresh _ _ _ _ Hmk) as [_ Hfs0].
  assert (H0 : files fs0 !! file_path_ = files fs !! file_path_).
  { by rewrite Hfs0, lookup_insert_ne. }
  unfold handle_pipeline_run_file. rewrite Hmk. simpl.
  unfold seq_fs, dump_yaml, file_checksum, load_yaml.
  destruct (let* spec := getitem loaded_doc "spec" in getitem spec "pipelineSpec")
    as [embedded|e]; [|intros _; exact H0].
  destruct (dump_yaml_text t (YMap [("spec", embedded)]) style) as [text0|e] eqn:Hd0;
    simpl; [|by destruct (Hdumps _ _ Hd0)].
  set (fs1 := write_file fs0 temp_pipeline_file text0).
  assert (H1 : files fs1 !! file_path_ = files fs !! file_path_).
  { unfold fs1. simpl. by rewrite lookup_insert_ne. }
  assert (Htemp : is_Some (files fs1 !! temp_pipeline_file)).
  { unfold fs1. simpl. rewrite lookup_insert_eq. by eexists. }
  destruct (read_file fs1 temp_pipeline_file) as [origin|e]; simpl;
    [|intros _; exact H1].
  pose proof (_apply_migration_frame t upgrades fs1 temp_pipeline_file file_path_
                Htemp Hne) as H2.
  rewrite H1 in H2.
  destruct (_apply_migration t upgrades fs1 temp_pipeline_file) as [fs2 [[]|e]];
    simpl in H2; simpl; [|intros _; exact H2].
  destruct (read_file fs2 temp_pipeline_file) as [content|e]; simpl;
    [|intros _; exact H2].
  destruct (String.eqb _ _); simpl; [intros H; by destruct H|].
  destruct (load_yaml_text t content style) as [modified|e]; simpl;
    [|intros _; exact H2].
  destruct (let* modified_spec := getitem modified "spec" in _) as [doc'|e]; simpl;
    [|intros _; exact H2].
  destruct (dump_yaml_text t doc' style) as [text'|e] eqn:Hd1; simpl;
    [intros H; by destruct H|by destruct (Hdumps _ _ Hd1)].
Qed.

Lemma handle_pipeline_run_file_keeps_file_on_failure_witness :
  let after := handle_pipeline_run_file (tools_exiting 1) [migrated_upgrade]
                 repository ".tekton/pr.yaml" pipeline_run_doc [] in
  snd after = Raise (CalledProcessError 1)
  /\ files (fst after) !! ".tekton/pr.yaml" = files repository !! ".tekton/pr.yaml".
Proof.
  split; [reflexivity|].
  apply (handle_pipeline_run_file_keeps_file_on_failure (tools_exiting 1)
           [migrated_upgrade] repository
           (write_file {| files := files repository; next_temp := 1 |}
              "/tmp/tmp0-pipeline" EmptyString)
           ".tekton/pr.yaml" "/tmp/tmp0-pipeline" pipeline_run_doc []).
  - reflexivity.
  - exists "kind: PipelineRun". reflexivity.
  - intros doc e. discriminate.
  - vm_compute. discriminate.
Defined.
